(** * otus-module3-async: the worker pool, the per-connection interpreter
      and the connection table

    A shallow embedding of [src/lib/interpreter.cpp] and [src/lib/async.cpp].

    - [Worker]      : [struct Worker] (interpreter.cpp, lines 26-107): a
                      lock-guarded list of blocks drained by a fixed pool of
                      threads.  Every critical section of the source is one
                      atomic step of the model, and the pool is explored
                      under every interleaving of those steps.
    - [Interpreter] : [Interpreter::Impl] and [Interpreter] (lines 112-292):
                      the line buffer, the hand-over to the reader and the
                      shutdown sequence.
    - [async]       : the connection table of async.cpp.

    [reader.h], [statement.h] and [logger.h] are not part of the sources at
    hand; the reader is a parameter of the development, a statement is
    represented by its textual value and the logger by the list of strings
    it was given. *)

From Stdlib Require Import ZArith Lia Ascii.
From stdpp Require Import base tactics option list gmap strings pretty.

Open Scope Z_scope.

(** ** Common data *)

(** A statement is known here through [SomeStatement::value()] only. *)
Definition Statement := string.

(** [StatementContainer]: the statements of one block, in order. *)
Definition StatementContainer := list Statement.

(** [size_t] and [uintptr_t] are 64-bit unsigned integers (LP64). *)
Definition size_max : Z := 2 ^ 64.

Definition size_add (a b : Z) : Z := (a + b) mod size_max.

(** Character [c] occurs in [s]. *)
Fixpoint occurs (c : ascii) (s : string) : bool :=
  match s with
  | EmptyString => false
  | String c' s' => bool_decide (c' = c) || occurs c s'
  end.

(** How a call ends: it returns a value, it throws [std::out_of_range]
    (the only exception raised in these sources, by [std::array::at]), or
    it never returns, because it waits for a thread that does not exit or
    because its loop does not end. *)
Inductive outcome (A : Type) :=
  | Returns (a : A)
  | OutOfRange
  | Blocks.
Arguments Returns {A} a.
Arguments OutOfRange {A}.
Arguments Blocks {A}.

#[global] Instance outcome_ret : MRet outcome := fun A a => Returns a.
#[global] Instance outcome_bind : MBind outcome := fun A B f m =>
  match m with
  | Returns a => f a
  | OutOfRange => OutOfRange
  | Blocks => Blocks
  end.

(** * The worker pool *)

Module Worker.

(** [struct Metrics] *)
Record Metrics := mkMetrics {
  nblocks : Z;
  nstatements : Z
}.

(** Where a pool thread stands inside [operator()]:
    - [Waiting]: at the head of the [while], inside [cv_bulks.wait];
    - [Processing exit bulks_local]: the lock is released and the thread is
      in the [for] loop, [bulks_local] being the part not yet visited and
      [exit] the local flag read under the lock;
    - [Exited]: the [while] loop was left, the thread can be joined. *)
Inductive thread :=
  | Waiting
  | Processing (exit : bool) (bulks_local : list StatementContainer)
  | Exited.

#[global] Instance thread_eq_dec : EqDecision thread.
Proof. solve_decision. Defined.

(** [struct Worker].  [submitted] and [jobs] are history: the arguments of
    every [send] so far, and every call [job(stms)] made so far together
    with the index of the thread that made it. *)
Record t := mk {
  thread_metrics : list Metrics;
  thread_pool : list thread;
  bulks : list StatementContainer;
  stopped : bool;
  submitted : list StatementContainer;
  jobs : list (nat * StatementContainer)
}.

(** [Worker(nthreads, job)]: every thread starts at the head of its loop. *)
Definition new (nthreads : nat) : t :=
  {| thread_metrics := replicate nthreads (mkMetrics 0 0);
     thread_pool := replicate nthreads Waiting;
     bulks := [];
     stopped := false;
     submitted := [];
     jobs := [] |}.

(** [send]: [bulks.push_back] under the lock. *)
Definition send (stms : StatementContainer) (w : t) : t :=
  {| thread_metrics := thread_metrics w;
     thread_pool := thread_pool w;
     bulks := bulks w ++ [stms];
     stopped := stopped w;
     submitted := submitted w ++ [stms];
     jobs := jobs w |}.

(** [on_block] forwards to [send]. *)
Definition on_block (stms : StatementContainer) (w : t) : t := send stms w.

(** [stop] *)
Definition stop (w : t) : t :=
  {| thread_metrics := thread_metrics w;
     thread_pool := thread_pool w;
     bulks := bulks w;
     stopped := true;
     submitted := submitted w;
     jobs := jobs w |}.

(** The two metric updates that follow [job(stms)]. *)
Definition count (stms : StatementContainer) (m : Metrics) : Metrics :=
  {| nblocks := size_add (nblocks m) 1;
     nstatements := size_add (nstatements m) (Z.of_nat (length stms)) |}.

(** The predicate of [cv_bulks.wait]. *)
Definition wake_condition (w : t) : bool :=
  stopped w || negb (bool_decide (bulks w = [])).

(** One atomic step of thread [i] in [operator()]:
    - from [Waiting], when the wait predicate holds: read [stopped] into
      [exit], swap [bulks] with the empty local list, unlock;
    - inside the [for]: call the job on the next block and count it;
    - at the end of the [for]: test [while (!exit)].
    A thread that is blocked in the wait, or has exited, does not move.
    [cv_bulks.wait(l, pred)] is [while (!pred()) wait(l)]: a thread leaves
    it holding the lock with the predicate true, and this is all the model
    keeps of the condition variable; [send] and [stop] notify after they
    have changed the state under the lock, so no wake-up is lost. *)
Definition run (i : nat) (w : t) : t :=
  match thread_pool w !! i with
  | Some Waiting =>
      if wake_condition w then
        {| thread_metrics := thread_metrics w;
           thread_pool := <[i := Processing (stopped w) (bulks w)]> (thread_pool w);
           bulks := [];
           stopped := stopped w;
           submitted := submitted w;
           jobs := jobs w |}
      else w
  | Some (Processing exit (stms :: rest)) =>
      {| thread_metrics := alter (count stms) i (thread_metrics w);
         thread_pool := <[i := Processing exit rest]> (thread_pool w);
         bulks := bulks w;
         stopped := stopped w;
         submitted := submitted w;
         jobs := jobs w ++ [(i, stms)] |}
  | Some (Processing exit []) =>
      {| thread_metrics := thread_metrics w;
         thread_pool := <[i := if exit then Exited else Waiting]> (thread_pool w);
         bulks := bulks w;
         stopped := stopped w;
         submitted := submitted w;
         jobs := jobs w |}
  | Some Exited | None => w
  end.

(** What can happen to a pool: a producer sends or stops, or the scheduler
    lets pool thread [i] take its next step. *)
Inductive event :=
  | Send (stms : StatementContainer)
  | Stop
  | Run (i : nat).

Definition exec (e : event) (w : t) : t :=
  match e with
  | Send stms => send stms w
  | Stop => stop w
  | Run i => run i w
  end.

Fixpoint execs (tr : list event) (w : t) : t :=
  match tr with
  | [] => w
  | e :: tr' => execs tr' (exec e w)
  end.

(** The blocks sent along a trace, in order. *)
Fixpoint sends (tr : list event) : list StatementContainer :=
  match tr with
  | [] => []
  | Send stms :: tr' => stms :: sends tr'
  | _ :: tr' => sends tr'
  end.

Definition is_send (e : event) : bool :=
  match e with Send _ => true | _ => false end.

(** No [send] comes after the first [stop]. *)
Fixpoint sends_before_stop (tr : list event) : bool :=
  match tr with
  | [] => true
  | Stop :: tr' => forallb (fun e => negb (is_send e)) tr'
  | _ :: tr' => sends_before_stop tr'
  end.

(** The blocks a thread holds in its local list. *)
Definition held (th : thread) : list StatementContainer :=
  match th with
  | Processing _ l => l
  | _ => []
  end.

(** The thread has read [stopped == true] into [exit]. *)
Definition saw_stop (th : thread) : bool :=
  match th with
  | Waiting => false
  | Processing exit _ => exit
  | Exited => true
  end.

Definition all_exited (w : t) : bool :=
  forallb (fun th => bool_decide (th = Exited)) (thread_pool w).

(** The blocks on which thread [i] has called the job, in order. *)
Definition jobs_of (i : nat) (w : t) : list StatementContainer :=
  (filter (fun p => p.1 = i) (jobs w)).*2.

(** The blocks held by the threads, thread 0 first. *)
Definition in_flight (w : t) : list StatementContainer :=
  concat (held <$> thread_pool w).

(** Every block sent is in exactly one place: done, held by a thread, or
    still in the queue. *)
Definition conserved (w : t) : Prop :=
  (jobs w).*2 ++ in_flight w ++ bulks w ≡ₚ submitted w.

(** The same with the order kept, as it is in a pool of one thread. *)
Definition ordered (w : t) : Prop :=
  (jobs w).*2 ++ in_flight w ++ bulks w = submitted w.

(** The pool has not lost the blocks that were queued when a thread read
    [stopped]: once some thread has seen the stop, the queue is empty. *)
Definition drained (w : t) : Prop :=
  Exists (fun th => saw_stop th = true) (thread_pool w) ->
  stopped w = true /\ bulks w = [].

(** A pool in use: it has threads, it was not stopped, and it accounts for
    every block it was sent; [sound_single] is the same for a pool of one
    thread, with the order kept. *)
Definition sound (w : t) : Prop :=
  (0 < length (thread_pool w))%nat
  /\ conserved w /\ drained w /\ stopped w = false.

Definition sound_single (w : t) : Prop :=
  length (thread_pool w) = 1%nat
  /\ ordered w /\ drained w /\ stopped w = false.

(** What the producer may still do: nothing but [stop] once stopped. *)
Definition sends_allowed (was_stopped : bool) (tr : list event) : bool :=
  if was_stopped then forallb (fun e => negb (is_send e)) tr
  else sends_before_stop tr.

(** Where thread [i] stands after it took the queue [todo] with
    [exit == true], having done [before] earlier. *)
Definition leaving (i : nat) (before todo : list StatementContainer) (w : t) : Prop :=
  match thread_pool w !! i with
  | Some (Processing true rest) => jobs_of i w ++ rest = before ++ todo
  | Some Exited => jobs_of i w = before ++ todo
  | _ => False
  end.

(** How many steps a thread of a stopped pool is from its exit, the queue
    being [queue] blocks long. *)
Definition needs (th : thread) (queue : nat) : nat :=
  match th with
  | Waiting => queue + 2
  | Processing true l => length l + 1
  | Processing false l => length l + queue + 3
  | Exited => 0
  end%nat.

(** The counters of a thread that has called the job on [done], starting
    from zero: the number of blocks and the number of their statements,
    in [size_t]. *)
Definition tally (done : list StatementContainer) : Metrics :=
  {| nblocks := Z.of_nat (length done) mod size_max;
     nstatements := Z.of_nat (length (concat done)) mod size_max |}.

(** Every thread has its slot of counters, and the slot tells what the
    thread has done. *)
Definition counted (w : t) : Prop :=
  length (thread_metrics w) = length (thread_pool w)
  /\ forall i m, thread_metrics w !! i = Some m -> m = tally (jobs_of i w).

(** The sums of the counters of a pool. *)
Definition total_blocks (ms : list Metrics) : Z :=
  foldr (fun m acc => nblocks m + acc) 0 ms.

Definition total_statements (ms : list Metrics) : Z :=
  foldr (fun m acc => nstatements m + acc) 0 ms.

(** Every call of the job was made by a thread of the pool. *)
Definition by_threads (w : t) : Prop :=
  Forall (fun p => (p.1 < length (thread_pool w))%nat) (jobs w).

Definition accounted (w : t) : Prop := counted w /\ by_threads w.

(** What thread [i] has done and may still do, in the order it will do it:
    the blocks done, those it holds, those queued. *)
Definition lined_up (i : nat) (w : t) : list StatementContainer :=
  jobs_of i w ++ held (default Exited (thread_pool w !! i)) ++ bulks w.

(** Nobody has stopped the pool and no thread has exited. *)
Definition running (w : t) : Prop :=
  stopped w = false /\ Forall (fun th => saw_stop th = false) (thread_pool w).

Definition is_stop (e : event) : bool :=
  match e with Stop => true | _ => false end.

(** [join]: the caller waits until every thread has exited.  The threads
    move as the scheduler decides ([sched] lists thread indices); a thread
    that has not exited by then is run to the end of its loop, the lowest
    index first.  [steps_left] bounds what a thread of a stopped pool can
    still do: finish its list, return to the wait, take the queue, finish
    that, leave. *)
Definition steps_left (i : nat) (w : t) : nat :=
  (length (held (default Exited (thread_pool w !! i))) + length (bulks w) + 3)%nat.

Definition finish (i : nat) (w : t) : t :=
  Nat.iter (steps_left i w) (run i) w.

Definition run_all (sched : list nat) (w : t) : t :=
  foldl (fun w i => run i w) w sched.

Definition finish_all (w : t) : t :=
  foldl (fun w i => finish i w) w (seq 0 (length (thread_pool w))).

(** A pool that was never stopped keeps its threads in the wait, and
    [join] does not return. *)
Definition join (sched : list nat) (w : t) : outcome t :=
  let w' := finish_all (run_all sched w) in
  if all_exited w' then Returns w' else Blocks.

(** [~Worker() { join(); }] *)
Definition destroy (w : t) : outcome unit :=
  _ ← join [] w; Returns ().

End Worker.

(** * The reader *)

(** [reader.h] is not among the sources.  What [Interpreter::Impl] uses of
    a [Reader] is taken as a parameter: its constructor from the block
    size, [consume] of one line and [on_eof], each with the blocks it
    completes (the blocks given to the subscribers' [on_block]), and
    [get_metrics]. *)
Module Reader.

Record Metrics := mkMetrics {
  nlines : Z;
  nstatements : Z;
  nblocks : Z
}.

Class t := {
  state : Type;
  make : Z -> state;
  consume : string -> state -> state * list StatementContainer;
  on_eof : state -> state * list StatementContainer;
  get_metrics : state -> Metrics
}.

(** Modelled from the spec: a parsing boundary with the segmentation "group
    every [block_size] lines" of the end-to-end property: every line is one
    command, a block is completed when it holds [block_size] commands, and
    end-of-stream flushes a non-empty partial block.  It serves as the
    concrete reader of the examples. *)
Record fixed := mkFixed {
  block_size : Z;
  pending : StatementContainer;
  metrics : Metrics
}.

Definition fixed_consume (line : string) (r : fixed)
  : fixed * list StatementContainer :=
  let stms := pending r ++ [line] in
  let m := metrics r in
  if decide (Z.of_nat (length stms) = block_size r) then
    (mkFixed (block_size r) []
       (mkMetrics (nlines m + 1) (nstatements m + 1) (nblocks m + 1)),
     [stms])
  else
    (mkFixed (block_size r) stms
       (mkMetrics (nlines m + 1) (nstatements m + 1) (nblocks m)),
     []).

Definition fixed_on_eof (r : fixed) : fixed * list StatementContainer :=
  let m := metrics r in
  match pending r with
  | [] => (r, [])
  | stms =>
      (mkFixed (block_size r) []
         (mkMetrics (nlines m) (nstatements m) (nblocks m + 1)),
       [stms])
  end.

Definition fixed_reader : t :=
  {| state := fixed;
     make := fun n => mkFixed n [] (mkMetrics 0 0 0);
     consume := fixed_consume;
     on_eof := fixed_on_eof;
     get_metrics := metrics |}.

End Reader.

(** * [Interpreter::Impl] *)

Module Impl.
Section Impl.
Context {R : Reader.t}.

(** The two objects given to [reader.subscribe]. *)
Inductive subscriber := LogWorker | FileWorker.

(** [struct Interpreter::Impl].  [subscribers] is the subscription list
    held by the reader, in subscription order.  The mutex is implicit:
    [consume] runs under it and [stop_and_log_metrics] sets [stopped] under
    it before it does anything else, so the calls on one interpreter are
    taken one after the other. *)
Record t := mk {
  name : string;
  reader : Reader.state;
  subscribers : list subscriber;
  log_worker : Worker.t;
  file_worker : Worker.t;
  stopped : bool;
  buffer : list ascii;
  buffer_size : nat
}.

Definition newline : ascii := Ascii.ascii_of_nat 10.

(** [std::array<char, 1024> buffer {}] *)
Definition capacity : nat := 1024.

(** The constructor: a log pool of one thread, a file pool of [nthreads]
    threads, both subscribed to the reader, the log pool first. *)
Definition new (n : string) (block_size nthreads : Z) : t :=
  {| name := n;
     reader := Reader.make block_size;
     subscribers := [LogWorker; FileWorker];
     log_worker := Worker.new 1;
     file_worker := Worker.new (Z.to_nat nthreads);
     stopped := false;
     buffer := replicate capacity Ascii.zero;
     buffer_size := 0 |}.

Definition set_reader (r : Reader.state) (I : t) : t :=
  mk (name I) r (subscribers I) (log_worker I) (file_worker I)
     (stopped I) (buffer I) (buffer_size I).

Definition set_log_worker (w : Worker.t) (I : t) : t :=
  mk (name I) (reader I) (subscribers I) w (file_worker I)
     (stopped I) (buffer I) (buffer_size I).

Definition set_file_worker (w : Worker.t) (I : t) : t :=
  mk (name I) (reader I) (subscribers I) (log_worker I) w
     (stopped I) (buffer I) (buffer_size I).

Definition set_stopped (b : bool) (I : t) : t :=
  mk (name I) (reader I) (subscribers I) (log_worker I) (file_worker I)
     b (buffer I) (buffer_size I).

Definition set_buffer (buf : list ascii) (n : nat) (I : t) : t :=
  mk (name I) (reader I) (subscribers I) (log_worker I) (file_worker I)
     (stopped I) buf n.

(** Modelled from the spec: the reader hands a completed block to every
    subscriber, in subscription order, on the calling thread
    ([Reader::subscribe] and the notification are in reader.h). *)
Definition notify_one (stms : StatementContainer) (I : t) (s : subscriber) : t :=
  match s with
  | LogWorker => set_log_worker (Worker.on_block stms (log_worker I)) I
  | FileWorker => set_file_worker (Worker.on_block stms (file_worker I)) I
  end.

Definition notify (I : t) (stms : StatementContainer) : t :=
  foldl (notify_one stms) I (subscribers I).

Definition notify_all (blocks : list StatementContainer) (I : t) : t :=
  foldl notify I blocks.

(** [consume_available] *)
Definition consume_available (I : t) : t :=
  let line := String.string_of_list_ascii (take (buffer_size I) (buffer I)) in
  let '(r, blocks) := Reader.consume line (reader I) in
  set_buffer (buffer I) 0 (notify_all blocks (set_reader r I)).

(** [auto i = 0u]: the index of the loop of [consume] is an
    [unsigned int], and [++i] wraps at [2^32]. *)
Definition uint_max : Z := 2 ^ 32.

(** The body of the loop of [consume] on the character [c]: [buffer.at]
    throws once [buffer_size] has reached the size of the array. *)
Definition consume_char (c : ascii) (I : t) : outcome t :=
  if decide (c = newline) then Returns (consume_available I)
  else if decide (buffer_size I < length (buffer I))%nat then
    Returns (set_buffer (<[buffer_size I := c]> (buffer I)) (S (buffer_size I)) I)
  else OutOfRange.

(** One pass of the loop over the characters of [data], from the first to
    the last. *)
Fixpoint consume_pass (data : string) (I : t) : outcome t :=
  match data with
  | EmptyString => Returns I
  | String c data' =>
      if decide (c = newline) then consume_pass data' (consume_available I)
      else if decide (buffer_size I < length (buffer I))%nat then
        consume_pass data'
          (set_buffer (<[buffer_size I := c]> (buffer I)) (S (buffer_size I)) I)
      else OutOfRange
  end.

(** [consume]: [for (auto i = 0u; i < data.size(); ++i)].  The index is
    compared with a [size_t].  For fewer than [2^32] characters the loop
    is one pass over [data].  For [2^32] characters or more the index
    wraps to [0] before it reaches [data.size()]: the loop passes over
    the first [2^32] characters again and again and is left only by the
    throw of [buffer.at].  A pass that did not throw has met a line feed,
    the array having fewer than [2^32] places, so every pass from the
    second on starts with the buffer filled as the second did: when two
    passes have not thrown, none will, and the call does not return. *)
Definition consume (data : string) (I : t) : outcome t :=
  if Z.of_nat (String.length data) <? uint_max then consume_pass data I
  else
    let again := String.substring 0 (Z.to_nat uint_max) data in
    I1 ← consume_pass again I;
    _ ← consume_pass again I1;
    Blocks.

(** The loop of [consume] taken turn by turn, with its index: the outcome
    after at most [turns] turns from index [i], [None] while the loop is
    still running.  [data[i]] is read only for [i < data.size()], so the
    branch for an index out of the string is never taken. *)
Fixpoint consume_turns (turns : nat) (data : string) (i : Z) (I : t)
  : option (outcome t) :=
  if i <? Z.of_nat (String.length data) then
    match turns with
    | O => None
    | S turns' =>
        match String.get (Z.to_nat i) data with
        | Some c =>
            match consume_char c I with
            | Returns I' => consume_turns turns' data ((i + 1) mod uint_max) I'
            | OutOfRange => Some OutOfRange
            | Blocks => Some Blocks
            end
        | None => Some (Returns I)
        end
    end
  else Some (Returns I).

(** [q] passes of the loop over [data], one after the other. *)
Fixpoint passes (q : nat) (data : string) (I : t) : outcome t :=
  match q with
  | O => Returns I
  | S q' => I' ← consume_pass data I; passes q' data I'
  end.

(** [on_eof].  [sched_log] and [sched_file] are the steps the threads of the
    two pools take while the caller waits in [join]. *)
Definition on_eof (sched_log sched_file : list nat) (I : t) : outcome t :=
  let I1 := if decide (buffer_size I ≠ 0%nat) then consume_available I else I in
  let '(r, blocks) := Reader.on_eof (reader I1) in
  let I2 := notify_all blocks (set_reader r I1) in
  let lw := Worker.stop (log_worker I2) in
  let fw := Worker.stop (file_worker I2) in
  lw' ← Worker.join sched_log lw;
  fw' ← Worker.join sched_file fw;
  Returns (set_file_worker fw' (set_log_worker lw' I2)).

End Impl.
End Impl.

(** * [Interpreter] *)

Module Interpreter.
Section Interpreter.
Context {R : Reader.t}.

(** [Interpreter(context, name)] *)
Definition new (block_size nthreads : Z) (name : string) : Impl.t :=
  Impl.new name block_size nthreads.

(** [~Interpreter]: the two pools are destroyed, and [~Worker] joins.
    Which pool goes first depends on the reader's subscription list; the
    outcome is the same either way. *)
Definition destroy (I : Impl.t) : outcome unit :=
  _ ← Worker.destroy (Impl.log_worker I);
  Worker.destroy (Impl.file_worker I).

(** [consume] *)
Definition consume (data : string) (I : Impl.t) : outcome Impl.t :=
  if Impl.stopped I then Returns I else Impl.consume data I.

Definition endl : string := String Impl.newline EmptyString.
Definition tab : string := String (Ascii.ascii_of_nat 9) EmptyString.

(** One line of the "Files" part of the report. *)
Definition file_line (i : nat) (m : Worker.Metrics) : string :=
  tab +:+ "#" +:+ pretty i +:+ tab +:+ "blocks - " +:+ pretty (Worker.nblocks m)
  +:+ "; statements - " +:+ pretty (Worker.nstatements m) +:+ endl.

(** The text composed at the end of [stop_and_log_metrics]. *)
Definition report (I : Impl.t) : string :=
  let rm := Reader.get_metrics (Impl.reader I) in
  let lm := default (Worker.mkMetrics 0 0)
              (Worker.thread_metrics (Impl.log_worker I) !! 0%nat) in
  "[" +:+ Impl.name I +:+ "] Metrics" +:+ endl
  +:+ tab +:+ "Reader:" +:+ endl
  +:+ tab +:+ tab +:+ "lines - " +:+ pretty (Reader.nlines rm)
  +:+ "; statements - " +:+ pretty (Reader.nstatements rm)
  +:+ "; blocks - " +:+ pretty (Reader.nblocks rm) +:+ endl
  +:+ tab +:+ "Log:" +:+ endl
  +:+ tab +:+ tab +:+ "blocks - " +:+ pretty (Worker.nblocks lm)
  +:+ "; statements - " +:+ pretty (Worker.nstatements lm) +:+ endl
  +:+ tab +:+ "Files:" +:+ endl
  +:+ String.concat "" (imap file_line (Worker.thread_metrics (Impl.file_worker I))).

(** [stop_and_log_metrics]: the interpreter after the call, and the strings
    given to [logger.log], in order. *)
Definition stop_and_log_metrics (sched_log sched_file : list nat) (I : Impl.t)
  : outcome (Impl.t * list string) :=
  if Impl.stopped I then Returns (I, [])
  else
    I' ← Impl.on_eof sched_log sched_file (Impl.set_stopped true I);
    Returns (I', [report I']).

(** The scheduler lets pool threads of the interpreter run. *)
Definition schedule (sched_log sched_file : list nat) (I : Impl.t) : Impl.t :=
  Impl.set_file_worker (Worker.run_all sched_file (Impl.file_worker I))
    (Impl.set_log_worker (Worker.run_all sched_log (Impl.log_worker I)) I).

(** What a producer can tell of an interpreter: everything but the inner
    state of the pools, of which it keeps what was sent to them. *)
Definition view (I : Impl.t) :=
  (Impl.name I, Impl.reader I, Impl.subscribers I, Impl.stopped I,
   Impl.buffer I, Impl.buffer_size I,
   Worker.submitted (Impl.log_worker I), Worker.submitted (Impl.file_worker I)).



(** The lines of a piece of input: the text between line feeds; the last
    one is what follows the last line feed. *)
Fixpoint lines (data : string) : list string :=
  match data with
  | EmptyString => [EmptyString]
  | String c data' =>
      if decide (c = Impl.newline) then EmptyString :: lines data'
      else match lines data' with
           | l :: ls => String c l :: ls
           | [] => [String c EmptyString]
           end
  end.


(** The lines that are complete: all but the last. *)
Definition complete_lines (data : string) : list string :=
  removelast (lines data).

(** The text the buffer holds. *)
Definition pending_line (I : Impl.t) : string :=
  String.string_of_list_ascii (take (Impl.buffer_size I) (Impl.buffer I)).

(** The lines a reader is owed for [data] when [pending] is in the buffer:
    the complete lines of [data], the first one after [pending]. *)
Definition owed (pending data : string) : list string :=
  match complete_lines data with
  | [] => []
  | l :: ls => (pending +:+ l) :: ls
  end.

(** A reader after it was given [ls], line by line. *)
Definition given (ls : list string) (r : Reader.state) : Reader.state :=
  foldl (fun r l => (Reader.consume l r).1) r ls.

(** The first line of [data] fits in what is left of a buffer that holds
    [fill] characters, and each later line fits in the whole buffer. *)
Definition lines_fit (fill : nat) (data : string) : bool :=
  match lines data with
  | [] => true
  | l :: ls =>
      bool_decide (fill + String.length l <= Impl.capacity)%nat
      && forallb (fun l => bool_decide (String.length l <= Impl.capacity)%nat) ls
  end.

(** The pools of an interpreter that has not been stopped. *)
Definition pools_ok (I : Impl.t) : Prop :=
  Worker.sound_single (Impl.log_worker I) /\ Worker.sound (Impl.file_worker I).

(** The buffer is the array of the source, filled to a valid length. *)
Definition buffer_ok (I : Impl.t) : Prop :=
  length (Impl.buffer I) = Impl.capacity
  /\ (Impl.buffer_size I <= Impl.capacity)%nat.

(** The lines [ls], each with its line feed, before [tail]. *)
Definition rejoin (ls : list string) (tail : string) : string :=
  foldr (fun l acc => l +:+ String Impl.newline acc) tail ls.

(** The counters of both pools are exact, and both pools were sent the
    same blocks. *)
Definition accounted (I : Impl.t) : Prop :=
  Worker.accounted (Impl.log_worker I)
  /\ Worker.accounted (Impl.file_worker I)
  /\ Worker.submitted (Impl.log_worker I)
     = Worker.submitted (Impl.file_worker I).

(** [log_job]: the string given to [logger.log]; the joiner writes [", "]
    between the values. *)
Definition log_job (stms : StatementContainer) (name : string) : string :=
  "[" +:+ name +:+ "] bulk: " +:+ String.concat ", " stms.

(** The strings the log pool has given to the logger so far: its job is
    [log_job] bound to the name of the interpreter. *)
Definition bulk_log (I : Impl.t) : list string :=
  (fun stms => log_job stms (Impl.name I))
    <$> (Worker.jobs (Impl.log_worker I)).*2.

(** [file_job].  The clock reading [now_ns] and the text [tid] that the
    stream prints for the id of the running thread are inputs, and the
    files are a map from names to contents.  What the file system does is
    an input too, [written]: the result of [ofstream::open] is not
    checked, and when it fails ([None]) the stream is in a failed state,
    every write does nothing and the files are as they were.  When it
    succeeds, a file that exists is truncated, and the file holds the
    first [n] characters of the text ([Some n]): all of it when no write
    fails, that is when [n] is the length of the text or more. *)
Definition file_name (now_ns : Z) (tid : string) : string :=
  "bulk_" +:+ pretty now_ns +:+ "_" +:+ tid +:+ ".log".

Definition file_text (stms : StatementContainer) : string :=
  foldr (fun v acc => v +:+ String Impl.newline acc) EmptyString stms.

Definition file_job (now_ns : Z) (tid : string) (written : option nat)
    (stms : StatementContainer) (files : gmap string string)
  : gmap string string :=
  match written with
  | None => files
  | Some n =>
      <[file_name now_ns tid := String.substring 0 n (file_text stms)]> files
  end.

(** An interpreter in use, as [connect] makes it and [receive] keeps it. *)
Definition in_use (I : Impl.t) : Prop :=
  Impl.stopped I = false
  /\ Impl.subscribers I = [Impl.LogWorker; Impl.FileWorker]
  /\ pools_ok I
  /\ buffer_ok I.

End Interpreter.
End Interpreter.

(** * The connection table *)

Module async.
Section async.
Context {R : Reader.t}.

Definition nthreads_per_connection : Z := 2.

(** [struct ConnectionsHandler].  A handle is the id itself.  [logger]
    is what the calling threads have logged through the handler's logger
    and its copies. *)
Record ConnectionsHandler := mk {
  logger : list string;
  next_id : Z;
  connections : gmap Z Impl.t
}.

Definition g_conn_handler : ConnectionsHandler :=
  {| logger := []; next_id := 0; connections := ∅ |}.

(** [connect].  [emplace] leaves an entry that is present as it is; the
    interpreter made for the call is then destroyed at once, and as its
    pools were never stopped, the [join] of [~Worker] does not return. *)
Definition connect (bulk : Z) (g : ConnectionsHandler)
  : outcome (Z * ConnectionsHandler) :=
  let id := next_id g in
  let intrp := Interpreter.new bulk nthreads_per_connection (pretty id) in
  match connections g !! id with
  | None =>
      Returns (id, {| logger := logger g;
                      next_id := size_add id 1;
                      connections := <[id := intrp]> (connections g) |})
  | Some _ =>
      _ ← Interpreter.destroy intrp;
      Returns (id, {| logger := logger g;
                      next_id := size_add id 1;
                      connections := connections g |})
  end.

(** [receive] *)
Definition receive (handle : Z) (data : string) (g : ConnectionsHandler)
  : outcome ConnectionsHandler :=
  match connections g !! handle with
  | None => Returns g
  | Some intrp =>
      intrp' ← Interpreter.consume data intrp;
      Returns {| logger := logger g;
                 next_id := next_id g;
                 connections := <[handle := intrp']> (connections g) |}
  end.

(** [disconnect] *)
Definition disconnect (handle : Z) (sched_log sched_file : list nat)
    (g : ConnectionsHandler) : outcome ConnectionsHandler :=
  match connections g !! handle with
  | None => Returns g
  | Some intrp =>
      '(intrp', logged) ← Interpreter.stop_and_log_metrics sched_log sched_file intrp;
      _ ← Interpreter.destroy intrp';
      Returns {| logger := logger g ++ logged;
                 next_id := next_id g;
                 connections := delete handle (connections g) |}
  end.

(** Pool threads of a live connection run. *)
Definition schedule (handle : Z) (sched_log sched_file : list nat)
    (g : ConnectionsHandler) : ConnectionsHandler :=
  {| logger := logger g;
     next_id := next_id g;
     connections :=
       alter (Interpreter.schedule sched_log sched_file) handle (connections g) |}.

(** The calls a client makes, and the scheduler's moves between them. *)
Inductive call :=
  | Connect (bulk : Z)
  | Receive (handle : Z) (data : string)
  | Disconnect (handle : Z) (sched_log sched_file : list nat)
  | Schedule (handle : Z) (sched_log sched_file : list nat).

(** One call: the table after it and the handle it returned, if any. *)
Definition step (c : call) (g : ConnectionsHandler)
  : outcome (ConnectionsHandler * list Z) :=
  match c with
  | Connect bulk => '(h, g') ← connect bulk g; Returns (g', [h])
  | Receive h data => g' ← receive h data g; Returns (g', [])
  | Disconnect h sl sf => g' ← disconnect h sl sf g; Returns (g', [])
  | Schedule h sl sf => Returns (schedule h sl sf g, [])
  end.

(** A run of calls: the final table and the handles returned, in order. *)
Fixpoint calls (cs : list call) (g : ConnectionsHandler)
  : outcome (ConnectionsHandler * list Z) :=
  match cs with
  | [] => Returns (g, [])
  | c :: cs' =>
      '(g1, hs1) ← step c g;
      '(g2, hs2) ← calls cs' g1;
      Returns (g2, hs1 ++ hs2)
  end.

(** Every interpreter of the table is in use. *)
Definition live (g : ConnectionsHandler) : Prop :=
  forall h I, connections g !! h = Some I -> Interpreter.in_use I.

(** The id counter is a [uintptr_t]. *)
Definition id_ok (g : ConnectionsHandler) : Prop :=
  0 <= next_id g < size_max.

(** The call is made on handle [h]. *)
Definition addresses (h : Z) (c : call) : bool :=
  match c with
  | Connect _ => false
  | Receive h' _ | Disconnect h' _ _ | Schedule h' _ _ => bool_decide (h' = h)
  end.

(** Every interpreter of the table bears the decimal of its handle as its
    name, its pools are accounted for, and its file pool has the threads
    [connect] gave it. *)
Definition kept (g : ConnectionsHandler) : Prop :=
  forall h I, connections g !! h = Some I ->
    Impl.name I = pretty h
    /\ Interpreter.accounted I
    /\ length (Worker.thread_pool (Impl.file_worker I))
       = Z.to_nat nthreads_per_connection.

(** [n] rounds of connect and disconnect, the [k]-th of which obtains and
    closes handle [k]: the round counter and the calls made. *)
Definition churn (n : N) : N * list call :=
  N.iter n
    (fun p => (N.succ p.1,
               p.2 ++ [Connect 1; Disconnect (Z.of_N p.1) [] []]))
    (0%N, []).

End async.
End async.

(** * Properties of the worker pool *)

Section WorkerFacts.
Import Worker.

(** ** What a step leaves alone *)

Lemma run_stopped i w : stopped (run i w) = stopped w.
Proof.
  unfold run. destruct (thread_pool w !! i) as [[| ex [|stms rest] |]|];
    try done. by destruct (wake_condition w).
Qed.

Lemma run_submitted i w : submitted (run i w) = submitted w.
Proof.
  unfold run. destruct (thread_pool w !! i) as [[| ex [|stms rest] |]|];
    try done. by destruct (wake_condition w).
Qed.

Lemma run_pool_length i w :
  length (thread_pool (run i w)) = length (thread_pool w).
Proof.
  unfold run. destruct (thread_pool w !! i) as [[| ex [|stms rest] |]|];
    simpl; rewrite ?length_insert; try done.
  destruct (wake_condition w); simpl; by rewrite ?length_insert.
Qed.

Lemma run_other i j w :
  i ≠ j -> thread_pool (run i w) !! j = thread_pool w !! j.
Proof.
  intros Hij. unfold run.
  destruct (thread_pool w !! i) as [[| ex [|stms rest] |]|];
    simpl; rewrite ?list_lookup_insert_ne; try done.
  destruct (wake_condition w); simpl; by rewrite ?list_lookup_insert_ne.
Qed.

Lemma jobs_of_snoc i j (stms : StatementContainer) l :
  (filter (fun p : nat * StatementContainer => p.1 = i) (l ++ [(j, stms)])).*2 =
  (filter (fun p : nat * StatementContainer => p.1 = i) l).*2
    ++ (if decide (j = i) then [stms] else []).
Proof.
  rewrite filter_app, fmap_app. f_equal.
  rewrite filter_cons, filter_nil. simpl. by destruct (decide (j = i)).
Qed.

Lemma run_jobs_other i j w : i ≠ j -> jobs_of j (run i w) = jobs_of j w.
Proof.
  intros Hij. unfold jobs_of, run.
  destruct (thread_pool w !! i) as [[| ex [|stms rest] |]|]; try done.
  - by destruct (wake_condition w).
  - simpl. rewrite jobs_of_snoc.
    rewrite decide_False by done. by rewrite app_nil_r.
Qed.

Lemma exec_stopped_mono e w : stopped w = true -> stopped (exec e w) = true.
Proof. destruct e; simpl; try done. by rewrite run_stopped. Qed.

Lemma execs_submitted tr w : submitted (execs tr w) = submitted w ++ sends tr.
Proof.
  revert w. induction tr as [|e tr IH]; intros w; simpl.
  - by rewrite app_nil_r.
  - rewrite IH. destruct e; simpl; rewrite ?run_submitted; try done.
    by rewrite <- app_assoc.
Qed.

(** ** Nothing is lost and nothing is made up *)

Lemma in_flight_insert (pool : list thread) i th th' :
  pool !! i = Some th ->
  concat (held <$> <[i := th']> pool) ++ held th
  ≡ₚ concat (held <$> pool) ++ held th'.
Proof.
  revert i. induction pool as [|a pool IH]; intros [|i] Hi; simplify_eq/=.
  - solve_Permutation.
  - rewrite <- !app_assoc. f_equiv. by apply IH.
Qed.

Lemma conserved_new n : conserved (new n).
Proof.
  unfold conserved, in_flight. simpl.
  induction n as [|n IH]; simpl; [done|]. exact IH.
Qed.

Lemma conserved_run i w : conserved w -> conserved (run i w).
Proof.
  unfold conserved, in_flight, run. intros Hc.
  destruct (thread_pool w !! i) as [[| ex [|stms rest] |]|] eqn:Hi; try done.
  - destruct (wake_condition w); [|done]. simpl.
    pose proof (in_flight_insert _ _ _ (Processing (stopped w) (bulks w)) Hi) as Hp.
    simpl in Hp. rewrite app_nil_r in *. by rewrite Hp.
  - simpl.
    pose proof (in_flight_insert _ _ _ (if ex then Exited else Waiting) Hi) as Hp.
    simpl in Hp. rewrite app_nil_r in Hp.
    rewrite Hp. by destruct ex; simpl; rewrite app_nil_r.
  - simpl. rewrite fmap_app. simpl.
    pose proof (in_flight_insert _ _ _ (Processing ex rest) Hi) as Hp.
    simpl in Hp. rewrite <- Hc.
    rewrite <- !app_assoc. f_equiv. simpl.
    assert (stms :: concat (held <$> <[i := Processing ex rest]> (thread_pool w))
            ≡ₚ concat (held <$> thread_pool w)) as Hq.
    { apply (Permutation_app_inv_r rest). rewrite <- Hp. solve_Permutation. }
    by rewrite <- Hq.
Qed.

Lemma conserved_exec e w : conserved w -> conserved (exec e w).
Proof.
  destruct e; simpl; [| done | apply conserved_run].
  unfold conserved, in_flight. simpl. intros Hc.
  rewrite <- Hc. by rewrite <- !app_assoc.
Qed.

Lemma conserved_execs tr w : conserved w -> conserved (execs tr w).
Proof.
  revert w. induction tr as [|e tr IH]; intros w Hc; simpl; [done|].
  by apply IH, conserved_exec.
Qed.

(** With one thread the order is kept as well. *)
Lemma ordered_exec e w :
  length (thread_pool w) = 1%nat -> ordered w -> ordered (exec e w).
Proof.
  unfold ordered. intros Hlen Ho. destruct e as [stms| |i]; simpl; [| done |].
  - rewrite <- Ho. by rewrite <- !app_assoc.
  - unfold in_flight, run in *.
    destruct (thread_pool w) as [|th [|? ?]] eqn:Hpool; try done.
    destruct i as [|i]; simpl; [|by rewrite Hpool].
    destruct th as [| ex [|stms rest] |]; simpl in *; rewrite ?Hpool; try done.
    + destruct (wake_condition w); simpl; rewrite ?Hpool; [|done].
      simpl. by rewrite !app_nil_r in *.
    + simpl. by destruct ex.
    + simpl. rewrite fmap_app. simpl. rewrite <- Ho.
      by rewrite <- !app_assoc.
Qed.

Lemma exec_pool_length e w :
  length (thread_pool (exec e w)) = length (thread_pool w).
Proof. destruct e; simpl; try done. apply run_pool_length. Qed.

Lemma ordered_execs tr w :
  length (thread_pool w) = 1%nat -> ordered w -> ordered (execs tr w).
Proof.
  revert w. induction tr as [|e tr IH]; intros w Hlen Ho; simpl; [done|].
  apply IH; [by rewrite exec_pool_length | by apply ordered_exec].
Qed.

(** ** The queue is empty once a thread has seen the stop *)

Lemma drained_new n : drained (new n).
Proof.
  intros Hex. exfalso. simpl in Hex. apply Exists_exists in Hex as (th & Hin & Hs).
  apply elem_of_replicate in Hin as [-> _]. done.
Qed.

Lemma Exists_insert_saw (pool : list thread) i th :
  Exists (fun th => saw_stop th = true) (<[i := th]> pool) ->
  saw_stop th = true \/ Exists (fun th => saw_stop th = true) pool.
Proof.
  revert i. induction pool as [|a pool IH]; intros i Hex; simpl in *.
  - by apply Exists_nil in Hex.
  - destruct i as [|i]; simpl in Hex; apply Exists_cons in Hex as [H|H].
    + by left.
    + right. by apply Exists_cons_tl.
    + right. by apply Exists_cons_hd.
    + destruct (IH _ H) as [?|?]; [by left | right; by apply Exists_cons_tl].
Qed.

Lemma Exists_lookup_saw (pool : list thread) i th :
  pool !! i = Some th -> saw_stop th = true ->
  Exists (fun th => saw_stop th = true) pool.
Proof.
  intros Hi Hs. apply Exists_exists. exists th. split; [|done].
  by eapply list_elem_of_lookup_2.
Qed.

Lemma drained_run i w : drained w -> drained (run i w).
Proof.
  unfold drained, run. intros Hd.
  destruct (thread_pool w !! i) as [[| ex [|stms rest] |]|] eqn:Hi; try done.
  - unfold wake_condition.
    destruct (stopped w) eqn:Hst; simpl.
    + intros _. done.
    + destruct (bool_decide (bulks w = [])); simpl.
      * intros Hex. destruct (Hd Hex). congruence.
      * intros Hex. apply Exists_insert_saw in Hex as [?|Hex]; [done|].
        destruct (Hd Hex). congruence.
  - simpl. intros Hex. apply Hd.
    apply Exists_insert_saw in Hex as [Hs|Hex]; [|done].
    apply (Exists_lookup_saw _ _ _ Hi). by destruct ex.
  - simpl. intros Hex. apply Hd.
    apply Exists_insert_saw in Hex as [Hs|Hex]; [|done].
    by apply (Exists_lookup_saw _ _ _ Hi).
Qed.

Lemma drained_stop w : drained w -> drained (stop w).
Proof.
  unfold drained. simpl. intros Hd Hex. split; [done|]. by destruct (Hd Hex).
Qed.

Lemma drained_execs tr w :
  drained w -> sends_allowed (stopped w) tr = true -> drained (execs tr w).
Proof.
  revert w. induction tr as [|e tr IH]; intros w Hd Hok; simpl; [done|].
  destruct e as [stms| |i]; simpl.
  - destruct (stopped w) eqn:Hst; simpl in Hok; [done|].
    apply IH; [|by simpl; rewrite Hst].
    unfold drained. simpl. intros Hex. destruct (Hd Hex). congruence.
  - apply IH; [by apply drained_stop|]. simpl.
    by destruct (stopped w); simpl in Hok.
  - apply IH; [by apply drained_run|]. rewrite run_stopped.
    by destruct (stopped w); simpl in Hok.
Qed.

Lemma all_exited_spec w :
  all_exited w = true <-> Forall (fun th => th = Exited) (thread_pool w).
Proof.
  unfold all_exited. induction (thread_pool w) as [|th pool IH]; simpl.
  - split; [by constructor | done].
  - rewrite andb_true_iff, bool_decide_eq_true, IH, Forall_cons. done.
Qed.

Lemma all_exited_in_flight w : all_exited w = true -> in_flight w = [].
Proof.
  rewrite all_exited_spec. unfold in_flight.
  induction 1 as [|th pool -> _ IH]; simpl; done.
Qed.

Lemma exited_queue_empty w :
  (0 < length (thread_pool w))%nat ->
  drained w -> all_exited w = true -> bulks w = [].
Proof.
  intros Hn Hd Hex. apply Hd. apply all_exited_spec in Hex.
  destruct (thread_pool w) as [|th pool]; simpl in Hn; [lia|].
  apply Exists_cons_hd. by rewrite (Forall_inv Hex).
Qed.

(** After the last thread has exited, every block sent has been done. *)
Lemma exited_done w :
  (0 < length (thread_pool w))%nat ->
  conserved w -> drained w -> all_exited w = true ->
  (jobs w).*2 ≡ₚ submitted w.
Proof.
  intros Hn Hc Hd Hex. unfold conserved in Hc.
  rewrite (all_exited_in_flight _ Hex) in Hc.
  rewrite (exited_queue_empty w Hn Hd Hex) in Hc.
  by rewrite !app_nil_r in Hc.
Qed.

(** ** [join] returns once the pool is stopped *)

Lemma iter_run_ind (P : t -> Prop) i :
  (forall w, P w -> P (run i w)) ->
  forall k w, P w -> P (Nat.iter k (run i) w).
Proof. intros Hstep k w Hw. induction k as [|k IH]; simpl; auto. Qed.

Lemma needs_run i w th :
  stopped w = true -> thread_pool w !! i = Some th -> th ≠ Exited ->
  exists th', thread_pool (run i w) !! i = Some th' /\
    (needs th' (length (bulks (run i w))) < needs th (length (bulks w)))%nat.
Proof.
  intros Hst Hi Hne. pose proof (lookup_lt_Some _ _ _ Hi) as Hlt.
  unfold run. rewrite Hi.
  destruct th as [| ex [|stms rest] |]; [| | |done].
  - unfold wake_condition. rewrite Hst. simpl.
    eexists. split; [by apply list_lookup_insert_eq|]. simpl. lia.
  - simpl. eexists. split; [by apply list_lookup_insert_eq|].
    destruct ex; simpl; lia.
  - simpl. eexists. split; [by apply list_lookup_insert_eq|].
    destruct ex; simpl; lia.
Qed.

Lemma iter_run_exits i k : forall w th,
  stopped w = true -> thread_pool w !! i = Some th ->
  (needs th (length (bulks w)) <= k)%nat ->
  thread_pool (Nat.iter k (run i) w) !! i = Some Exited.
Proof.
  induction k as [|k IH]; intros w th Hst Hi Hk.
  - simpl. destruct th as [| [] l |]; simpl in Hk; try lia. done.
  - rewrite Nat.iter_succ_r.
    destruct (decide (th = Exited)) as [->|Hne].
    + apply (IH _ Exited); [by rewrite run_stopped | | simpl; lia].
      unfold run. by rewrite Hi.
    + destruct (needs_run i w th Hst Hi Hne) as (th' & Hi' & Hlt).
      apply (IH _ th'); [by rewrite run_stopped | done | lia].
Qed.

Lemma needs_steps_left i w th :
  thread_pool w !! i = Some th ->
  (needs th (length (bulks w)) <= steps_left i w)%nat.
Proof.
  intros Hi. unfold steps_left. rewrite Hi. simpl.
  destruct th as [| [] l |]; simpl; lia.
Qed.

Lemma finish_exits i w :
  stopped w = true -> (i < length (thread_pool w))%nat ->
  thread_pool (finish i w) !! i = Some Exited.
Proof.
  intros Hst Hlt. destruct (lookup_lt_is_Some_2 _ _ Hlt) as [th Hi].
  unfold finish. eapply iter_run_exits; eauto using needs_steps_left.
Qed.

Lemma finish_stopped i w : stopped (finish i w) = stopped w.
Proof.
  unfold finish. generalize (steps_left i w). intros k.
  induction k as [|k IH]; simpl; [done|]. by rewrite run_stopped.
Qed.

Lemma finish_pool_length i w :
  length (thread_pool (finish i w)) = length (thread_pool w).
Proof.
  unfold finish. generalize (steps_left i w). intros k.
  induction k as [|k IH]; simpl; [done|]. by rewrite run_pool_length.
Qed.

Lemma finish_other i j w :
  i ≠ j -> thread_pool (finish i w) !! j = thread_pool w !! j.
Proof.
  intros Hij. unfold finish. generalize (steps_left i w). intros k.
  induction k as [|k IH]; simpl; [done|]. by rewrite run_other.
Qed.

Lemma foldl_finish l : forall w,
  stopped w = true ->
  (forall i, i ∈ l -> (i < length (thread_pool w))%nat) ->
  let w' := foldl (fun w i => finish i w) w l in
  stopped w' = true /\
  length (thread_pool w') = length (thread_pool w) /\
  (forall i, i ∈ l \/ thread_pool w !! i = Some Exited ->
             thread_pool w' !! i = Some Exited).
Proof.
  induction l as [|j l IH]; intros w Hst Hl; simpl.
  - split; [done|]. split; [done|]. intros i [Hin|Hi]; [|done].
    by apply elem_of_nil in Hin.
  - destruct (IH (finish j w)) as (Hst' & Hlen' & Hex').
    + by rewrite finish_stopped.
    + intros i Hin. rewrite finish_pool_length. apply Hl. by right.
    + split; [done|]. split; [by rewrite Hlen', finish_pool_length|].
      intros i Hi. apply Hex'.
      destruct (decide (j = i)) as [->|Hji].
      * right. apply finish_exits; [done|]. apply Hl. by left.
      * destruct Hi as [Hin|Hi].
        -- left. apply elem_of_cons in Hin as [->|Hin]; done.
        -- right. by rewrite finish_other.
Qed.

Lemma finish_all_exited w :
  stopped w = true -> all_exited (finish_all w) = true.
Proof.
  intros Hst. apply all_exited_spec. unfold finish_all.
  destruct (foldl_finish (seq 0 (length (thread_pool w))) w Hst)
    as (_ & Hlen & Hex).
  { intros i Hin. apply elem_of_seq in Hin. lia. }
  apply Forall_lookup. intros i th Hi.
  pose proof (lookup_lt_Some _ _ _ Hi) as Hlt. rewrite Hlen in Hlt.
  rewrite Hex in Hi; [congruence|]. left. apply elem_of_seq. lia.
Qed.

Lemma run_all_stopped sched w : stopped (run_all sched w) = stopped w.
Proof.
  unfold run_all. revert w.
  induction sched as [|i sched IH]; intros w; simpl; [done|].
  by rewrite IH, run_stopped.
Qed.

Lemma join_returns sched w :
  stopped w = true ->
  join sched w = Returns (finish_all (run_all sched w)).
Proof.
  intros Hst. unfold join.
  by rewrite finish_all_exited by (by rewrite run_all_stopped).
Qed.

(** Whatever [join] does to the pool is done by steps of its threads. *)
Lemma join_steps_ind (P : t -> Prop) :
  (forall i w, P w -> P (run i w)) ->
  forall sched w, P w -> P (finish_all (run_all sched w)).
Proof.
  intros Hstep sched w Hw.
  assert (forall l v, P v -> P (foldl (fun w i => run i w) v l)) as Hrun.
  { induction l as [|i l IH]; intros v Hv; simpl; auto. }
  assert (forall l v, P v -> P (foldl (fun w i => finish i w) v l)) as Hfin.
  { induction l as [|i l IH]; intros v Hv; simpl; [done|].
    apply IH. unfold finish. by apply iter_run_ind; [apply Hstep|]. }
  unfold finish_all, run_all. by apply Hfin, Hrun.
Qed.

Lemma join_inv sched w w' :
  join sched w = Returns w' ->
  w' = finish_all (run_all sched w) /\ all_exited w' = true.
Proof.
  unfold join. destruct (all_exited _) eqn:Hex; [|done].
  intros [= <-]. done.
Qed.

Lemma execs_pool_length tr w :
  length (thread_pool (execs tr w)) = length (thread_pool w).
Proof.
  revert w. induction tr as [|e tr IH]; intros w; simpl; [done|].
  by rewrite IH, exec_pool_length.
Qed.

Lemma execs_stopped_mono tr w :
  stopped w = true -> stopped (execs tr w) = true.
Proof.
  revert w. induction tr as [|e tr IH]; intros w Hst; simpl; [done|].
  by apply IH, exec_stopped_mono.
Qed.

Lemma run_exited i w : all_exited w = true -> run i w = w.
Proof.
  rewrite all_exited_spec, Forall_lookup. intros Hall. unfold run.
  destruct (thread_pool w !! i) as [th|] eqn:Hi; [|done].
  by rewrite (Hall _ _ Hi).
Qed.

Lemma run_all_exited sched w : all_exited w = true -> run_all sched w = w.
Proof.
  intros Hex. unfold run_all. induction sched as [|i sched IH]; simpl; [done|].
  by rewrite run_exited.
Qed.

(** ** A thread that wakes in a stopped pool *)

Lemma leaving_exec i before todo e w :
  leaving i before todo w -> leaving i before todo (exec e w).
Proof.
  unfold leaving. destruct e as [stms| |j]; simpl; try done.
  destruct (decide (j = i)) as [->|Hji].
  - unfold run, jobs_of.
    destruct (thread_pool w !! i) as [[| [] [|stms rest] |]|] eqn:Hi;
      try done; pose proof (lookup_lt_Some _ _ _ Hi) as Hlt; simpl.
    + rewrite list_lookup_insert_eq by done. by rewrite app_nil_r.
    + rewrite list_lookup_insert_eq by done.
      rewrite jobs_of_snoc. rewrite decide_True by done.
      intros <-. by rewrite <- !app_assoc.
    + by rewrite Hi.
  - by rewrite run_other, run_jobs_other.
Qed.

Lemma leaving_execs i before todo tr w :
  leaving i before todo w -> leaving i before todo (execs tr w).
Proof.
  revert w. induction tr as [|e tr IH]; intros w Hl; simpl; [done|].
  by apply IH, leaving_exec.
Qed.

Lemma finish_execs i w :
  finish i w = execs (repeat (Run i) (steps_left i w)) w.
Proof.
  unfold finish. generalize (steps_left i w). intros k. revert w.
  induction k as [|k IH]; intros w; [done|].
  rewrite Nat.iter_succ_r. simpl. apply IH.
Qed.

Lemma finish_all_quiet w : all_exited w = true -> finish_all w = w.
Proof.
  intros Hex. unfold finish_all. generalize (seq 0 (length (thread_pool w))).
  intros l. induction l as [|i l IH]; simpl; [done|].
  assert (finish i w = w) as ->; [|done].
  unfold finish. generalize (steps_left i w). intros k.
  induction k as [|k IHk]; simpl; [done|]. by rewrite IHk, run_exited.
Qed.

Lemma join_quiet sched w : all_exited w = true -> join sched w = Returns w.
Proof.
  intros Hex. unfold join.
  by rewrite run_all_exited, finish_all_quiet, Hex.
Qed.

Lemma join_exited sched w :
  stopped w = true ->
  exists w', join sched w = Returns w'
    /\ stopped w' = true /\ all_exited w' = true.
Proof.
  intros Hst. rewrite join_returns by done. eexists. split; [done|].
  split; [|by apply finish_all_exited; rewrite run_all_stopped].
  apply (join_steps_ind (fun v => stopped v = true)); [|done].
  intros i v Hv. by rewrite run_stopped.
Qed.

(** ** Pools in use *)

Lemma drained_send stms w :
  stopped w = false -> drained w -> drained (send stms w).
Proof.
  intros Hst Hd. apply (drained_execs [Send stms] w Hd). by rewrite Hst.
Qed.

Lemma sound_new n : (0 < n)%nat -> sound (new n).
Proof.
  intros Hn. split; [by simpl; rewrite length_replicate|].
  split; [apply conserved_new|]. split; [apply drained_new | done].
Qed.

Lemma sound_single_new : sound_single (new 1).
Proof. split; [done|]. split; [done|]. split; [apply drained_new | done]. Qed.

Lemma sound_send stms w : sound w -> sound (send stms w).
Proof.
  intros (Hn & Hc & Hd & Hst). split; [done|].
  split; [by apply (conserved_exec (Send stms))|].
  split; [by apply drained_send | done].
Qed.

Lemma sound_single_send stms w : sound_single w -> sound_single (send stms w).
Proof.
  intros (Hn & Ho & Hd & Hst). split; [done|].
  split; [by apply (ordered_exec (Send stms))|].
  split; [by apply drained_send | done].
Qed.

Lemma sound_run i w : sound w -> sound (run i w).
Proof.
  intros (Hn & Hc & Hd & Hst). rewrite <- (run_pool_length i) in Hn.
  split; [done|]. split; [by apply conserved_run|].
  split; [by apply drained_run | by rewrite run_stopped].
Qed.

Lemma sound_single_run i w : sound_single w -> sound_single (run i w).
Proof.
  intros (Hn & Ho & Hd & Hst).
  split; [by rewrite run_pool_length|].
  split; [by apply (ordered_exec (Run i))|].
  split; [by apply drained_run | by rewrite run_stopped].
Qed.

Lemma sound_run_all sched w : sound w -> sound (run_all sched w).
Proof.
  unfold run_all. revert w.
  induction sched as [|i sched IH]; intros w Hw; simpl; [done|].
  by apply IH, sound_run.
Qed.

Lemma sound_single_run_all sched w :
  sound_single w -> sound_single (run_all sched w).
Proof.
  unfold run_all. revert w.
  induction sched as [|i sched IH]; intros w Hw; simpl; [done|].
  by apply IH, sound_single_run.
Qed.

(** Stopping and joining a pool in use: the job has been called on every
    block that was sent. *)
Lemma join_stop_complete sched w w' :
  sound w -> join sched (stop w) = Returns w' ->
  submitted w' = submitted w /\ (jobs w').*2 ≡ₚ submitted w'.
Proof.
  intros (Hn & Hc & Hd & Hst) Hj. apply join_inv in Hj as [-> Hex].
  set (P := fun v : t => (0 < length (thread_pool v))%nat /\ conserved v
                         /\ drained v /\ submitted v = submitted w).
  assert (P (finish_all (run_all sched (stop w)))) as (Hn' & Hc' & Hd' & Hs').
  { apply join_steps_ind.
    - intros i v (? & ? & ? & ?). unfold P.
      rewrite run_submitted, run_pool_length.
      auto using conserved_run, drained_run.
    - unfold P. split; [done|]. split; [done|].
      split; [by apply drained_stop | done]. }
  split; [done|]. by apply exited_done.
Qed.

Lemma join_stop_ordered sched w w' :
  sound_single w -> join sched (stop w) = Returns w' ->
  submitted w' = submitted w /\ (jobs w').*2 = submitted w'.
Proof.
  intros (Hn & Ho & Hd & Hst) Hj. apply join_inv in Hj as [-> Hex].
  set (P := fun v : t => length (thread_pool v) = 1%nat /\ ordered v
                         /\ drained v /\ submitted v = submitted w).
  assert (P (finish_all (run_all sched (stop w)))) as (Hn' & Ho' & Hd' & Hs').
  { apply join_steps_ind.
    - intros i v (? & ? & ? & ?). unfold P.
      rewrite run_submitted, run_pool_length.
      split; [done|]. split; [by apply (ordered_exec (Run i))|].
      auto using drained_run.
    - unfold P. split; [done|]. split; [done|].
      split; [by apply drained_stop | done]. }
  split; [done|]. unfold ordered in Ho'. rewrite <- Ho'.
  rewrite (all_exited_in_flight _ Hex).
  rewrite (exited_queue_empty _ ltac:(rewrite Hn'; lia) Hd' Hex).
  by rewrite !app_nil_r.
Qed.

(** ** The laws of the pool *)

(** C2 (ordering law of a pool of one thread).  Whatever the producer and
    the thread have done so far, the blocks on which the job has been
    called, followed by those the thread holds and those still queued, are
    the blocks sent, in the order of the sends: the job meets the blocks
    in the order of submission.  When all sends came before [stop], [stop]
    and [join] return with the job called on every block, in that order. *)
Theorem Worker_single_thread_order (tr : list event) (sched : list nat) :
  let w := execs tr (new 1) in
  (jobs w).*2 ++ in_flight w ++ bulks w = sends tr
  /\ (sends_before_stop tr = true ->
      exists w',
        join sched (stop w) = Returns w' /\ (jobs w').*2 = sends tr).
Proof.
  simpl.
  assert (ordered (execs tr (new 1))) as Ho by (by apply ordered_execs).
  unfold ordered in Ho.
  pose proof (execs_submitted tr (new 1)) as Hs. simpl in Hs.
  split; [by rewrite Ho|].
  intros Hok. rewrite join_returns by done. eexists. split; [done|].
  pose proof (drained_execs tr _ (drained_new 1) Hok) as Hd.
  pose proof (execs_pool_length tr (new 1)) as Hlen.
  set (P := fun v : t =>
              length (thread_pool v) = 1%nat
              /\ ordered v /\ drained v /\ submitted v = sends tr).
  assert (P (finish_all (run_all sched (stop (execs tr (new 1)))))) as HP.
  { apply join_steps_ind.
    - intros i v (Hl & Hv & Hdv & Hsv). unfold P.
      rewrite run_submitted, run_pool_length.
      split; [done|]. split; [|by auto using drained_run].
      by apply (ordered_exec (Run i)).
    - unfold P. split; [done|]. split; [done|].
      split; [by apply drained_stop | done]. }
  destruct HP as (Hl' & Ho' & Hd' & Hs').
  assert (all_exited (finish_all (run_all sched (stop (execs tr (new 1))))) = true)
    as Hex by (by apply finish_all_exited; rewrite run_all_stopped).
  rewrite <- Hs', <- Ho'. rewrite (all_exited_in_flight _ Hex).
  rewrite (exited_queue_empty _ ltac:(rewrite Hl'; lia) Hd' Hex).
  by rewrite !app_nil_r.
Qed.

(** C3 (stop does not discard queued work).  Let thread [i] of a stopped
    pool be in the wait.  Its next step takes the whole queue with
    [exit == true] and leaves the queue empty; whatever happens next, the
    thread has exited only after calling the job on each of these blocks,
    in order and after nothing else; and the thread can always be run to
    its exit. *)
Theorem Worker_stop_drains_queue (w : t) (i : nat) :
  stopped w = true ->
  thread_pool w !! i = Some Waiting ->
  thread_pool (run i w) !! i = Some (Processing true (bulks w))
  /\ bulks (run i w) = []
  /\ (forall tr,
        thread_pool (execs tr (run i w)) !! i = Some Exited ->
        jobs_of i (execs tr (run i w)) = jobs_of i w ++ bulks w)
  /\ (forall tr,
        let w' := finish i (execs tr (run i w)) in
        thread_pool w' !! i = Some Exited
        /\ jobs_of i w' = jobs_of i w ++ bulks w).
Proof.
  intros Hst Hi. pose proof (lookup_lt_Some _ _ _ Hi) as Hlt.
  assert (run i w =
          {| thread_metrics := thread_metrics w;
             thread_pool := <[i := Processing true (bulks w)]> (thread_pool w);
             bulks := [];
             stopped := true;
             submitted := submitted w;
             jobs := jobs w |}) as Hrun.
  { unfold run, wake_condition. by rewrite Hi, Hst. }
  assert (leaving i (jobs_of i w) (bulks w) (run i w)) as Hl.
  { unfold leaving. rewrite Hrun. simpl.
    by rewrite list_lookup_insert_eq. }
  assert (forall v, leaving i (jobs_of i w) (bulks w) v ->
            thread_pool v !! i = Some Exited ->
            jobs_of i v = jobs_of i w ++ bulks w) as Hend.
  { intros v Hv Hex. unfold leaving in Hv. by rewrite Hex in Hv. }
  split; [by rewrite Hrun; simpl; rewrite list_lookup_insert_eq|].
  split; [by rewrite Hrun|].
  split.
  - intros tr Hex. by apply Hend; [apply leaving_execs|].
  - intros tr w'.
    assert (thread_pool w' !! i = Some Exited) as Hex.
    { apply finish_exits.
      - apply execs_stopped_mono. by rewrite run_stopped.
      - by rewrite execs_pool_length, run_pool_length. }
    split; [done|]. apply Hend; [|done].
    unfold w'. rewrite finish_execs. by do 2 apply leaving_execs.
Qed.

Lemma Worker_stop_drains_queue_witness :
  let w := execs [Send ["a"]; Send ["b"; "c"]; Stop] (new 2) in
  stopped w = true
  /\ thread_pool w !! 1%nat = Some Waiting
  /\ thread_pool (run 1 w) !! 1%nat = Some (Processing true (bulks w))
  /\ bulks (run 1 w) = []
  /\ (forall tr,
        thread_pool (execs tr (run 1 w)) !! 1%nat = Some Exited ->
        jobs_of 1 (execs tr (run 1 w)) = jobs_of 1 w ++ bulks w)
  /\ (forall tr,
        let w' := finish 1 (execs tr (run 1 w)) in
        thread_pool w' !! 1%nat = Some Exited
        /\ jobs_of 1 w' = jobs_of 1 w ++ bulks w).
Proof.
  intros w. split; [reflexivity|]. split; [reflexivity|].
  apply (Worker_stop_drains_queue w 1); reflexivity.
Defined.

(** C9 as stated fails: a block sent after the threads have seen the stop
    stays in the queue.  Here the only thread leaves on [stop]; the block
    sent next is never given to the job, whatever is scheduled later. *)
Lemma Worker_completeness_counterexample :
  let tr := [Stop; Run 0; Run 0; Send ["cmd"]] in
  let w := execs tr (new 1) in
  all_exited w = true
  /\ sends tr = [["cmd"]]
  /\ bulks w = [["cmd"]]
  /\ (forall sched, (jobs (run_all sched w)).*2 = [])
  /\ ~ ((jobs w).*2 ≡ₚ sends tr).
Proof.
  intros tr w.
  assert (all_exited w = true) as Hex by reflexivity.
  split; [done|]. split; [reflexivity|]. split; [reflexivity|].
  split.
  - intros sched. by rewrite run_all_exited.
  - simpl. intros Hp. by apply Permutation_nil_l in Hp.
Qed.

(** C9, amended (completeness law).  In a pool of [n >= 1] threads whose
    sends all come before [stop]: once every thread has exited, the blocks
    on which the job was called are, up to order, the blocks sent; and
    [stop] followed by [join] returns, under every schedule of the
    threads, in such a state. *)
Theorem Worker_completeness (n : nat) (tr : list event) (sched : list nat) :
  (1 <= n)%nat ->
  sends_before_stop tr = true ->
  (all_exited (execs tr (new n)) = true ->
   (jobs (execs tr (new n))).*2 ≡ₚ sends tr)
  /\ (exists w',
        join sched (stop (execs tr (new n))) = Returns w'
        /\ all_exited w' = true
        /\ (jobs w').*2 ≡ₚ sends tr).
Proof.
  intros Hn Hok.
  pose proof (conserved_execs tr _ (conserved_new n)) as Hc.
  pose proof (drained_execs tr _ (drained_new n) Hok) as Hd.
  pose proof (execs_submitted tr (new n)) as Hs. simpl in Hs.
  pose proof (execs_pool_length tr (new n)) as Hlen.
  simpl in Hlen. rewrite length_replicate in Hlen.
  split.
  - intros Hex. rewrite <- Hs. apply exited_done; try done. lia.
  - rewrite join_returns by done. eexists. split; [done|].
    set (P := fun v : t => conserved v /\ drained v /\ submitted v = sends tr
                          /\ length (thread_pool v) = n).
    assert (P (finish_all (run_all sched (stop (execs tr (new n)))))) as HP.
    { apply join_steps_ind.
      - intros i v (? & ? & ? & ?). unfold P.
        rewrite run_submitted, run_pool_length.
        auto using conserved_run, drained_run.
      - unfold P. split; [done|]. split; [by apply drained_stop|]. done. }
    destruct HP as (Hc' & Hd' & Hs' & Hlen').
    assert (all_exited (finish_all (run_all sched (stop (execs tr (new n))))) = true)
      as Hex by (by apply finish_all_exited; rewrite run_all_stopped).
    split; [done|]. rewrite <- Hs'. apply exited_done; try done. lia.
Qed.

Lemma Worker_completeness_witness :
  let tr := [Send ["a"]; Run 0; Send ["b"; "c"]; Run 1; Stop;
             Run 1; Run 1; Run 0; Run 0; Run 0; Run 1; Run 1; Run 0] in
  (1 <= 2)%nat
  /\ sends_before_stop tr = true
  /\ all_exited (execs tr (new 2)) = true
  /\ (all_exited (execs tr (new 2)) = true ->
      (jobs (execs tr (new 2))).*2 ≡ₚ sends tr)
  /\ (exists w',
        join [1; 0]%nat (stop (execs tr (new 2))) = Returns w'
        /\ all_exited w' = true
        /\ (jobs w').*2 ≡ₚ sends tr).
Proof.
  intros tr. split; [lia|]. split; [reflexivity|]. split; [reflexivity|].
  apply (Worker_completeness 2 tr [1; 0]%nat); [lia | reflexivity].
Defined.

End WorkerFacts.

(** * Properties of the interpreter *)

Section InterpreterFacts.
Context {R : Reader.t}.
Import Impl.

(** ** What the notifications leave alone *)

Lemma set_workers_same I :
  set_file_worker (file_worker I) (set_log_worker (log_worker I) I) = I.
Proof. by destruct I. Qed.

Lemma set_workers_twice lw fw lw' fw' I :
  set_file_worker fw' (set_log_worker lw'
    (set_file_worker fw (set_log_worker lw I)))
  = set_file_worker fw' (set_log_worker lw' I).
Proof. by destruct I. Qed.

Lemma notify_one_frame stms I s :
  exists lw fw, notify_one stms I s = set_file_worker fw (set_log_worker lw I).
Proof.
  destruct I, s; unfold notify_one, set_file_worker, set_log_worker; simpl;
    eexists _, _; reflexivity.
Qed.

Lemma notify_frame I stms :
  exists lw fw, notify I stms = set_file_worker fw (set_log_worker lw I).
Proof.
  unfold notify. generalize (subscribers I) at 1. intros l.
  induction l as [|s l IH] using rev_ind; simpl.
  - exists (log_worker I), (file_worker I). by rewrite set_workers_same.
  - rewrite foldl_app. simpl. destruct IH as (lw & fw & ->).
    destruct (notify_one_frame stms
                (set_file_worker fw (set_log_worker lw I)) s)
      as (lw' & fw' & ->).
    exists lw', fw'. apply set_workers_twice.
Qed.

Lemma notify_all_frame blocks I :
  exists lw fw, notify_all blocks I = set_file_worker fw (set_log_worker lw I).
Proof.
  unfold notify_all. induction blocks as [|b blocks IH] using rev_ind; simpl.
  - exists (log_worker I), (file_worker I). by rewrite set_workers_same.
  - rewrite foldl_app. simpl. destruct IH as (lw & fw & ->).
    destruct (notify_frame (set_file_worker fw (set_log_worker lw I)) b)
      as (lw' & fw' & ->).
    exists lw', fw'. apply set_workers_twice.
Qed.

Lemma consume_available_frame I :
  exists r lw fw,
    consume_available I =
    mk (name I) r (subscribers I) lw fw (stopped I) (buffer I) 0.
Proof.
  unfold consume_available.
  destruct (Reader.consume _ (reader I)) as [r blocks].
  destruct (notify_all_frame blocks (set_reader r I)) as (lw & fw & ->).
  exists r, lw, fw. by destruct I.
Qed.

(** ** What a producer sees does not depend on the pools *)











Lemma schedule_view sl sf I :
  Interpreter.view (Interpreter.schedule sl sf I) = Interpreter.view I.
Proof.
  assert (forall l w, Worker.submitted (Worker.run_all l w) = Worker.submitted w)
    as Hs.
  { unfold Worker.run_all. induction l as [|i l IH]; intros w; simpl; [done|].
    by rewrite IH, run_submitted. }
  destruct I; unfold Interpreter.view, Interpreter.schedule; simpl.
  by rewrite !Hs.
Qed.

(** ** Feeding the input in pieces *)



(** Fewer than [2^32] characters: the index does not wrap, and [consume]
    is one pass.  Otherwise it does not return. *)
Lemma consume_short data I :
  Z.of_nat (String.length data) < uint_max ->
  consume data I = consume_pass data I.
Proof. intros H. unfold consume. by rewrite (proj2 (Z.ltb_lt _ _) H). Qed.

Lemma consume_long data I I' :
  uint_max <= Z.of_nat (String.length data) -> consume data I ≠ Returns I'.
Proof.
  intros H. unfold consume. rewrite (proj2 (Z.ltb_ge _ _) H).
  destruct (consume_pass _ I) as [I1| |]; simpl; [|done|done].
  by destruct (consume_pass _ I1).
Qed.

Lemma consume_returns data I I' :
  consume data I = Returns I' ->
  Z.of_nat (String.length data) < uint_max /\ consume_pass data I = Returns I'.
Proof.
  intros H. destruct (Z.lt_ge_cases (Z.of_nat (String.length data)) uint_max)
    as [Hlt|Hge].
  - by rewrite consume_short in H.
  - by apply consume_long in H.
Qed.


Lemma append_length a b :
  String.length (a +:+ b) = (String.length a + String.length b)%nat.
Proof.
  induction a as [|c a IH]; [done|].
  change (S (String.length (a +:+ b)) = S (String.length a + String.length b)).
  by rewrite IH.
Qed.





(** ** The line buffer *)

Lemma lines_nonempty data : Interpreter.lines data ≠ [].
Proof.
  destruct data as [|c data]; simpl; [done|].
  destruct (decide (c = newline)); [done|].
  by destruct (Interpreter.lines data).
Qed.

Lemma new_buffer_ok n bs nt : Interpreter.buffer_ok (new n bs nt).
Proof. split; [apply length_replicate | simpl; lia]. Qed.

Lemma consume_fits data : forall I,
  Interpreter.buffer_ok I ->
  if Interpreter.lines_fit (buffer_size I) data
  then exists I', consume_pass data I = Returns I' /\ Interpreter.buffer_ok I'
  else consume_pass data I = OutOfRange.
Proof.
  unfold Interpreter.lines_fit.
  induction data as [|c data IH]; intros I [Hlen Hsize]; simpl.
  - rewrite Nat.add_0_r, bool_decide_true by done. simpl. by exists I.
  - destruct (decide (c = newline)) as [->|Hc].
    + simpl. rewrite Nat.add_0_r, bool_decide_true by done. simpl.
      destruct (consume_available_frame I) as (r & lw & fw & Hca).
      specialize (IH (consume_available I)). rewrite Hca in *. simpl in IH.
      pose proof (lines_nonempty data) as Hne.
      destruct (Interpreter.lines data) as [|l ls]; [done|]. simpl in IH.
      apply IH. split; simpl; [done | lia].
    + pose proof (lines_nonempty data) as Hne.
      destruct (Interpreter.lines data) as [|l ls]; [done|]. simpl.
      rewrite Hlen.
      destruct (decide (buffer_size I < capacity)%nat) as [Hlt|Hge].
      * specialize (IH (set_buffer (<[buffer_size I := c]> (buffer I))
                          (S (buffer_size I)) I)).
        simpl in IH.
        replace (bool_decide (buffer_size I + S (String.length l) <= capacity)%nat)
          with (bool_decide (S (buffer_size I) + String.length l <= capacity)%nat)
          by (apply bool_decide_ext; lia).
        apply IH. split; simpl; [by rewrite length_insert | lia].
      * rewrite bool_decide_false by lia. done.
Qed.

(** ** The lines given to the reader *)

Lemma string_of_list_ascii_snoc l c :
  String.string_of_list_ascii (l ++ [c])
  = String.string_of_list_ascii l +:+ String c EmptyString.
Proof.
  induction l as [|a l IH]; [done|].
  change (String a (String.string_of_list_ascii (l ++ [c]))
          = String a (String.string_of_list_ascii l +:+ String c EmptyString)).
  by rewrite IH.
Qed.

Lemma append_snoc_cons a c b :
  (a +:+ String c EmptyString) +:+ b = a +:+ String c b.
Proof.
  induction a as [|x a IH]; [done|].
  change (String x ((a +:+ String c EmptyString) +:+ b)
          = String x (a +:+ String c b)).
  by rewrite IH.
Qed.

Lemma append_empty a : a +:+ EmptyString = a.
Proof.
  induction a as [|x a IH]; [done|].
  change (String x (a +:+ EmptyString) = String x a). by rewrite IH.
Qed.

Lemma pending_line_store c I :
  (buffer_size I < length (buffer I))%nat ->
  Interpreter.pending_line
    (set_buffer (<[buffer_size I := c]> (buffer I)) (S (buffer_size I)) I)
  = Interpreter.pending_line I +:+ String c EmptyString.
Proof.
  intros Hlt. unfold Interpreter.pending_line. simpl.
  rewrite (take_S_r _ _ c) by (by apply list_lookup_insert_eq).
  rewrite take_insert_ge by done. apply string_of_list_ascii_snoc.
Qed.

Lemma consume_available_reader I :
  reader (consume_available I)
  = (Reader.consume (Interpreter.pending_line I) (reader I)).1
  /\ Interpreter.pending_line (consume_available I) = EmptyString.
Proof.
  unfold consume_available, Interpreter.pending_line.
  destruct (Reader.consume _ (reader I)) as [r blocks]. simpl.
  by destruct (notify_all_frame blocks (set_reader r I)) as (lw & fw & ->).
Qed.

Lemma owed_newline pending data :
  Interpreter.owed pending (String newline data)
  = pending :: Interpreter.complete_lines data.
Proof.
  unfold Interpreter.owed, Interpreter.complete_lines. simpl.
  pose proof (lines_nonempty data) as Hne.
  destruct (Interpreter.lines data) as [|l ls]; [done|].
  by rewrite append_empty.
Qed.

Lemma owed_empty data :
  Interpreter.owed EmptyString data = Interpreter.complete_lines data.
Proof. unfold Interpreter.owed. by destruct (Interpreter.complete_lines data). Qed.

Lemma owed_char pending c data :
  c ≠ newline ->
  Interpreter.owed pending (String c data)
  = Interpreter.owed (pending +:+ String c EmptyString) data.
Proof.
  intros Hc. unfold Interpreter.owed, Interpreter.complete_lines. simpl.
  rewrite decide_False by done.
  pose proof (lines_nonempty data) as Hne.
  destruct (Interpreter.lines data) as [|l [|l' ls]]; [done|done|].
  change (removelast (String c l :: l' :: ls))
    with (String c l :: removelast (l' :: ls)).
  change (removelast (l :: l' :: ls)) with (l :: removelast (l' :: ls)).
  cbv beta iota. by rewrite append_snoc_cons.
Qed.

Lemma consume_given data : forall I I',
  consume_pass data I = Returns I' ->
  reader I'
  = Interpreter.given (Interpreter.owed (Interpreter.pending_line I) data)
      (reader I).
Proof.
  induction data as [|c data IH]; intros I I'; simpl.
  - by intros [= <-].
  - destruct (decide (c = newline)) as [->|Hc].
    + intros H. rewrite (IH _ _ H), owed_newline.
      destruct (consume_available_reader I) as [-> ->].
      by rewrite owed_empty.
    + destruct (decide (buffer_size I < length (buffer I))%nat); [|done].
      intros H. rewrite (IH _ _ H), pending_line_store by done.
      by rewrite owed_char.
Qed.



(** ** Both pools are given every block *)

Lemma notify_std I stms :
  subscribers I = [LogWorker; FileWorker] ->
  notify I stms =
  set_file_worker (Worker.on_block stms (file_worker I))
    (set_log_worker (Worker.on_block stms (log_worker I)) I).
Proof. intros Hs. unfold notify. rewrite Hs. by destruct I. Qed.

Lemma notify_both I stms :
  subscribers I = [LogWorker; FileWorker] ->
  Worker.submitted (log_worker (notify I stms))
    = Worker.submitted (log_worker I) ++ [stms]
  /\ Worker.submitted (file_worker (notify I stms))
    = Worker.submitted (file_worker I) ++ [stms].
Proof. intros Hs. rewrite notify_std by done. by destruct I. Qed.

Lemma notify_all_std blocks : forall I,
  subscribers I = [LogWorker; FileWorker] ->
  exists lw fw,
    notify_all blocks I = set_file_worker fw (set_log_worker lw I)
    /\ Worker.submitted lw = Worker.submitted (log_worker I) ++ blocks
    /\ Worker.submitted fw = Worker.submitted (file_worker I) ++ blocks.
Proof.
  unfold notify_all.
  induction blocks as [|b blocks IH]; intros I Hs; simpl.
  - exists (log_worker I), (file_worker I).
    by rewrite set_workers_same, !app_nil_r.
  - rewrite notify_std by done.
    edestruct (IH (set_file_worker (Worker.on_block b (file_worker I))
                    (set_log_worker (Worker.on_block b (log_worker I)) I)))
      as (lw & fw & -> & Hl & Hf).
    { by destruct I. }
    exists lw, fw. split; [by destruct I|].
    rewrite Hl, Hf. destruct I; simpl. by rewrite <- !app_assoc.
Qed.

Lemma join_submitted sched w w' :
  Worker.join sched w = Returns w' -> Worker.submitted w' = Worker.submitted w.
Proof.
  intros H. apply join_inv in H as [-> _].
  apply (join_steps_ind (fun v => Worker.submitted v = Worker.submitted w));
    [|done].
  intros i v Hv. by rewrite run_submitted.
Qed.

(** ** The pools stay in use until the shutdown *)

Lemma pools_ok_new n bs nt : 0 < nt -> Interpreter.pools_ok (new n bs nt).
Proof.
  intros Hnt. split; [apply sound_single_new|]. apply sound_new. simpl. lia.
Qed.

Lemma pools_ok_notify_one stms I s :
  Interpreter.pools_ok I -> Interpreter.pools_ok (notify_one stms I s).
Proof.
  intros [Hl Hf]. destruct I, s; simpl in *.
  - split; [by apply sound_single_send | done].
  - split; [done | by apply sound_send].
Qed.

Lemma pools_ok_notify_all blocks I :
  Interpreter.pools_ok I -> Interpreter.pools_ok (notify_all blocks I).
Proof.
  assert (forall stms l J, Interpreter.pools_ok J ->
            Interpreter.pools_ok (foldl (notify_one stms) J l)) as Hone.
  { intros stms l. induction l as [|s l IH]; intros J HJ; simpl; [done|].
    by apply IH, pools_ok_notify_one. }
  unfold notify_all. revert I.
  induction blocks as [|b blocks IH]; intros I HI; simpl; [done|].
  apply IH. unfold notify. by apply Hone.
Qed.

Lemma pools_ok_consume_available I :
  Interpreter.pools_ok I -> Interpreter.pools_ok (consume_available I).
Proof.
  intros HI. unfold consume_available.
  destruct (Reader.consume _ (reader I)) as [r blocks].
  assert (Interpreter.pools_ok (notify_all blocks (set_reader r I))) as H.
  { apply pools_ok_notify_all. by destruct I. }
  by destruct (notify_all blocks (set_reader r I)).
Qed.

Lemma pools_ok_consume data : forall I I',
  Interpreter.pools_ok I -> consume_pass data I = Returns I' ->
  Interpreter.pools_ok I'.
Proof.
  induction data as [|c data IH]; intros I I' HI; simpl.
  - by intros [= <-].
  - destruct (decide (c = newline)).
    + apply IH. by apply pools_ok_consume_available.
    + destruct (decide (buffer_size I < length (buffer I))%nat); [|done].
      apply IH. by destruct I.
Qed.

Lemma pools_ok_schedule sl sf I :
  Interpreter.pools_ok I -> Interpreter.pools_ok (Interpreter.schedule sl sf I).
Proof.
  intros [Hl Hf]. destruct I; simpl in *.
  split; [by apply sound_single_run_all | by apply sound_run_all].
Qed.

(** After the shutdown of an interpreter whose pools were in use, the job
    of each pool has been called on every block sent to it, and in the log
    pool in the order of the sends. *)
Lemma on_eof_complete sl sf I I' :
  Interpreter.pools_ok I -> on_eof sl sf I = Returns I' ->
  (Worker.jobs (log_worker I')).*2 = Worker.submitted (log_worker I')
  /\ (Worker.jobs (file_worker I')).*2 ≡ₚ Worker.submitted (file_worker I').
Proof.
  intros HI Heof. unfold on_eof in Heof.
  set (I1 := if decide (buffer_size I ≠ 0%nat) then consume_available I else I)
    in Heof.
  assert (Interpreter.pools_ok I1) as H1.
  { unfold I1. destruct (decide (buffer_size I ≠ 0%nat)); [|done].
    by apply pools_ok_consume_available. }
  destruct (Reader.on_eof (reader I1)) as [r blocks].
  assert (Interpreter.pools_ok (notify_all blocks (set_reader r I1)))
    as [Hl Hf].
  { apply pools_ok_notify_all. by destruct I1. }
  destruct (Worker.join sl _) as [lw'| |] eqn:Hjl; [|done|done].
  destruct (Worker.join sf _) as [fw'| |] eqn:Hjf; [|done|done].
  simpl in Heof. injection Heof as <-.
  destruct (join_stop_ordered _ _ _ Hl Hjl) as [_ Hlo].
  destruct (join_stop_complete _ _ _ Hf Hjf) as [_ Hfo].
  by destruct (notify_all blocks (set_reader r I1)).
Qed.

Lemma consume_frame data : forall I I',
  consume_pass data I = Returns I' ->
  stopped I' = stopped I /\ subscribers I' = subscribers I.
Proof.
  induction data as [|c data IH]; intros I I'; simpl.
  - by intros [= ->].
  - destruct (decide (c = newline)).
    + intros H. destruct (IH _ _ H) as [-> ->].
      destruct (consume_available_frame I) as (r & lw & fw & ->). done.
    + destruct (decide (buffer_size I < length (buffer I))%nat); [|done].
      intros H. by destruct (IH _ _ H) as [-> ->].
Qed.

Lemma buffer_ok_consume data I I' :
  Interpreter.buffer_ok I -> consume_pass data I = Returns I' ->
  Interpreter.buffer_ok I'.
Proof.
  intros Hok Hc. pose proof (consume_fits data I Hok) as Hf.
  destruct (Interpreter.lines_fit _ _).
  - destruct Hf as (I0 & Hc0 & Hok0). congruence.
  - congruence.
Qed.

Lemma in_use_new bulk nt n :
  0 < nt -> Interpreter.in_use (Interpreter.new bulk nt n).
Proof.
  intros Hnt. split; [done|]. split; [done|].
  split; [by apply pools_ok_new | apply new_buffer_ok].
Qed.

Lemma in_use_consume data I I' :
  Interpreter.in_use I -> Interpreter.consume data I = Returns I' ->
  Interpreter.in_use I'.
Proof.
  intros (Hst & Hsub & Hp & Hb). unfold Interpreter.consume. rewrite Hst.
  intros Hc. apply consume_returns in Hc as [_ Hc].
  destruct (consume_frame _ _ _ Hc) as [Hst' Hsub'].
  split; [congruence|]. split; [congruence|].
  split; [by eapply pools_ok_consume | by eapply buffer_ok_consume].
Qed.

Lemma in_use_schedule sl sf I :
  Interpreter.in_use I -> Interpreter.in_use (Interpreter.schedule sl sf I).
Proof.
  intros (Hst & Hsub & Hp & Hb).
  split; [by destruct I|]. split; [by destruct I|].
  split; [by apply pools_ok_schedule | by destruct I].
Qed.

(** ** Shutdown *)

(** The blocks completed by the shutdown: those of the pending line, then
    those of end-of-stream. *)
Lemma on_eof_submitted sl sf I I' :
  subscribers I = [LogWorker; FileWorker] ->
  on_eof sl sf I = Returns I' ->
  let line := String.string_of_list_ascii (take (buffer_size I) (buffer I)) in
  let r1 := if decide (buffer_size I ≠ 0%nat)
            then (Reader.consume line (reader I)).1 else reader I in
  let flushed := if decide (buffer_size I ≠ 0%nat)
                 then (Reader.consume line (reader I)).2 else [] in
  Worker.submitted (log_worker I')
    = Worker.submitted (log_worker I) ++ flushed ++ (Reader.on_eof r1).2
  /\ Worker.submitted (file_worker I')
    = Worker.submitted (file_worker I) ++ flushed ++ (Reader.on_eof r1).2.
Proof.
  intros Hs Heof line r1 flushed. unfold on_eof in Heof.
  set (I1 := if decide (buffer_size I ≠ 0%nat) then consume_available I else I)
    in Heof.
  assert (reader I1 = r1 /\ subscribers I1 = [LogWorker; FileWorker]
          /\ Worker.submitted (log_worker I1)
              = Worker.submitted (log_worker I) ++ flushed
          /\ Worker.submitted (file_worker I1)
              = Worker.submitted (file_worker I) ++ flushed)
    as (Hr1 & Hs1 & Hl1 & Hf1).
  { unfold I1, r1, flushed. destruct (decide (buffer_size I ≠ 0%nat)).
    - unfold consume_available, line.
      destruct (Reader.consume _ (reader I)) as [r blocks]. simpl.
      destruct (notify_all_std blocks (set_reader r I))
        as (lw & fw & -> & Hl & Hf); [done|].
      simpl. by rewrite Hl, Hf.
    - by rewrite !app_nil_r. }
  rewrite Hr1 in Heof.
  destruct (Reader.on_eof r1) as [r blocks]. simpl in *.
  destruct (notify_all_std blocks (set_reader r I1))
    as (lw & fw & Hn & Hl & Hf); [done|].
  rewrite Hn in Heof. simpl in Heof.
  destruct (Worker.join sl (Worker.stop lw)) as [lw'| |] eqn:Hjl; [|done|done].
  destruct (Worker.join sf (Worker.stop fw)) as [fw'| |] eqn:Hjf; [|done|done].
  simpl in Heof. injection Heof as <-. simpl.
  rewrite (join_submitted _ _ _ Hjl), (join_submitted _ _ _ Hjf). simpl.
  rewrite Hl, Hf. simpl. rewrite Hl1, Hf1. by rewrite <- !app_assoc.
Qed.


Lemma on_eof_returns sl sf I :
  let line := String.string_of_list_ascii (take (buffer_size I) (buffer I)) in
  let r1 := if decide (buffer_size I ≠ 0%nat)
            then (Reader.consume line (reader I)).1 else reader I in
  exists I',
    on_eof sl sf I = Returns I'
    /\ name I' = name I
    /\ stopped I' = stopped I
    /\ reader I' = (Reader.on_eof r1).1
    /\ buffer_size I' = 0%nat
    /\ Worker.stopped (log_worker I') = true
    /\ Worker.all_exited (log_worker I') = true
    /\ Worker.stopped (file_worker I') = true
    /\ Worker.all_exited (file_worker I') = true.
Proof.
  intros line r1. unfold on_eof.
  set (I1 := if decide (buffer_size I ≠ 0%nat) then consume_available I else I).
  assert (name I1 = name I /\ stopped I1 = stopped I /\ reader I1 = r1
          /\ buffer_size I1 = 0%nat)
    as (Hn1 & Hs1 & Hr1 & Hb1).
  { unfold I1, r1. destruct (decide (buffer_size I ≠ 0%nat)).
    - unfold consume_available, line.
      destruct (Reader.consume _ (reader I)) as [r blocks]. simpl.
      destruct (notify_all_frame blocks (set_reader r I)) as (lw & fw & ->).
      done.
    - do 3 (split; [done|]). lia. }
  rewrite Hr1.
  destruct (Reader.on_eof r1) as [r blocks]. simpl.
  destruct (notify_all_frame blocks (set_reader r I1)) as (lw & fw & ->).
  simpl.
  destruct (join_exited sl (Worker.stop lw)) as (lw' & -> & ? & ?); [done|].
  destruct (join_exited sf (Worker.stop fw)) as (fw' & -> & ? & ?); [done|].
  simpl. eexists. split; [reflexivity|]. simpl. by rewrite Hn1, Hs1, Hb1.
Qed.

Lemma stop_first sl sf I :
  stopped I = false ->
  let line := String.string_of_list_ascii (take (buffer_size I) (buffer I)) in
  let r1 := if decide (buffer_size I ≠ 0%nat)
            then (Reader.consume line (reader I)).1 else reader I in
  exists I',
    on_eof sl sf (set_stopped true I) = Returns I'
    /\ Interpreter.stop_and_log_metrics sl sf I
      = Returns (I', [Interpreter.report I'])
    /\ stopped I' = true
    /\ reader I' = (Reader.on_eof r1).1
    /\ buffer_size I' = 0%nat
    /\ Worker.stopped (log_worker I') = true
    /\ Worker.all_exited (log_worker I') = true
    /\ Worker.stopped (file_worker I') = true
    /\ Worker.all_exited (file_worker I') = true.
Proof.
  intros Hst line r1. unfold Interpreter.stop_and_log_metrics. rewrite Hst.
  destruct (on_eof_returns sl sf (set_stopped true I))
    as (I' & -> & _ & Hs & Hr & Hb & Hls & Hle & Hfs & Hfe).
  exists I'. simpl. do 4 (split; [done|]). done.
Qed.

Lemma stop_again sl sf I :
  stopped I = true -> Interpreter.stop_and_log_metrics sl sf I = Returns (I, []).
Proof. intros Hst. unfold Interpreter.stop_and_log_metrics. by rewrite Hst. Qed.

Lemma destroy_quiet I :
  Worker.all_exited (log_worker I) = true ->
  Worker.all_exited (file_worker I) = true ->
  Interpreter.destroy I = Returns ().
Proof.
  intros Hl Hf. unfold Interpreter.destroy, Worker.destroy.
  by rewrite !join_quiet.
Qed.

Lemma destroy_new bulk nthreads n :
  Interpreter.destroy (Interpreter.new bulk nthreads n) = Blocks.
Proof. reflexivity. Qed.

(** C8 (the steps of the shutdown).  The first [stop_and_log_metrics] of
    an interpreter returns, and in the interpreter it leaves: the reader
    was given the pending partial line, when there is one, and
    end-of-stream after it; the buffer is empty; the blocks completed by
    that line and then by end-of-stream were sent to both pools; both
    pools are stopped and every thread of both has exited, so that no pool
    thread can move any more; and the one string logged is the report
    composed from that interpreter, hence from counters read after the
    joins.  When the pools were in use, these counters cover every block:
    each job has been called on all blocks sent to its pool. *)
Theorem Interpreter_shutdown_steps (sl sf : list nat) (I : Impl.t) :
  stopped I = false ->
  subscribers I = [LogWorker; FileWorker] ->
  let line := Interpreter.pending_line I in
  let r1 := if decide (buffer_size I ≠ 0%nat)
            then (Reader.consume line (reader I)).1 else reader I in
  let flushed := if decide (buffer_size I ≠ 0%nat)
                 then (Reader.consume line (reader I)).2 else [] in
  exists I',
    Interpreter.stop_and_log_metrics sl sf I
      = Returns (I', [Interpreter.report I'])
    /\ stopped I' = true
    /\ reader I' = (Reader.on_eof r1).1
    /\ buffer_size I' = 0%nat
    /\ Worker.submitted (log_worker I')
        = Worker.submitted (log_worker I) ++ flushed ++ (Reader.on_eof r1).2
    /\ Worker.submitted (file_worker I')
        = Worker.submitted (file_worker I) ++ flushed ++ (Reader.on_eof r1).2
    /\ Worker.stopped (log_worker I') = true
    /\ Worker.all_exited (log_worker I') = true
    /\ Worker.stopped (file_worker I') = true
    /\ Worker.all_exited (file_worker I') = true
    /\ (forall sl' sf', Interpreter.schedule sl' sf' I' = I')
    /\ (Interpreter.pools_ok I ->
        (Worker.jobs (log_worker I')).*2 = Worker.submitted (log_worker I')
        /\ (Worker.jobs (file_worker I')).*2
           ≡ₚ Worker.submitted (file_worker I')).
Proof.
  intros Hst Hsub line r1 flushed.
  destruct (stop_first sl sf I Hst)
    as (I' & Heof & H & ? & ? & ? & ? & ? & ? & ?).
  destruct (on_eof_submitted sl sf (set_stopped true I) I' Hsub Heof)
    as [Hl Hf].
  exists I'. do 4 (split; [done|]).
  split; [exact Hl|]. split; [exact Hf|].
  do 4 (split; [done|]).
  split.
  - intros sl' sf'. unfold Interpreter.schedule.
    rewrite !run_all_exited by done. apply set_workers_same.
  - intros Hp. apply (on_eof_complete sl sf (set_stopped true I)); [|done].
    by destruct I.
Qed.

End InterpreterFacts.

(** * Properties of the connection table *)

Section asyncFacts.
Context {R : Reader.t}.
Import async.

Lemma connect_fresh bulk g :
  connections g !! next_id g = None ->
  connect bulk g =
  Returns (next_id g,
           {| logger := logger g;
              next_id := size_add (next_id g) 1;
              connections :=
                <[next_id g :=
                    Interpreter.new bulk nthreads_per_connection
                      (pretty (next_id g))]> (connections g) |}).
Proof. intros Hn. unfold connect. by rewrite Hn. Qed.

Lemma connect_inv bulk g h g' :
  connect bulk g = Returns (h, g') ->
  h = next_id g /\ connections g !! h = None
  /\ g' = {| logger := logger g;
             next_id := size_add (next_id g) 1;
             connections :=
               <[h := Interpreter.new bulk nthreads_per_connection (pretty h)]>
                 (connections g) |}.
Proof.
  unfold connect. destruct (connections g !! next_id g) eqn:Hn.
  - by rewrite destroy_new.
  - intros [= <- <-]. done.
Qed.

Lemma disconnect_live h sl sf g I :
  connections g !! h = Some I -> Impl.stopped I = false ->
  exists I',
    Interpreter.stop_and_log_metrics sl sf I
      = Returns (I', [Interpreter.report I'])
    /\ Impl.stopped I' = true
    /\ disconnect h sl sf g =
       Returns {| logger := logger g ++ [Interpreter.report I'];
                  next_id := next_id g;
                  connections := delete h (connections g) |}.
Proof.
  intros Hh Hst.
  destruct (stop_first sl sf I Hst)
    as (I' & _ & Hstop & Hs & _ & _ & _ & Hle & _ & Hfe).
  exists I'. split; [done|]. split; [done|].
  unfold disconnect. rewrite Hh, Hstop. simpl.
  by rewrite destroy_quiet.
Qed.

Lemma disconnect_unknown h sl sf g :
  connections g !! h = None -> disconnect h sl sf g = Returns g.
Proof. intros Hh. unfold disconnect. by rewrite Hh. Qed.

Lemma receive_unknown h data g :
  connections g !! h = None -> receive h data g = Returns g.
Proof. intros Hh. unfold receive. by rewrite Hh. Qed.

Lemma disconnect_removes h sl sf g g' :
  disconnect h sl sf g = Returns g' -> connections g' !! h = None.
Proof.
  unfold disconnect. destruct (connections g !! h) as [I|] eqn:Hh.
  - destruct (Interpreter.stop_and_log_metrics sl sf I) as [[I' logged]| |];
      [|done|done].
    simpl. destruct (Interpreter.destroy I'); [|done|done].
    simpl. intros [= <-]. simpl. apply lookup_delete_eq.
  - by intros [= <-].
Qed.

(** ** Invariants of the table *)

Lemma step_live c g g' hs :
  live g -> step c g = Returns (g', hs) -> live g'.
Proof.
  intros Hl. destruct c as [bulk|h data|h sl sf|h sl sf]; simpl.
  - destruct (connect bulk g) as [[h g1]| |] eqn:Hc; [|done|done].
    simpl. intros [= <- <-].
    apply connect_inv in Hc as (-> & Hn & ->).
    intros h' I. simpl. rewrite lookup_insert.
    case_decide; [|apply Hl]. intros [= <-]. by apply in_use_new.
  - unfold receive. destruct (connections g !! h) as [I|] eqn:Hh.
    + destruct (Interpreter.consume data I) as [I'| |] eqn:Hc; [|done|done].
      simpl. intros [= <- <-]. intros h' I2. simpl. rewrite lookup_insert.
      case_decide; [|apply Hl]. intros [= <-].
      eapply in_use_consume; [|done]. by eapply Hl.
    + simpl. by intros [= <- <-].
  - unfold disconnect. destruct (connections g !! h) as [I|] eqn:Hh.
    + destruct (Interpreter.stop_and_log_metrics sl sf I) as [[I' logged]| |];
        [|done|done].
      simpl. destruct (Interpreter.destroy I'); [|done|done].
      simpl. intros [= <- <-]. intros h' I2. simpl.
      rewrite lookup_delete. case_decide; [done | apply Hl].
    + simpl. by intros [= <- <-].
  - intros [= <- <-]. intros h' I. simpl. rewrite lookup_alter.
    case_decide; [|apply Hl]. subst h'.
    destruct (connections g !! h) as [I0|] eqn:Hh; simpl; [|done].
    intros [= <-]. apply in_use_schedule. by eapply Hl.
Qed.

Lemma calls_live cs : forall g g' hs,
  live g -> calls cs g = Returns (g', hs) -> live g'.
Proof.
  induction cs as [|c cs IH]; intros g g' hs Hl; simpl.
  - by intros [= <- <-].
  - destruct (step c g) as [[g1 hs1]| |] eqn:Hs; [|done|done]. simpl.
    destruct (calls cs g1) as [[g2 hs2]| |] eqn:Hc; [|done|done]. simpl.
    intros [= <- <-]. eapply IH; [|done]. by eapply step_live.
Qed.

Lemma live_start : live g_conn_handler.
Proof. intros h I. simpl. by rewrite lookup_empty. Qed.

(** ** Handles *)

Lemma step_handles c g g' hs :
  step c g = Returns (g', hs) ->
  (hs = [next_id g] /\ next_id g' = size_add (next_id g) 1)
  \/ (hs = [] /\ next_id g' = next_id g).
Proof.
  destruct c as [bulk|h data|h sl sf|h sl sf]; simpl.
  - destruct (connect bulk g) as [[h g1]| |] eqn:Hc; [|done|done].
    simpl. intros [= <- <-].
    apply connect_inv in Hc as (-> & _ & ->). by left.
  - unfold receive. destruct (connections g !! h) as [I|].
    + destruct (Interpreter.consume data I); [|done|done].
      simpl. intros [= <- <-]. by right.
    + simpl. intros [= <- <-]. by right.
  - unfold disconnect. destruct (connections g !! h) as [I|].
    + destruct (Interpreter.stop_and_log_metrics sl sf I) as [[I' logged]| |];
        [|done|done].
      simpl. destruct (Interpreter.destroy I'); [|done|done].
      simpl. intros [= <- <-]. by right.
    + simpl. intros [= <- <-]. by right.
  - intros [= <- <-]. by right.
Qed.

Lemma size_add_ok a b : 0 <= size_add a b < size_max.
Proof. unfold size_add. apply Z.mod_pos_bound. reflexivity. Qed.

Lemma calls_handles cs : forall g g' hs,
  id_ok g -> calls cs g = Returns (g', hs) ->
  id_ok g'
  /\ next_id g' = (next_id g + Z.of_nat (length hs)) mod size_max
  /\ (forall i h, hs !! i = Some h ->
                  h = (next_id g + Z.of_nat i) mod size_max).
Proof.
  induction cs as [|c cs IH]; intros g g' hs Hok; simpl.
  - intros [= <- <-]. split; [done|]. simpl.
    split; [|done]. rewrite Z.add_0_r. by rewrite Z.mod_small.
  - destruct (step c g) as [[g1 hs1]| |] eqn:Hs; [|done|done]. simpl.
    destruct (calls cs g1) as [[g2 hs2]| |] eqn:Hc; [|done|done]. simpl.
    intros [= <- <-].
    destruct (step_handles _ _ _ _ Hs) as [[-> Hn]|[-> Hn]].
    + destruct (IH g1 g2 hs2) as (Hok2 & Hn2 & Hh2); [|done|].
      { unfold id_ok. rewrite Hn. apply size_add_ok. }
      split; [done|]. rewrite Hn in Hn2, Hh2. unfold size_add in Hn2, Hh2.
      split.
      * rewrite Hn2. simpl length. rewrite Zplus_mod_idemp_l. f_equal. lia.
      * intros [|i] h; simpl.
        -- intros [= <-]. rewrite Z.add_0_r. by rewrite Z.mod_small.
        -- intros Hi. rewrite (Hh2 _ _ Hi), Zplus_mod_idemp_l. f_equal. lia.
    + destruct (IH g1 g2 hs2) as (Hok2 & Hn2 & Hh2); [|done|].
      { unfold id_ok. by rewrite Hn. }
      rewrite Hn in Hn2, Hh2. done.
Qed.

Lemma id_ok_start : id_ok g_conn_handler.
Proof. unfold id_ok. simpl. split; [done | reflexivity]. Qed.

Lemma calls_app_returns a : forall b g g1 hs1 g2 hs2,
  calls a g = Returns (g1, hs1) -> calls b g1 = Returns (g2, hs2) ->
  calls (a ++ b) g = Returns (g2, hs1 ++ hs2).
Proof.
  induction a as [|c a IH]; intros b g g1 hs1 g2 hs2; simpl.
  - intros [= <- <-] Hb. done.
  - destruct (step c g) as [[g' hs']| |]; [|done|done]. simpl.
    destruct (calls a g') as [[g'' hs'']| |] eqn:Ha; [|done|done]. simpl.
    intros [= <- <-] Hb. rewrite (IH _ _ _ _ _ _ Ha Hb). simpl.
    by rewrite app_assoc.
Qed.

(** One round of connect and disconnect on an empty table. *)
Lemma churn_round k g :
  connections g = ∅ -> next_id g = k ->
  exists g',
    calls [Connect 1; Disconnect k [] []] g = Returns (g', [k])
    /\ connections g' = ∅ /\ next_id g' = size_add k 1.
Proof.
  intros He Hk. unfold calls, step.
  rewrite connect_fresh by (by rewrite He, lookup_empty).
  rewrite Hk, He. simpl.
  edestruct (disconnect_live k [] []) as (I' & _ & _ & ->).
  { simpl. apply lookup_insert_eq. }
  { reflexivity. }
  simpl. eexists. split; [done|]. simpl.
  split; [|done]. by rewrite delete_insert_eq, delete_empty.
Qed.

Lemma churn_succ n :
  churn (N.succ n)
  = (N.succ (churn n).1,
     (churn n).2 ++ [Connect 1; Disconnect (Z.of_N (churn n).1) [] []]).
Proof. unfold churn. by rewrite N.iter_succ. Qed.

Lemma churn_counter n : (churn n).1 = n.
Proof.
  induction n as [|n IH] using N.peano_ind; [done|].
  rewrite churn_succ. simpl. by rewrite IH.
Qed.

Lemma churn_calls n :
  Z.of_N n <= size_max ->
  exists g hs,
    calls (churn n).2 g_conn_handler = Returns (g, hs)
    /\ connections g = ∅
    /\ next_id g = Z.of_N n mod size_max
    /\ (n = 0%N -> hs = [])
    /\ (n ≠ 0%N -> exists hs', hs = 0 :: hs').
Proof.
  induction n as [|n IH] using N.peano_ind; intros Hn.
  - exists g_conn_handler, []. done.
  - destruct IH as (g & hs & Hc & He & Hid & Hz & Hnz); [lia|].
    rewrite Z.mod_small in Hid by lia.
    destruct (churn_round (Z.of_N n) g He Hid) as (g' & Hr & He' & Hid').
    rewrite churn_succ, churn_counter. simpl.
    exists g', (hs ++ [Z.of_N n]).
    split; [by eapply calls_app_returns|]. split; [done|].
    split; [rewrite Hid'; unfold size_add; f_equal; lia|].
    split; [lia|]. intros _.
    destruct (decide (n = 0%N)) as [->|Hne].
    + rewrite Hz by done. by exists [].
    + destruct (Hnz Hne) as (hs' & ->). by exists (hs' ++ [Z.of_N n]).
Qed.

Lemma churn_wraps n :
  Z.of_N n = size_max ->
  exists g hs,
    calls ((churn n).2 ++ [Connect 1]) g_conn_handler
    = Returns (g, 0 :: hs ++ [0]).
Proof.
  intros Hn.
  destruct (churn_calls n) as (g & hs & Hc & He & Hid & _ & Hnz); [lia|].
  rewrite Hn, Z_mod_same_full in Hid.
  destruct Hnz as (hs' & ->).
  { intros ->. done. }
  eexists _, hs'. eapply (calls_app_returns _ _ _ _ _ _ [0] Hc).
  unfold calls, step.
  rewrite connect_fresh by (by rewrite He, lookup_empty).
  rewrite Hid. simpl. done.
Qed.

(** ** The laws of the table *)


(** C5, amended (handles).  As long as [connect] has returned at most
    [2^64] times, the handles returned are [0], [1], [2], ... in this
    order: each is greater than all handles returned before it and none is
    returned twice, whatever was disconnected in between. *)
Theorem async_handles_increase (cs : list call) (g : ConnectionsHandler)
    (hs : list Z) :
  calls cs g_conn_handler = Returns (g, hs) ->
  Z.of_nat (length hs) <= size_max ->
  (forall i h, hs !! i = Some h -> h = Z.of_nat i)
  /\ (forall i j hi hj, (i < j)%nat ->
        hs !! i = Some hi -> hs !! j = Some hj -> hi < hj)
  /\ (forall i j h, hs !! i = Some h -> hs !! j = Some h -> i = j).
Proof.
  intros Hc Hlen.
  destruct (calls_handles _ _ _ _ id_ok_start Hc) as (_ & _ & Hh).
  assert (forall i h, hs !! i = Some h -> h = Z.of_nat i) as Hi.
  { intros i h Hi. rewrite (Hh _ _ Hi). simpl.
    pose proof (lookup_lt_Some _ _ _ Hi). apply Z.mod_small. lia. }
  split; [done|]. split.
  - intros i j hi hj Hij Hi' Hj'. rewrite (Hi _ _ Hi'), (Hi _ _ Hj'). lia.
  - intros i j h Hi' Hj'. pose proof (Hi _ _ Hi'). pose proof (Hi _ _ Hj'). lia.
Qed.

(** C6 (benign misuse).  For a handle that is not in the table, be it
    unknown or the handle of a [disconnect] that has returned, [receive]
    and [disconnect] return and leave the whole table as it is. *)
Theorem async_unknown_handle_ignored (g : ConnectionsHandler) (h : Z)
    (data : string) (sl sf : list nat) :
  connections g !! h = None
  \/ (exists g0 sl0 sf0, disconnect h sl0 sf0 g0 = Returns g) ->
  receive h data g = Returns g /\ disconnect h sl sf g = Returns g.
Proof.
  intros H.
  assert (connections g !! h = None) as Hn.
  { destruct H as [?|(g0 & sl0 & sf0 & Hd)]; [done|].
    by eapply disconnect_removes. }
  split; [by apply receive_unknown | by apply disconnect_unknown].
Qed.

(** C10 (the pools of a connection).  When [connect] returns, the table
    holds under the new handle an interpreter with a log pool of one thread
    and a file pool of [nthreads_per_connection = 2] threads, whatever the
    arguments and the table; both pools are subscribed, and a completed
    block is sent to each of them for as long as the subscriptions stand. *)
Theorem async_connect_pools (bulk : Z) (g g' : ConnectionsHandler) (h : Z) :
  connect bulk g = Returns (h, g') ->
  exists I,
    connections g' !! h = Some I
    /\ I = Interpreter.new bulk 2 (pretty h)
    /\ length (Worker.thread_pool (Impl.log_worker I)) = 1%nat
    /\ length (Worker.thread_pool (Impl.file_worker I)) = 2%nat
    /\ Impl.subscribers I = [Impl.LogWorker; Impl.FileWorker]
    /\ (forall I0 stms,
          Impl.subscribers I0 = Impl.subscribers I ->
          Worker.submitted (Impl.log_worker (Impl.notify I0 stms))
            = Worker.submitted (Impl.log_worker I0) ++ [stms]
          /\ Worker.submitted (Impl.file_worker (Impl.notify I0 stms))
            = Worker.submitted (Impl.file_worker I0) ++ [stms]).
Proof.
  intros Hc. apply connect_inv in Hc as (-> & _ & ->).
  eexists. split; [simpl; apply lookup_insert_eq|].
  split; [done|]. split; [done|]. split; [done|]. split; [done|].
  intros I0 stms Hs. by apply notify_both.
Qed.

End asyncFacts.

(** * More on the worker pool *)

Section WorkerMore.
Import Worker.

(** ** The counters *)

Lemma tally_snoc done stms : count stms (tally done) = tally (done ++ [stms]).
Proof.
  unfold count, tally, size_add. simpl.
  rewrite !Zplus_mod_idemp_l. f_equal; f_equal.
  - rewrite length_app. simpl. lia.
  - rewrite concat_app, !length_app. simpl. rewrite app_nil_r. lia.
Qed.

Lemma counted_new n : counted (new n).
Proof.
  split; [by simpl; rewrite !length_replicate|].
  intros i m Hi. simpl in Hi. by apply lookup_replicate in Hi as [-> _].
Qed.

Lemma counted_run i w : counted w -> counted (run i w).
Proof.
  intros [Hlen Hm]. unfold run.
  destruct (thread_pool w !! i) as [[| ex [|stms rest] |]|] eqn:Hi;
    try done.
  - destruct (wake_condition w); [|done].
    split; [by simpl; rewrite length_insert|]. exact Hm.
  - split; [by simpl; rewrite length_insert|]. exact Hm.
  - split; [by simpl; rewrite length_alter, length_insert|].
    intros j m. unfold jobs_of. simpl. rewrite jobs_of_snoc.
    destruct (decide (i = j)) as [->|Hij].
    + rewrite list_lookup_alter_eq.
      destruct (thread_metrics w !! j) as [m0|] eqn:Hj; simpl; [|done].
      intros [= <-]. rewrite (Hm _ _ Hj). apply tally_snoc.
    + rewrite list_lookup_alter_ne by done. rewrite app_nil_r. apply Hm.
Qed.

Lemma counted_exec e w : counted w -> counted (exec e w).
Proof. destruct e; simpl; [done | done | apply counted_run]. Qed.

Lemma counted_execs tr w : counted w -> counted (execs tr w).
Proof.
  revert w. induction tr as [|e tr IH]; intros w Hw; simpl; [done|].
  by apply IH, counted_exec.
Qed.

(** X1 (the counters are exact).  In a pool of [n] threads, under every
    interleaving, the counters of thread [i] are the number of blocks on
    which this thread has called the job and the number of statements in
    them, modulo [2^64]. *)
Theorem Worker_metrics_exact (n : nat) (tr : list event) (i : nat) :
  (i < n)%nat ->
  thread_metrics (execs tr (new n)) !! i
  = Some (tally (jobs_of i (execs tr (new n)))).
Proof.
  intros Hi. destruct (counted_execs tr _ (counted_new n)) as [Hlen Hm].
  rewrite execs_pool_length in Hlen. simpl in Hlen.
  rewrite length_replicate in Hlen.
  destruct (lookup_lt_is_Some_2 (thread_metrics (execs tr (new n))) i)
    as [m Hm']; [lia|].
  by rewrite Hm', (Hm _ _ Hm').
Qed.

(** ** Each thread keeps the order of the sends *)

Lemma run_bulks i w : bulks (run i w) = bulks w \/ bulks (run i w) = [].
Proof.
  unfold run. destruct (thread_pool w !! i) as [[| ex [|stms rest] |]|];
    auto. destruct (wake_condition w); auto.
Qed.

Lemma lined_up_run_same i w : lined_up i (run i w) = lined_up i w.
Proof.
  unfold lined_up, run, jobs_of.
  destruct (thread_pool w !! i) as [[| ex [|stms rest] |]|] eqn:Hi;
    rewrite ?Hi; try done; pose proof (lookup_lt_Some _ _ _ Hi) as Hlt.
  - destruct (wake_condition w); rewrite ?Hi; [|done]. simpl.
    rewrite list_lookup_insert_eq by done. simpl. by rewrite app_nil_r.
  - simpl. rewrite list_lookup_insert_eq by done. by destruct ex.
  - simpl. rewrite list_lookup_insert_eq by done. rewrite jobs_of_snoc.
    rewrite decide_True by done. simpl. by rewrite <- !app_assoc.
Qed.

Lemma lined_up_exec i e w :
  lined_up i w `sublist_of` submitted w ->
  lined_up i (exec e w) `sublist_of` submitted (exec e w).
Proof.
  intros Hs. destruct e as [stms| |j]; simpl; [| done |].
  - unfold lined_up in *. simpl. rewrite !app_assoc.
    apply sublist_app; [by rewrite <- app_assoc | done].
  - rewrite run_submitted. destruct (decide (j = i)) as [->|Hji].
    + by rewrite lined_up_run_same.
    + etrans; [|exact Hs]. unfold lined_up.
      rewrite run_jobs_other, run_other by done.
      destruct (run_bulks j w) as [-> | ->]; [done|].
      apply sublist_app; [done|]. apply sublist_app; [done|].
      apply sublist_nil_l.
Qed.

(** X2 (order within a thread).  In a pool of any number of threads, under
    every interleaving, the blocks on which one thread has called the job
    come in the order in which they were sent: they are a subsequence of
    the blocks sent. *)
Theorem Worker_thread_keeps_order (n : nat) (tr : list event) (i : nat) :
  jobs_of i (execs tr (new n)) `sublist_of` sends tr.
Proof.
  assert (forall tr w, lined_up i w `sublist_of` submitted w ->
            lined_up i (execs tr w) `sublist_of` submitted (execs tr w)) as H.
  { clear tr. induction tr as [|e tr IH]; intros w Hw; simpl; [done|].
    by apply IH, lined_up_exec. }
  specialize (H tr (new n)). rewrite execs_submitted in H. simpl in H.
  etrans; [|apply H].
  - unfold lined_up. by apply sublist_inserts_r.
  - unfold lined_up, jobs_of. simpl.
    destruct (replicate n Waiting !! i) as [th|] eqn:Hi; simpl; [|done].
    by apply lookup_replicate in Hi as [-> _].
Qed.

(** ** The counters of a pool add up *)

Lemma by_threads_new n : by_threads (new n).
Proof. unfold by_threads. simpl. constructor. Qed.

Lemma by_threads_run i w : by_threads w -> by_threads (run i w).
Proof.
  unfold by_threads. intros Hb. rewrite run_pool_length. unfold run.
  destruct (thread_pool w !! i) as [[| ex [|stms rest] |]|] eqn:Hi; try done.
  - by destruct (wake_condition w).
  - simpl. apply Forall_app. split; [done|].
    constructor; [|done]. simpl. by eapply lookup_lt_Some.
Qed.

Lemma sum_nothing {A} (l : list A) : sum_list_with (fun _ => 0%nat) l = 0%nat.
Proof. induction l as [|x l IH]; simpl; [done|]. exact IH. Qed.

Lemma sum_plus {A} (f g : A -> nat) (l : list A) :
  sum_list_with (fun x => (f x + g x)%nat) l
  = (sum_list_with f l + sum_list_with g l)%nat.
Proof. induction l as [|x l IH]; simpl; [done|]. rewrite IH. lia. Qed.

Lemma sum_one (j k a n : nat) :
  sum_list_with (fun i => if decide (j = i) then k else 0%nat) (seq a n)
  = if decide (a <= j < a + n)%nat then k else 0%nat.
Proof.
  revert a. induction n as [|n IH]; intros a; simpl.
  - by rewrite decide_False by lia.
  - rewrite IH. repeat case_decide; lia.
Qed.

Lemma sum_same {A} (f g : A -> nat) (l : list A) :
  (forall x, f x = g x) -> sum_list_with f l = sum_list_with g l.
Proof. intros H. induction l as [|x l IH]; simpl; [done|]. by rewrite H, IH. Qed.

(** Sorting the calls of the job by thread loses none of them. *)
Lemma sum_by_thread (weight : StatementContainer -> nat) n
    (l : list (nat * StatementContainer)) :
  Forall (fun p => (p.1 < n)%nat) l ->
  sum_list_with
    (fun i => sum_list_with weight (filter (fun p => p.1 = i) l).*2) (seq 0 n)
  = sum_list_with weight l.*2.
Proof.
  induction 1 as [|[j stms] l Hj _ IH].
  - apply sum_nothing.
  - simpl in Hj.
    transitivity
      (sum_list_with
         (fun i => ((if decide (j = i) then weight stms else 0)
                    + sum_list_with weight
                        (filter (fun p : nat * StatementContainer => p.1 = i) l).*2)%nat)
         (seq 0 n)).
    + apply sum_same. intros i. rewrite filter_cons. simpl.
      by destruct (decide (j = i)).
    + rewrite sum_plus, sum_one, IH, decide_True by lia. done.
Qed.

Lemma length_weight (l : list StatementContainer) :
  length l = sum_list_with (fun _ => 1%nat) l.
Proof. induction l as [|x l IH]; simpl; [done|]. by rewrite IH. Qed.

Lemma length_concat_weight (l : list StatementContainer) :
  length (concat l) = sum_list_with length l.
Proof.
  induction l as [|x l IH]; simpl; [done|]. by rewrite length_app, IH.
Qed.

Lemma counted_metrics w :
  counted w ->
  thread_metrics w
  = (fun i => tally (jobs_of i w)) <$> seq 0 (length (thread_pool w)).
Proof.
  intros [Hlen Hm]. apply list_eq. intros i.
  rewrite list_lookup_fmap.
  destruct (thread_metrics w !! i) as [m|] eqn:Hi.
  - pose proof (lookup_lt_Some _ _ _ Hi) as Hlt. rewrite Hlen in Hlt.
    rewrite lookup_seq_lt by done. simpl. by rewrite (Hm _ _ Hi).
  - apply lookup_ge_None in Hi. rewrite Hlen in Hi.
    by rewrite lookup_ge_None_2 by (by rewrite length_seq).
Qed.

Lemma total_blocks_tally (J : nat -> list StatementContainer) idx :
  total_blocks ((fun i => tally (J i)) <$> idx) mod size_max
  = Z.of_nat (sum_list_with (fun i => length (J i)) idx) mod size_max.
Proof.
  induction idx as [|i idx IH]; [done|].
  change (total_blocks ((fun i => tally (J i)) <$> i :: idx))
    with (Z.of_nat (length (J i)) mod size_max
          + total_blocks ((fun i => tally (J i)) <$> idx)).
  change (sum_list_with (fun i => length (J i)) (i :: idx))
    with (length (J i) + sum_list_with (fun i => length (J i)) idx)%nat.
  rewrite Nat2Z.inj_add.
  rewrite Zplus_mod, Zmod_mod, IH, <- Zplus_mod. done.
Qed.

Lemma total_statements_tally (J : nat -> list StatementContainer) idx :
  total_statements ((fun i => tally (J i)) <$> idx) mod size_max
  = Z.of_nat (sum_list_with (fun i => length (concat (J i))) idx) mod size_max.
Proof.
  induction idx as [|i idx IH]; [done|].
  change (total_statements ((fun i => tally (J i)) <$> i :: idx))
    with (Z.of_nat (length (concat (J i))) mod size_max
          + total_statements ((fun i => tally (J i)) <$> idx)).
  change (sum_list_with (fun i => length (concat (J i))) (i :: idx))
    with (length (concat (J i))
          + sum_list_with (fun i => length (concat (J i))) idx)%nat.
  rewrite Nat2Z.inj_add.
  rewrite Zplus_mod, Zmod_mod, IH, <- Zplus_mod. done.
Qed.

Lemma counters_add_up w :
  counted w -> by_threads w ->
  total_blocks (thread_metrics w) mod size_max
    = Z.of_nat (length (jobs w)) mod size_max
  /\ total_statements (thread_metrics w) mod size_max
    = Z.of_nat (length (concat (jobs w).*2)) mod size_max.
Proof.
  intros Hc Hb. rewrite (counted_metrics w Hc). unfold jobs_of. split.
  - rewrite total_blocks_tally. f_equal. f_equal.
    rewrite <- (length_fmap snd (jobs w)), length_weight.
    rewrite <- (sum_by_thread _ _ _ Hb).
    apply sum_same. intros i. apply length_weight.
  - rewrite total_statements_tally. f_equal. f_equal.
    rewrite length_concat_weight.
    rewrite <- (sum_by_thread _ _ _ Hb).
    apply sum_same. intros i. apply length_concat_weight.
Qed.

(** In a pool of one thread, the thread has made every call; in a pool of
    two, the calls of the two threads are all the calls. *)
Lemma filter_single (l : list (nat * StatementContainer)) :
  Forall (fun p => (p.1 < 1)%nat) l ->
  (filter (fun p => p.1 = 0%nat) l).*2 = l.*2.
Proof.
  induction 1 as [|[j stms] l Hj _ IH]; [done|].
  simpl in Hj. rewrite filter_cons. simpl.
  rewrite decide_True by lia. simpl. f_equal. exact IH.
Qed.

Lemma filter_pair (l : list (nat * StatementContainer)) :
  Forall (fun p => (p.1 < 2)%nat) l ->
  (filter (fun p => p.1 = 0%nat) l).*2 ++ (filter (fun p => p.1 = 1%nat) l).*2
  ≡ₚ l.*2.
Proof.
  induction 1 as [|[j stms] l Hj _ IH]; [done|].
  simpl in Hj. rewrite !filter_cons. simpl.
  destruct (decide (j = 0%nat)) as [->|Hj0].
  - rewrite decide_False by done. simpl. apply perm_skip. exact IH.
  - rewrite decide_True by lia. simpl.
    etrans; [symmetry; apply Permutation_middle|].
    apply perm_skip. exact IH.
Qed.

Lemma jobs_of_single w :
  by_threads w -> length (thread_pool w) = 1%nat ->
  jobs_of 0 w = (jobs w).*2.
Proof.
  unfold by_threads, jobs_of. intros Hb Hl. rewrite Hl in Hb.
  by apply filter_single.
Qed.

Lemma jobs_of_pair w :
  by_threads w -> length (thread_pool w) = 2%nat ->
  jobs_of 0 w ++ jobs_of 1 w ≡ₚ (jobs w).*2.
Proof.
  unfold by_threads, jobs_of. intros Hb Hl. rewrite Hl in Hb.
  by apply filter_pair.
Qed.

(** ** A waiting thread works off the queue *)

Lemma run_held i : forall l w ex,
  thread_pool w !! i = Some (Processing ex l) ->
  let w' := Nat.iter (length l) (run i) w in
  thread_pool w' = <[i := Processing ex []]> (thread_pool w)
  /\ bulks w' = bulks w
  /\ stopped w' = stopped w
  /\ submitted w' = submitted w
  /\ jobs w' = jobs w ++ ((fun stms => (i, stms)) <$> l).
Proof.
  induction l as [|stms l IH]; intros w ex Hi.
  - simpl. rewrite list_insert_id by done. by rewrite app_nil_r.
  - pose proof (lookup_lt_Some _ _ _ Hi) as Hlt.
    change (length (stms :: l)) with (S (length l)).
    rewrite Nat.iter_succ_r.
    assert (thread_pool (run i w) = <[i := Processing ex l]> (thread_pool w)
            /\ bulks (run i w) = bulks w
            /\ stopped (run i w) = stopped w
            /\ submitted (run i w) = submitted w
            /\ jobs (run i w) = jobs w ++ [(i, stms)])
      as (Hp & Hb & Hs & Hsub & Hj).
    { unfold run. by rewrite Hi. }
    destruct (IH (run i w) ex) as (Hp' & Hb' & Hs' & Hsub' & Hj').
    { rewrite Hp. by apply list_lookup_insert_eq. }
    cbv zeta. rewrite Hp', Hb', Hs', Hsub', Hj', Hp, Hb, Hs, Hsub, Hj.
    rewrite list_insert_insert_eq, <- app_assoc. done.
Qed.

(** X3 (a thread works off the queue).  In a pool that was not stopped, a
    waiting thread that is let run as many steps as the non-empty queue
    has blocks, and two more, has taken the whole queue, called the job
    on each of its blocks, in order, and is back in the wait: the queue
    is empty and every other thread is where it was. *)
Theorem Worker_thread_works_off_queue (i : nat) (w : t) :
  thread_pool w !! i = Some Waiting ->
  stopped w = false ->
  bulks w ≠ [] ->
  let w' := Nat.iter (length (bulks w) + 2) (run i) w in
  thread_pool w' = thread_pool w
  /\ bulks w' = []
  /\ stopped w' = false
  /\ submitted w' = submitted w
  /\ jobs w' = jobs w ++ ((fun stms => (i, stms)) <$> bulks w).
Proof.
  intros Hi Hst Hq.
  pose proof (lookup_lt_Some _ _ _ Hi) as Hlt.
  replace (length (bulks w) + 2)%nat with (S (S (length (bulks w)))) by lia.
  change (Nat.iter (S (S (length (bulks w)))) (run i) w)
    with (run i (Nat.iter (S (length (bulks w))) (run i) w)).
  rewrite Nat.iter_succ_r.
  assert (thread_pool (run i w)
            = <[i := Processing false (bulks w)]> (thread_pool w)
          /\ bulks (run i w) = []
          /\ stopped (run i w) = false
          /\ submitted (run i w) = submitted w
          /\ jobs (run i w) = jobs w)
    as (Hp & Hb & Hs & Hsub & Hj).
  { unfold run, wake_condition. rewrite Hi, Hst.
    by rewrite bool_decide_false by done. }
  destruct (run_held i (bulks w) (run i w) false)
    as (Hp' & Hb' & Hs' & Hsub' & Hj').
  { rewrite Hp. by apply list_lookup_insert_eq. }
  set (w2 := Nat.iter (length (bulks w)) (run i) (run i w)) in *.
  assert (thread_pool w2 !! i = Some (Processing false [])) as Hi2.
  { rewrite Hp'. apply list_lookup_insert_eq. by rewrite Hp, length_insert. }
  cbv zeta. unfold run at 1 2 3 4 5. rewrite Hi2. simpl.
  rewrite Hp', Hb', Hs', Hsub', Hj', Hp, Hb, Hs, Hsub, Hj.
  rewrite !list_insert_insert_eq, list_insert_id by done. done.
Qed.

(** ** [join] and the destructor *)

Lemma running_new n : running (new n).
Proof.
  split; [done|]. simpl. apply Forall_forall. intros th Hin.
  by apply elem_of_replicate in Hin as [-> _].
Qed.

Lemma running_run i w : running w -> running (run i w).
Proof.
  intros [Hst Hall]. unfold run, running.
  destruct (thread_pool w !! i) as [[| ex [|stms rest] |]|] eqn:Hi; try done.
  - destruct (wake_condition w); [|done]. simpl.
    split; [done|]. apply Forall_insert; [done|]. simpl. exact Hst.
  - pose proof (Forall_lookup_1 _ _ _ _ Hall Hi) as Hex. simpl in Hex.
    subst ex. simpl. split; [done|]. by apply Forall_insert.
  - pose proof (Forall_lookup_1 _ _ _ _ Hall Hi) as Hex. simpl in Hex.
    subst ex. simpl. split; [done|]. by apply Forall_insert.
Qed.

Lemma running_execs tr w :
  forallb (fun e => negb (is_stop e)) tr = true ->
  running w -> running (execs tr w).
Proof.
  revert w. induction tr as [|e tr IH]; intros w Htr Hw; simpl; [done|].
  simpl in Htr. apply andb_true_iff in Htr as [He Htr].
  apply IH; [done|]. destruct e as [stms| |i]; simpl; [done | done |].
  by apply running_run.
Qed.

Lemma running_not_exited w :
  (0 < length (thread_pool w))%nat -> running w -> all_exited w = false.
Proof.
  intros Hn [_ Hall]. apply not_true_is_false. intros Hex.
  apply all_exited_spec in Hex.
  destruct (thread_pool w) as [|th pool]; simpl in Hn; [lia|].
  apply Forall_inv in Hall. apply Forall_inv in Hex. by subst th.
Qed.

(** X4 ([join] without [stop]).  A pool of at least one thread that was
    never stopped cannot be joined, whatever was sent to it and however
    its threads run: [join] does not return, and neither does the
    destructor, which joins without stopping. *)
Theorem Worker_join_needs_stop (n : nat) (tr : list event) (sched : list nat) :
  (1 <= n)%nat ->
  forallb (fun e => negb (is_stop e)) tr = true ->
  join sched (execs tr (new n)) = Blocks
  /\ destroy (execs tr (new n)) = Blocks.
Proof.
  intros Hn Htr.
  assert (forall sched, join sched (execs tr (new n)) = Blocks) as Hj.
  { intros sched'. unfold join.
    set (P := fun v : t => (0 < length (thread_pool v))%nat /\ running v).
    assert (P (finish_all (run_all sched' (execs tr (new n))))) as [Hlen Hr].
    { apply join_steps_ind.
      - intros i v [? ?]. split; [by rewrite run_pool_length|].
        by apply running_run.
      - split; [|by apply running_execs, running_new].
        rewrite execs_pool_length. simpl. rewrite length_replicate. lia. }
    by rewrite running_not_exited. }
  split; [apply Hj|]. unfold destroy. by rewrite Hj.
Qed.

(** X5 ([join] twice).  Once [join] has returned, joining again returns at
    once with the pool as it is, under every schedule, and so does the
    destructor. *)
Theorem Worker_join_again (sched : list nat) (w w' : t) :
  join sched w = Returns w' ->
  (forall sched', join sched' w' = Returns w')
  /\ destroy w' = Returns ().
Proof.
  intros Hj. apply join_inv in Hj as [_ Hex].
  split; [intros; by apply join_quiet|].
  unfold destroy. by rewrite join_quiet.
Qed.

End WorkerMore.

(** * More on the interpreter *)

Section InterpreterMore.
Context {R : Reader.t}.
Import Impl.

(** ** No byte is lost between the input and the lines *)

Lemma occurs_snoc c a x :
  occurs c (a +:+ String x EmptyString) = occurs c a || bool_decide (x = c).
Proof.
  induction a as [|y a IH]; [by simpl; rewrite orb_false_r|].
  change (bool_decide (y = c) || occurs c (a +:+ String x EmptyString)
          = bool_decide (y = c) || occurs c a || bool_decide (x = c)).
  by rewrite IH, orb_assoc.
Qed.

Lemma consume_rejoin data : forall I I',
  consume_pass data I = Returns I' ->
  Interpreter.rejoin (Interpreter.owed (Interpreter.pending_line I) data)
    (Interpreter.pending_line I')
  = Interpreter.pending_line I +:+ data.
Proof.
  induction data as [|c data IH]; intros I I'; simpl.
  - intros [= <-]. by rewrite append_empty.
  - destruct (decide (c = newline)) as [->|Hc].
    + intros H. rewrite owed_newline. simpl.
      specialize (IH _ _ H).
      destruct (consume_available_reader I) as [_ Hp]. rewrite Hp in IH.
      rewrite owed_empty in IH. fold (Interpreter.rejoin
        (Interpreter.complete_lines data) (Interpreter.pending_line I')).
      by rewrite IH.
    + destruct (decide (buffer_size I < length (buffer I))%nat); [|done].
      intros H. specialize (IH _ _ H).
      rewrite pending_line_store in IH by done.
      by rewrite owed_char, IH, append_snoc_cons.
Qed.

Lemma consume_no_newline data : forall I I',
  consume_pass data I = Returns I' ->
  occurs newline (Interpreter.pending_line I) = false ->
  Forall (fun l => occurs newline l = false)
    (Interpreter.owed (Interpreter.pending_line I) data)
  /\ occurs newline (Interpreter.pending_line I') = false.
Proof.
  induction data as [|c data IH]; intros I I'; simpl.
  - intros [= <-] Hp. split; [|done]. by constructor.
  - destruct (decide (c = newline)) as [->|Hc].
    + intros H Hp. rewrite owed_newline.
      destruct (consume_available_reader I) as [_ Hp'].
      destruct (IH _ _ H) as [Hall Hend]; [by rewrite Hp'|].
      rewrite Hp', owed_empty in Hall. split; [|done]. by constructor.
    + destruct (decide (buffer_size I < length (buffer I))%nat); [|done].
      intros H Hp. rewrite owed_char by done.
      destruct (IH _ _ H) as [Hall Hend].
      { rewrite pending_line_store, occurs_snoc, Hp by done. simpl.
        by apply bool_decide_eq_false. }
      by rewrite pending_line_store in Hall.
Qed.

(** X6 (the line splitter keeps the bytes).  When [consume] returns, the
    reader was given the lines [owed], and these lines, each followed by
    a line feed, and then the text left in the buffer, are what the buffer
    held followed by the input: no byte is lost, added or moved.  If the
    buffer held no line feed, no line given to the reader contains one and
    the buffer holds none afterwards. *)
Theorem Interpreter_consume_keeps_bytes (data : string) (I I' : Impl.t) :
  consume data I = Returns I' ->
  let ls := Interpreter.owed (Interpreter.pending_line I) data in
  reader I' = Interpreter.given ls (reader I)
  /\ Interpreter.rejoin ls (Interpreter.pending_line I')
     = Interpreter.pending_line I +:+ data
  /\ (occurs newline (Interpreter.pending_line I) = false ->
      Forall (fun l => occurs newline l = false) ls
      /\ occurs newline (Interpreter.pending_line I') = false).
Proof.
  intros H ls. apply consume_returns in H as [_ H].
  split; [by apply consume_given|].
  split; [by apply consume_rejoin|]. by apply consume_no_newline.
Qed.

(** ** The files of the file job *)

Lemma lines_line v rest :
  occurs newline v = false ->
  Interpreter.lines (v +:+ String newline rest) = v :: Interpreter.lines rest.
Proof.
  induction v as [|c v IH]; intros Hv; [done|].
  simpl in Hv. apply orb_false_iff in Hv as [Hc Hv].
  apply bool_decide_eq_false in Hc.
  change (Interpreter.lines (String c (v +:+ String newline rest))
          = String c v :: Interpreter.lines rest).
  simpl. rewrite decide_False by done. by rewrite IH.
Qed.

(** X7 (the file of a block reads back).  The text that [file_job] writes
    for a block whose statements contain no line feed splits at the line
    feeds into these statements, in order, followed by one empty line. *)
Theorem Interpreter_file_text_lines (stms : StatementContainer) :
  Forall (fun v => occurs newline v = false) stms ->
  Interpreter.lines (Interpreter.file_text stms) = stms ++ [EmptyString].
Proof.
  induction 1 as [|v stms Hv _ IH]; [done|].
  simpl. by rewrite lines_line, IH.
Qed.

Lemma append_cancel_r s a : forall b, a +:+ s = b +:+ s -> a = b.
Proof.
  induction a as [|x a IH]; intros [|y b] H; [done| | |].
  - apply (f_equal String.length) in H. rewrite !append_length in H.
    cbn in H. lia.
  - apply (f_equal String.length) in H. rewrite !append_length in H.
    cbn in H. lia.
  - change (String x (a +:+ s) = String y (b +:+ s)) in H.
    injection H as -> H. by rewrite (IH _ H).
Qed.

Lemma append_cut c a : forall b x y,
  occurs c a = false -> occurs c b = false ->
  a +:+ String c x = b +:+ String c y -> a = b /\ x = y.
Proof.
  induction a as [|z a IH]; intros [|z' b] x y Ha Hb H.
  - by injection H as ->.
  - change (String c x = String z' (b +:+ String c y)) in H.
    injection H as <- _. simpl in Hb. by rewrite bool_decide_true in Hb.
  - change (String z (a +:+ String c x) = String c y) in H.
    injection H as -> _. simpl in Ha. by rewrite bool_decide_true in Ha.
  - change (String z (a +:+ String c x) = String z' (b +:+ String c y)) in H.
    injection H as -> H. simpl in Ha, Hb.
    apply orb_false_iff in Ha as [_ Ha]. apply orb_false_iff in Hb as [_ Hb].
    destruct (IH _ _ _ Ha Hb H) as [-> ->]. done.
Qed.

Lemma pretty_N_go_occurs c x : forall s,
  (forall d, pretty_N_char d ≠ c) ->
  occurs c (pretty_N_go x s) = occurs c s.
Proof.
  induction (N.lt_wf_0 x) as [x _ IH]; intros s Hc.
  destruct (decide (x = 0%N)) as [->|Hx]; [by rewrite pretty_N_go_0|].
  rewrite pretty_N_go_step by lia.
  rewrite IH; [| apply N.div_lt; lia | done].
  simpl. by rewrite bool_decide_false by apply Hc.
Qed.

Lemma pretty_Z_no_underscore (z : Z) :
  occurs (Ascii.ascii_of_nat 95) (pretty z) = false.
Proof.
  assert (forall d, pretty_N_char d ≠ Ascii.ascii_of_nat 95) as Hd.
  { intros d. unfold pretty_N_char. by repeat case_match. }
  assert (forall n : N, occurs (Ascii.ascii_of_nat 95) (pretty n) = false) as HN.
  { intros n. unfold pretty, pretty_N. case_decide; [done|].
    by rewrite pretty_N_go_occurs. }
  destruct z as [|p|p]; [done | apply HN |].
  unfold pretty, pretty_Z. simpl. apply HN.
Qed.

Lemma file_name_inj a t b u :
  Interpreter.file_name a t = Interpreter.file_name b u <-> a = b /\ t = u.
Proof.
  split; [|by intros [-> ->]].
  unfold Interpreter.file_name. intros H.
  apply (inj (String.app "bulk_")) in H.
  change (pretty a +:+ String (Ascii.ascii_of_nat 95) (t +:+ ".log")
          = pretty b +:+ String (Ascii.ascii_of_nat 95) (u +:+ ".log")) in H.
  apply append_cut in H as [Hab Htu]; [|apply pretty_Z_no_underscore..].
  split; [by apply (inj pretty) | by eapply append_cancel_r].
Qed.

Lemma substring_all s : forall n,
  (String.length s <= n)%nat -> String.substring 0 n s = s.
Proof.
  induction s as [|c s IH]; intros [|n] Hn; simpl in *; [done | done | lia |].
  rewrite IH by lia. done.
Qed.

(** X8 (the files of two blocks).  After [file_job] has run on two
    blocks, the file named for the first holds what the second call wrote
    when both calls read the same clock value in the same thread and the
    second [open] succeeded, the later [open] having truncated it; in
    every other case, the names being different then or the second [open]
    having failed, it holds what the first call wrote, and when the first
    [open] failed too it is as it was before.  A call none of whose
    writes fails writes the whole text of its block. *)
Theorem Interpreter_file_job_twice (a b : Z) (t u : string)
    (w1 w2 : option nat) (s1 s2 : StatementContainer)
    (files : gmap string string) :
  Interpreter.file_job b u w2 s2 (Interpreter.file_job a t w1 s1 files)
    !! Interpreter.file_name a t
  = match (if decide (a = b /\ t = u) then w2 else None), w1 with
    | Some n, _ => Some (String.substring 0 n (Interpreter.file_text s2))
    | None, Some n => Some (String.substring 0 n (Interpreter.file_text s1))
    | None, None => files !! Interpreter.file_name a t
    end
  /\ (forall n stms,
        (String.length (Interpreter.file_text stms) <= n)%nat ->
        Interpreter.file_job a t (Some n) stms files
        = <[Interpreter.file_name a t := Interpreter.file_text stms]> files).
Proof.
  split.
  - assert (forall w s (m : gmap string string),
              Interpreter.file_job a t w s m !! Interpreter.file_name a t
              = match w with
                | Some n => Some (String.substring 0 n (Interpreter.file_text s))
                | None => m !! Interpreter.file_name a t
                end) as Hsame.
    { intros [n|] s m; simpl; [by rewrite lookup_insert_eq | done]. }
    destruct (decide (a = b /\ t = u)) as [[<- <-]|Hne].
    + rewrite Hsame. destruct w2; [done|]. apply Hsame.
    + assert (forall m : gmap string string,
                Interpreter.file_job b u w2 s2 m !! Interpreter.file_name a t
                = m !! Interpreter.file_name a t) as Hother.
      { intros m. destruct w2 as [n|]; simpl; [|done].
        apply lookup_insert_ne. intros H.
        apply file_name_inj in H as [-> ->]. by apply Hne. }
      rewrite Hother. apply Hsame.
  - intros n stms Hn. simpl. by rewrite substring_all.
Qed.

(** ** What the calls keep of the pools *)

Section pools_keep.
Variables Pl Pf : Worker.t -> Prop.
Hypothesis Pl_send : forall stms w, Pl w -> Pl (Worker.send stms w).
Hypothesis Pf_send : forall stms w, Pf w -> Pf (Worker.send stms w).
Hypothesis Pl_run : forall i w, Pl w -> Pl (Worker.run i w).
Hypothesis Pf_run : forall i w, Pf w -> Pf (Worker.run i w).

Let both (I : Impl.t) : Prop := Pl (log_worker I) /\ Pf (file_worker I).

Lemma keep_notify_all blocks : forall I, both I -> both (notify_all blocks I).
Proof.
  assert (forall stms l J, both J -> both (foldl (notify_one stms) J l)) as Hone.
  { intros stms l. induction l as [|s l IH]; intros J HJ; simpl; [done|].
    apply IH. destruct HJ as [Hl Hf]. destruct J, s; simpl in *.
    - split; [by apply Pl_send | done].
    - split; [done | by apply Pf_send]. }
  unfold notify_all.
  induction blocks as [|b blocks IH]; intros I HI; simpl; [done|].
  apply IH. unfold notify. by apply Hone.
Qed.

Lemma keep_consume_available I : both I -> both (consume_available I).
Proof.
  intros HI. unfold consume_available.
  destruct (Reader.consume _ (reader I)) as [r blocks].
  assert (both (notify_all blocks (set_reader r I))) as H.
  { apply keep_notify_all. by destruct I. }
  by destruct (notify_all blocks (set_reader r I)).
Qed.

Lemma keep_consume data : forall I I',
  both I -> consume_pass data I = Returns I' -> both I'.
Proof.
  induction data as [|c data IH]; intros I I' HI; simpl.
  - by intros [= <-].
  - destruct (decide (c = newline)).
    + apply IH. by apply keep_consume_available.
    + destruct (decide (buffer_size I < length (buffer I))%nat); [|done].
      apply IH. by destruct I.
Qed.

Lemma keep_schedule sl sf I : both I -> both (Interpreter.schedule sl sf I).
Proof.
  assert (forall (P : Worker.t -> Prop),
            (forall i w, P w -> P (Worker.run i w)) ->
            forall l w, P w -> P (Worker.run_all l w)) as Hall.
  { intros P HP l. unfold Worker.run_all.
    induction l as [|i l IH]; intros w Hw; simpl; auto. }
  intros [Hl Hf]. split.
  - exact (Hall Pl Pl_run sl (log_worker I) Hl).
  - exact (Hall Pf Pf_run sf (file_worker I) Hf).
Qed.

Hypothesis Pl_stop : forall w, Pl w -> Pl (Worker.stop w).
Hypothesis Pf_stop : forall w, Pf w -> Pf (Worker.stop w).

Lemma keep_on_eof sl sf I I' :
  both I -> on_eof sl sf I = Returns I' -> both I'.
Proof.
  intros HI Heof. unfold on_eof in Heof.
  set (I1 := if decide (buffer_size I ≠ 0%nat) then consume_available I else I)
    in Heof.
  assert (both I1) as H1.
  { unfold I1. destruct (decide (buffer_size I ≠ 0%nat)); [|done].
    by apply keep_consume_available. }
  destruct (Reader.on_eof (reader I1)) as [r blocks].
  assert (both (notify_all blocks (set_reader r I1))) as [Hl Hf].
  { apply keep_notify_all. by destruct I1. }
  destruct (Worker.join sl _) as [lw'| |] eqn:Hjl; [|done|done].
  destruct (Worker.join sf _) as [fw'| |] eqn:Hjf; [|done|done].
  simpl in Heof. injection Heof as <-.
  apply join_inv in Hjl as [-> _]. apply join_inv in Hjf as [-> _].
  destruct (notify_all blocks (set_reader r I1)); simpl in *.
  split.
  - apply (join_steps_ind Pl Pl_run). by apply Pl_stop.
  - apply (join_steps_ind Pf Pf_run). by apply Pf_stop.
Qed.

End pools_keep.

Lemma accounted_new n : Worker.accounted (Worker.new n).
Proof. split; [apply counted_new | apply by_threads_new]. Qed.

Lemma accounted_send stms w :
  Worker.accounted w -> Worker.accounted (Worker.send stms w).
Proof. by intros [? ?]. Qed.

Lemma accounted_stop w : Worker.accounted w -> Worker.accounted (Worker.stop w).
Proof. by intros [? ?]. Qed.

Lemma accounted_run i w :
  Worker.accounted w -> Worker.accounted (Worker.run i w).
Proof. intros [? ?]. split; [by apply counted_run | by apply by_threads_run]. Qed.

Lemma consume_name data : forall I I',
  consume_pass data I = Returns I' -> name I' = name I.
Proof.
  induction data as [|c data IH]; intros I I'; simpl.
  - by intros [= ->].
  - destruct (decide (c = newline)).
    + intros H. rewrite (IH _ _ H).
      destruct (consume_available_frame I) as (r & lw & fw & ->). done.
    + destruct (decide (buffer_size I < length (buffer I))%nat); [|done].
      intros H. by rewrite (IH _ _ H).
Qed.

(** Both pools are sent the same blocks. *)
Lemma consume_broadcast data : forall I I',
  subscribers I = [LogWorker; FileWorker] ->
  consume_pass data I = Returns I' ->
  exists blocks,
    Worker.submitted (log_worker I')
      = Worker.submitted (log_worker I) ++ blocks
    /\ Worker.submitted (file_worker I')
      = Worker.submitted (file_worker I) ++ blocks.
Proof.
  induction data as [|c data IH]; intros I I' Hs; simpl.
  - intros [= <-]. exists []. by rewrite !app_nil_r.
  - destruct (decide (c = newline)).
    + intros H.
      assert (exists b1,
        subscribers (consume_available I) = [LogWorker; FileWorker]
        /\ Worker.submitted (log_worker (consume_available I))
            = Worker.submitted (log_worker I) ++ b1
        /\ Worker.submitted (file_worker (consume_available I))
            = Worker.submitted (file_worker I) ++ b1) as (b1 & Hs1 & Hl1 & Hf1).
      { unfold consume_available.
        destruct (Reader.consume _ (reader I)) as [r blocks].
        destruct (notify_all_std blocks (set_reader r I))
          as (lw & fw & -> & Hl & Hf); [done|].
        exists blocks. simpl in *. by rewrite Hl, Hf. }
      destruct (IH _ _ Hs1 H) as (b2 & Hl2 & Hf2).
      exists (b1 ++ b2). by rewrite Hl2, Hf2, Hl1, Hf1, <- !app_assoc.
    + destruct (decide (buffer_size I < length (buffer I))%nat); [|done].
      intros H.
      exact (IH (set_buffer (<[buffer_size I := c]> (buffer I))
                   (S (buffer_size I)) I) I' Hs H).
Qed.

Lemma accounted_consume data I I' :
  Interpreter.in_use I -> Interpreter.accounted I ->
  Interpreter.consume data I = Returns I' -> Interpreter.accounted I'.
Proof.
  intros (Hst & Hsub & _) (Hl & Hf & Heq).
  unfold Interpreter.consume. rewrite Hst. intros Hc.
  apply consume_returns in Hc as [_ Hc].
  destruct (keep_consume Worker.accounted Worker.accounted
              accounted_send accounted_send data I I') as [Hl' Hf']; try done.
  split; [done|]. split; [done|].
  destruct (consume_broadcast _ _ _ Hsub Hc) as (b & -> & ->). by rewrite Heq.
Qed.

Lemma view_submitted I1 I2 :
  Interpreter.view I1 = Interpreter.view I2 ->
  Worker.submitted (log_worker I1) = Worker.submitted (log_worker I2)
  /\ Worker.submitted (file_worker I1) = Worker.submitted (file_worker I2).
Proof. unfold Interpreter.view. by intros [=]. Qed.

Lemma accounted_schedule sl sf I :
  Interpreter.accounted I -> Interpreter.accounted (Interpreter.schedule sl sf I).
Proof.
  intros (Hl & Hf & Heq).
  destruct (keep_schedule Worker.accounted Worker.accounted
              accounted_run accounted_run sl sf I) as [Hl' Hf']; [done|].
  split; [done|]. split; [done|].
  destruct (view_submitted _ _ (schedule_view sl sf I)) as [-> ->]. done.
Qed.

Lemma accounted_new_interpreter bulk nt n :
  Interpreter.accounted (Interpreter.new bulk nt n).
Proof. split; [apply accounted_new|]. split; [apply accounted_new | done]. Qed.

(** ** Input after the shutdown *)

(** X9 (input after the shutdown is dropped).  Once
    [stop_and_log_metrics] has returned, [consume] returns at once and
    leaves the interpreter as it is, whatever the input: nothing reaches
    the reader or the pools, and a line longer than the buffer does not
    throw. *)
Theorem Interpreter_consume_after_stop (sl sf : list nat) (I I' : Impl.t)
    (logged : list string) (data : string) :
  Interpreter.stop_and_log_metrics sl sf I = Returns (I', logged) ->
  Interpreter.consume data I' = Returns I'.
Proof.
  intros Hs. assert (stopped I' = true) as Hst.
  { destruct (stopped I) eqn:HI.
    - rewrite stop_again in Hs by done. by injection Hs as <- _.
    - destruct (stop_first sl sf I HI) as (I2 & _ & Hs2 & Hst2 & _).
      rewrite Hs in Hs2. by injection Hs2 as -> _. }
  unfold Interpreter.consume. by rewrite Hst.
Qed.

(** ** The pools at the shutdown *)

Lemma accounted_sized_keep (k : nat) :
  let P := fun w => Worker.accounted w /\ length (Worker.thread_pool w) = k in
  (forall stms w, P w -> P (Worker.send stms w))
  /\ (forall i w, P w -> P (Worker.run i w))
  /\ (forall w, P w -> P (Worker.stop w)).
Proof.
  intros P. split; [|split].
  - intros stms w [? ?]. split; [by apply accounted_send | done].
  - intros i w [? ?]. split; [by apply accounted_run|].
    by rewrite run_pool_length.
  - intros w [? ?]. split; [by apply accounted_stop | done].
Qed.

Lemma file_pool_consume data I I' :
  Interpreter.consume data I = Returns I' ->
  length (Worker.thread_pool (file_worker I'))
  = length (Worker.thread_pool (file_worker I)).
Proof.
  unfold Interpreter.consume. destruct (stopped I); [by intros [= <-]|].
  intros Hc. apply consume_returns in Hc as [_ Hc].
  refine (proj2 (keep_consume (fun _ => True)
    (fun w => length (Worker.thread_pool w)
              = length (Worker.thread_pool (file_worker I)))
    _ _ data I I' _ Hc)); [done | done | done].
Qed.

Lemma file_pool_schedule sl sf I :
  length (Worker.thread_pool (file_worker (Interpreter.schedule sl sf I)))
  = length (Worker.thread_pool (file_worker I)).
Proof.
  refine (proj2 (keep_schedule (fun _ => True)
    (fun w => length (Worker.thread_pool w)
              = length (Worker.thread_pool (file_worker I)))
    _ _ sl sf I _)); [done | | done].
  intros i w Hw. by rewrite run_pool_length.
Qed.

(** What [stop_and_log_metrics] leaves of an interpreter in use. *)
Lemma shutdown_counts sl sf I :
  Interpreter.in_use I -> Interpreter.accounted I ->
  exists I',
    Interpreter.stop_and_log_metrics sl sf I
      = Returns (I', [Interpreter.report I'])
    /\ name I' = name I
    /\ Worker.submitted (file_worker I') = Worker.submitted (log_worker I')
    /\ (Worker.jobs (log_worker I')).*2 = Worker.submitted (log_worker I')
    /\ (Worker.jobs (file_worker I')).*2 ≡ₚ Worker.submitted (file_worker I')
    /\ Worker.thread_metrics (log_worker I')
       = [Worker.tally (Worker.submitted (log_worker I'))]
    /\ Worker.accounted (file_worker I')
    /\ length (Worker.thread_pool (file_worker I'))
       = length (Worker.thread_pool (file_worker I)).
Proof.
  intros (Hst & Hsub & Hpools & _) (Hal & Haf & Heq).
  destruct (stop_first sl sf I Hst) as (I' & Heof & Hstop & _).
  exists I'. split; [done|].
  destruct (on_eof_returns sl sf (set_stopped true I))
    as (I2 & Heof2 & Hname & _).
  rewrite Heof in Heof2. injection Heof2 as <-.
  split; [done|].
  destruct (on_eof_complete sl sf (set_stopped true I) I') as [Hjl Hjf];
    [by destruct I | done |].
  destruct (on_eof_submitted sl sf (set_stopped true I) I' Hsub Heof)
    as [Hsl Hsf].
  simpl in Hsl, Hsf.
  split; [by rewrite Hsl, Hsf, Heq|].
  split; [done|]. split; [done|].
  destruct Hpools as [(Hone & _) _].
  destruct (accounted_sized_keep 1) as (Hl1 & Hl2 & Hl3).
  destruct (accounted_sized_keep
              (length (Worker.thread_pool (file_worker I))))
    as (Hf1 & Hf2 & Hf3).
  destruct (keep_on_eof _ _ Hl1 Hf1 Hl2 Hf2 Hl3 Hf3 sl sf
              (set_stopped true I) I')
    as [[[Hcl Hbl] Hll] [Hfa Hfl]]; [by destruct I | done |].
  split; [|done].
  rewrite (counted_metrics _ Hcl), Hll. simpl.
  by rewrite jobs_of_single, Hjl.
Qed.

End InterpreterMore.

(** * The index of the loop of [consume] *)

Section InterpreterIndex.
Context {R : Reader.t}.
Import Impl.

(** ** A pass, turn by turn *)

Lemma consume_pass_cons c data I :
  consume_pass (String c data) I = consume_char c I ≫= consume_pass data.
Proof.
  simpl. unfold consume_char. destruct (decide (c = newline)); [done|].
  by destruct (decide (buffer_size I < length (buffer I))%nat).
Qed.

Lemma consume_char_returns c I : consume_char c I ≠ Blocks.
Proof.
  unfold consume_char. destruct (decide (c = newline)); [done|].
  by destruct (decide (buffer_size I < length (buffer I))%nat).
Qed.

Lemma consume_turns_0 data i I :
  consume_turns 0 data i I
  = if i <? Z.of_nat (String.length data) then None else Some (Returns I).
Proof. reflexivity. Qed.

Lemma consume_turns_S n data i I :
  consume_turns (S n) data i I
  = if i <? Z.of_nat (String.length data) then
      match String.get (Z.to_nat i) data with
      | Some c =>
          match consume_char c I with
          | Returns I' => consume_turns n data ((i + 1) mod uint_max) I'
          | OutOfRange => Some OutOfRange
          | Blocks => Some Blocks
          end
      | None => Some (Returns I)
      end
    else Some (Returns I).
Proof. reflexivity. Qed.

Lemma consume_turns_end n data i I :
  Z.of_nat (String.length data) <= i ->
  consume_turns n data i I = Some (Returns I).
Proof.
  intros Hi. destruct n; [rewrite consume_turns_0 | rewrite consume_turns_S];
    by rewrite (proj2 (Z.ltb_ge _ _) Hi).
Qed.

Lemma get_append_here pre c rest :
  String.get (String.length pre) (pre +:+ String c rest) = Some c.
Proof.
  induction pre as [|x pre IH]; [done|].
  change (String.get (String.length pre) (pre +:+ String c rest) = Some c).
  exact IH.
Qed.

Lemma get_in_range s : forall n,
  (n < String.length s)%nat -> exists c, String.get n s = Some c.
Proof.
  induction s as [|x s IH]; intros n Hn; simpl in Hn; [lia|].
  destruct n as [|n]; simpl; [by eexists|]. apply IH. lia.
Qed.

(** The turns that go over a piece [s] of the input that lies below the
    wrap of the index are a pass over [s]. *)
Lemma turns_segment data post s : forall pre I k,
  data = pre +:+ s +:+ post ->
  Z.of_nat (String.length pre) + Z.of_nat (String.length s) <= uint_max ->
  consume_turns (String.length s + k) data
    (Z.of_nat (String.length pre) mod uint_max) I
  = match consume_pass s I with
    | Returns I' =>
        consume_turns k data
          ((Z.of_nat (String.length pre) + Z.of_nat (String.length s))
             mod uint_max) I'
    | OutOfRange => Some OutOfRange
    | Blocks => Some Blocks
    end.
Proof.
  induction s as [|c s IH]; intros pre I k Hdata Hlen.
  - change (String.length EmptyString) with 0%nat.
    change (consume_pass EmptyString I) with (Returns I).
    by rewrite Z.add_0_r.
  - change (String.length (String c s)) with (S (String.length s)) in *.
    change (S (String.length s) + k)%nat with (S (String.length s + k)).
    rewrite consume_turns_S, consume_pass_cons.
    rewrite Z.mod_small by (unfold uint_max in *; lia).
    assert ((Z.of_nat (String.length pre) <? Z.of_nat (String.length data))
            = true) as ->.
    { apply Z.ltb_lt. rewrite Hdata, !append_length.
      change (String.length (String c s)) with (S (String.length s)). lia. }
    rewrite Nat2Z.id.
    assert (String.get (String.length pre) data = Some c) as ->.
    { rewrite Hdata. apply get_append_here. }
    destruct (consume_char c I) as [I1| |]; [|done|done].
    change (Returns I1 ≫= consume_pass s) with (consume_pass s I1).
    specialize (IH (pre +:+ String c EmptyString) I1 k).
    rewrite append_length in IH.
    change (String.length (String c EmptyString)) with 1%nat in IH.
    replace (Z.of_nat (String.length pre + 1))
      with (Z.of_nat (String.length pre) + 1) in IH by lia.
    rewrite IH; [| by rewrite append_snoc_cons | lia].
    replace (Z.of_nat (String.length pre) + 1 + Z.of_nat (String.length s))
      with (Z.of_nat (String.length pre) + Z.of_nat (S (String.length s)))
      by lia.
    done.
Qed.

Lemma consume_turns_short data I k :
  Z.of_nat (String.length data) < uint_max ->
  consume_turns (String.length data + k) data 0 I = Some (consume data I).
Proof.
  intros Hlen.
  pose proof (turns_segment data EmptyString data EmptyString I k) as H.
  change (String.length EmptyString) with 0%nat in H.
  change (Z.of_nat 0) with 0 in H.
  rewrite Z.mod_0_l in H by (unfold uint_max; lia).
  rewrite H; [| by rewrite append_empty | lia].
  rewrite consume_short by done.
  destruct (consume_pass data I) as [I'| |]; [|done|done].
  apply consume_turns_end. rewrite Z.add_0_l.
  rewrite Z.mod_small by lia. lia.
Qed.

Lemma consume_turns_runs data : forall turns i I I',
  uint_max <= Z.of_nat (String.length data) ->
  0 <= i < uint_max ->
  (consume_turns turns data i I ≠ Some (Returns I'))
  /\ (consume_turns turns data i I ≠ Some Blocks).
Proof.
  induction turns as [|n IH]; intros i I I' Hlen Hi.
  - rewrite consume_turns_0, (proj2 (Z.ltb_lt _ _)) by lia. done.
  - rewrite consume_turns_S, (proj2 (Z.ltb_lt _ _)) by lia.
    destruct (get_in_range data (Z.to_nat i)) as [c ->]; [lia|].
    pose proof (consume_char_returns c I) as Hc.
    destruct (consume_char c I) as [I1| |]; [|done|done].
    apply IH; [done|]. apply Z.mod_pos_bound. unfold uint_max. lia.
Qed.

Lemma consume_turns_more data : forall n m i I o,
  consume_turns n data i I = Some o ->
  consume_turns (n + m) data i I = Some o.
Proof.
  induction n as [|n IH]; intros m i I o.
  - rewrite consume_turns_0.
    destruct (Z.ltb_spec i (Z.of_nat (String.length data))); [done|].
    intros <-. by apply consume_turns_end.
  - change (S n + m)%nat with (S (n + m)). rewrite !consume_turns_S.
    destruct (i <? Z.of_nat (String.length data)); [|done].
    destruct (String.get (Z.to_nat i) data) as [c|]; [|done].
    destruct (consume_char c I) as [I1| |]; [|done|done]. apply IH.
Qed.

(** ** Pass after pass *)

Lemma substring_prefix n : forall s,
  (n <= String.length s)%nat ->
  exists post,
    s = String.substring 0 n s +:+ post
    /\ String.length (String.substring 0 n s) = n.
Proof.
  induction n as [|n IH]; intros s Hn.
  - exists s. by destruct s.
  - destruct s as [|c s]; simpl in Hn; [lia|].
    destruct (IH s) as (post & Hs & Hl); [lia|].
    exists post. simpl. rewrite Hl. split; [|done].
    change (String c s = String c (String.substring 0 n s +:+ post)).
    by rewrite <- Hs.
Qed.

(** When the index wraps, the loop is back at the first character. *)
Lemma turns_cycle data I k :
  uint_max <= Z.of_nat (String.length data) ->
  consume_turns (Z.to_nat uint_max + k) data 0 I
  = match consume_pass (String.substring 0 (Z.to_nat uint_max) data) I with
    | Returns I' => consume_turns k data 0 I'
    | OutOfRange => Some OutOfRange
    | Blocks => Some Blocks
    end.
Proof.
  intros Hlen.
  assert (Z.of_nat (Z.to_nat uint_max) = uint_max) as HU
    by (apply Z2Nat.id; unfold uint_max; lia).
  revert HU. generalize (Z.to_nat uint_max). intros U HU.
  destruct (substring_prefix U data) as (post & Hdata & Hl); [lia|].
  pose proof (turns_segment data post (String.substring 0 U data)
                EmptyString I k) as H.
  rewrite Hl in H. change (String.length EmptyString) with 0%nat in H.
  change (Z.of_nat 0) with 0 in H.
  rewrite Z.mod_0_l in H by (unfold uint_max; lia).
  rewrite H; [| exact Hdata | lia].
  rewrite Z.add_0_l, HU, Z.mod_same by (unfold uint_max; lia). done.
Qed.

Lemma turns_passes data k : forall q (I : t),
  uint_max <= Z.of_nat (String.length data) ->
  consume_turns (q * Z.to_nat uint_max + k) data 0 I
  = match passes q (String.substring 0 (Z.to_nat uint_max) data) I with
    | Returns I' => consume_turns k data 0 I'
    | OutOfRange => Some OutOfRange
    | Blocks => Some Blocks
    end.
Proof.
  intros q. induction q as [|q IH]; intros J Hlen; [done|].
  replace (S q * Z.to_nat uint_max + k)%nat
    with (Z.to_nat uint_max + (q * Z.to_nat uint_max + k))%nat by lia.
  rewrite turns_cycle by done.
  change (passes (S q) (String.substring 0 (Z.to_nat uint_max) data) J)
    with (consume_pass (String.substring 0 (Z.to_nat uint_max) data) J
            ≫= passes q (String.substring 0 (Z.to_nat uint_max) data)).
  destruct (consume_pass _ J) as [J1| |]; [|done|done].
  by apply IH.
Qed.

(** What a pass leaves in the buffer. *)
Lemma pass_fill_same data : forall J1 J2 J1' J2',
  buffer_size J1 = buffer_size J2 ->
  consume_pass data J1 = Returns J1' -> consume_pass data J2 = Returns J2' ->
  buffer_size J1' = buffer_size J2'.
Proof.
  induction data as [|c data IH]; intros J1 J2 J1' J2' Hb; simpl.
  - by intros [= <-] [= <-].
  - destruct (decide (c = newline)).
    + apply IH.
      destruct (consume_available_frame J1) as (? & ? & ? & ->).
      by destruct (consume_available_frame J2) as (? & ? & ? & ->).
    + destruct (decide (buffer_size J1 < length (buffer J1))%nat); [|done].
      destruct (decide (buffer_size J2 < length (buffer J2))%nat); [|done].
      apply IH. simpl. by rewrite Hb.
Qed.

Lemma pass_fill_line_feed data : forall J1 J2 J1' J2',
  occurs newline data = true ->
  consume_pass data J1 = Returns J1' -> consume_pass data J2 = Returns J2' ->
  buffer_size J1' = buffer_size J2'.
Proof.
  induction data as [|c data IH]; intros J1 J2 J1' J2'; simpl; [done|].
  destruct (decide (c = newline)) as [->|Hc].
  - intros _. apply pass_fill_same.
    destruct (consume_available_frame J1) as (? & ? & ? & ->).
    by destruct (consume_available_frame J2) as (? & ? & ? & ->).
  - rewrite bool_decide_false by done. simpl. intros Hocc.
    destruct (decide (buffer_size J1 < length (buffer J1))%nat); [|done].
    destruct (decide (buffer_size J2 < length (buffer J2))%nat); [|done].
    by apply IH.
Qed.

Lemma pass_fill_plain data : forall J J',
  occurs newline data = false ->
  consume_pass data J = Returns J' ->
  buffer_size J' = (buffer_size J + String.length data)%nat
  /\ length (buffer J') = length (buffer J)
  /\ ((buffer_size J' <= length (buffer J'))%nat \/ data = EmptyString).
Proof.
  induction data as [|c data IH]; intros J J'; simpl.
  - intros _ [= <-]. split; [lia|]. split; [done|]. by right.
  - destruct (decide (c = newline)) as [->|Hc].
    + by rewrite bool_decide_true.
    + rewrite bool_decide_false by done. simpl. intros Hocc.
      destruct (decide (buffer_size J < length (buffer J))%nat) as [Hlt|];
        [|done].
      intros H. destruct (IH _ _ Hocc H) as (Hb & Hl & Hle).
      simpl in Hb, Hl. rewrite length_insert in Hl.
      split; [lia|]. split; [done|]. left.
      destruct Hle as [Hle| ->]; [done|].
      simpl in H. injection H as <-. simpl. rewrite length_insert. lia.
Qed.

(** With the array of the source, two passes that did not throw are
    followed by passes that do not throw. *)
Lemma passes_forever data I I1 I2 :
  Interpreter.buffer_ok I ->
  (capacity < String.length data)%nat ->
  consume_pass data I = Returns I1 -> consume_pass data I1 = Returns I2 ->
  forall q, exists Iq, passes q data I = Returns Iq.
Proof.
  intros Hok Hlong H1 H2.
  pose proof (buffer_ok_consume _ _ _ Hok H1) as Hok1.
  assert (occurs newline data = true) as Hocc.
  { destruct (occurs newline data) eqn:Hocc; [done|].
    destruct (pass_fill_plain _ _ _ Hocc H1) as (Hb & Hl & Hle).
    destruct Hok1 as [Hlen1 Hsize1]. destruct Hle as [Hle| ->]; [lia|].
    simpl in Hlong. lia. }
  assert (forall q J, Interpreter.buffer_ok J -> buffer_size J = buffer_size I1 ->
            exists Jq, passes q data J = Returns Jq) as Hall.
  { induction q as [|q IH]; intros J HokJ HbJ; [by exists J|].
    pose proof (consume_fits data J HokJ) as HfJ.
    pose proof (consume_fits data I1 Hok1) as Hf1.
    rewrite HbJ in HfJ. rewrite H2 in Hf1.
    destruct (Interpreter.lines_fit (buffer_size I1) data); [|done].
    destruct HfJ as (J' & HJ & HokJ').
    simpl. rewrite HJ. simpl. apply IH; [done|].
    by apply (pass_fill_line_feed data J I J' I1). }
  intros [|q]; [by exists I|]. simpl. rewrite H1. simpl. by apply Hall.
Qed.

(** X18 ([consume] is the loop of the source).  Taken turn by turn with
    its 32-bit index, the loop of [consume] on fewer than [2^32]
    characters ends within as many turns as there are characters, with
    the outcome of [consume].  On [2^32] characters or more it ends in no
    number of turns; with the array of the source it throws in some turn
    exactly when [consume] is [OutOfRange], and is still running after
    every number of turns exactly when [consume] is [Blocks]. *)
Theorem Interpreter_consume_is_the_loop (data : string) (I : Impl.t) :
  (Z.of_nat (String.length data) < uint_max ->
   forall k,
     consume_turns (String.length data + k) data 0 I = Some (consume data I))
  /\ (uint_max <= Z.of_nat (String.length data) ->
      (forall turns I', (consume_turns turns data 0 I ≠ Some (Returns I')))
      /\ (Interpreter.buffer_ok I ->
          (consume data I = OutOfRange
           <-> exists turns, consume_turns turns data 0 I = Some OutOfRange)
          /\ (consume data I = Blocks
              <-> forall turns, consume_turns turns data 0 I = None))).
Proof.
  split; [intros Hlen k; by apply consume_turns_short|].
  intros Hlen.
  assert (0 <= 0 < uint_max) as H0 by (unfold uint_max; lia).
  split; [intros turns I'; by apply consume_turns_runs|].
  intros Hok.
  assert (consume data I = OutOfRange
          <-> exists turns, consume_turns turns data 0 I = Some OutOfRange)
    as Hthrow.
  { pose proof (turns_passes data 0) as Hq.
    pose proof (passes_forever (String.substring 0 (Z.to_nat uint_max) data) I)
      as Hfor.
    assert (capacity < String.length
                         (String.substring 0 (Z.to_nat uint_max) data))%nat
      as Hcap.
    { destruct (substring_prefix (Z.to_nat uint_max) data) as (_ & _ & ->);
        [lia|]. unfold capacity. unfold uint_max. lia. }
    unfold consume. rewrite (proj2 (Z.ltb_ge _ _) Hlen). cbv zeta.
    assert (Z.of_nat (Z.to_nat uint_max) = uint_max) as HU
      by (apply Z2Nat.id; unfold uint_max; lia).
    revert Hq Hfor Hcap HU.
    generalize (String.substring 0 (Z.to_nat uint_max) data). intros head.
    generalize (Z.to_nat uint_max). intros U Hq Hfor Hcap HU.
    assert (0 < U)%nat as HUpos by (unfold uint_max in HU; lia).
    destruct (consume_pass head I) as [I1| |] eqn:H1.
    - simpl. destruct (consume_pass head I1) as [I2| |] eqn:H2.
      + simpl. split; [done|]. intros [turns Ht].
        destruct (Hfor I1 I2 Hok Hcap eq_refl H2 turns) as [Iq HIq].
        pose proof (Hq turns I Hlen) as Hrun. rewrite HIq in Hrun.
        rewrite Nat.add_0_r, consume_turns_0 in Hrun.
        rewrite (proj2 (Z.ltb_lt _ _)) in Hrun by lia.
        assert (turns <= turns * U)%nat as Hle by nia.
        replace (turns * U)%nat with (turns + (turns * U - turns))%nat
          in Hrun by lia.
        rewrite (consume_turns_more _ _ _ _ _ _ Ht) in Hrun. done.
      + simpl. split; [|done]. intros _. exists (2 * U)%nat.
        specialize (Hq 2%nat I Hlen). rewrite Nat.add_0_r in Hq.
        rewrite Hq. simpl. rewrite H1. simpl. by rewrite H2.
      + simpl. split; [done|]. intros [turns Ht].
        specialize (Hq 2%nat I Hlen). rewrite Nat.add_0_r in Hq.
        simpl in Hq. rewrite H1 in Hq. simpl in Hq. rewrite H2 in Hq.
        simpl in Hq.
        by destruct (consume_turns_runs data (2 * U) 0 I I Hlen H0) as [_ ?].
    - simpl. split; [|done]. intros _. exists (1 * U)%nat.
      specialize (Hq 1%nat I Hlen). rewrite Nat.add_0_r in Hq.
      rewrite Hq. simpl. by rewrite H1.
    - simpl. split; [done|]. intros [turns Ht].
      specialize (Hq 1%nat I Hlen). rewrite Nat.add_0_r in Hq.
      simpl in Hq. rewrite H1 in Hq.
      by destruct (consume_turns_runs data (1 * U) 0 I I Hlen H0) as [_ ?]. }
  split; [exact Hthrow|]. split.
  - intros Hb turns.
    destruct (consume_turns turns data 0 I) as [[I'| |]|] eqn:Ht; [| | |done].
    + by destruct (consume_turns_runs data turns 0 I I' Hlen H0).
    + assert (consume data I = OutOfRange) as Hc by (apply Hthrow; eauto).
      by rewrite Hb in Hc.
    + by destruct (consume_turns_runs data turns 0 I I Hlen H0).
  - intros Hnone. destruct (consume data I) as [I'| |] eqn:Hc; [| |done].
    + by apply consume_long in Hc.
    + destruct (proj1 Hthrow eq_refl) as [turns Ht]. by rewrite Hnone in Ht.
Qed.

(** ** An input of empty lines *)










End InterpreterIndex.

(** * More on the connection table *)

Section asyncMore.
Context {R : Reader.t}.
Import async.

(** ** What every table that can be reached keeps *)

Lemma kept_start : kept g_conn_handler.
Proof. intros h I. simpl. by rewrite lookup_empty. Qed.

Lemma step_kept c g g' hs :
  live g -> kept g -> step c g = Returns (g', hs) -> kept g'.
Proof.
  intros Hl Hk. destruct c as [bulk|h data|h sl sf|h sl sf]; simpl.
  - destruct (connect bulk g) as [[h g1]| |] eqn:Hc; [|done|done].
    simpl. intros [= <- <-].
    apply connect_inv in Hc as (-> & Hn & ->).
    intros h' I. simpl. rewrite lookup_insert.
    case_decide; [|apply Hk]. intros [= <-]. subst h'.
    split; [done|]. split; [apply accounted_new_interpreter | done].
  - unfold receive. destruct (connections g !! h) as [I|] eqn:Hh.
    + destruct (Interpreter.consume data I) as [I'| |] eqn:Hc; [|done|done].
      simpl. intros [= <- <-]. intros h' I2. simpl. rewrite lookup_insert.
      case_decide; [|apply Hk]. intros [= <-]. subst h'.
      destruct (Hk _ _ Hh) as (Hname & Hacc & Hlen).
      split; [|split].
      * rewrite <- Hname. unfold Interpreter.consume in Hc.
        destruct (Impl.stopped I); [by injection Hc as <-|].
        apply consume_returns in Hc as [_ Hc]. by eapply consume_name.
      * eapply accounted_consume; [by eapply Hl | done | done].
      * by rewrite (file_pool_consume _ _ _ Hc).
    + simpl. by intros [= <- <-].
  - unfold disconnect. destruct (connections g !! h) as [I|] eqn:Hh.
    + destruct (Interpreter.stop_and_log_metrics sl sf I) as [[I' logged]| |];
        [|done|done].
      simpl. destruct (Interpreter.destroy I'); [|done|done].
      simpl. intros [= <- <-]. intros h' I2. simpl.
      rewrite lookup_delete. case_decide; [done | apply Hk].
    + simpl. by intros [= <- <-].
  - intros [= <- <-]. intros h' I. simpl. rewrite lookup_alter.
    case_decide; [|apply Hk]. subst h'.
    destruct (connections g !! h) as [I0|] eqn:Hh; simpl; [|done].
    intros [= <-]. destruct (Hk _ _ Hh) as (Hname & Hacc & Hlen).
    split; [done|]. split; [by apply accounted_schedule|].
    by rewrite file_pool_schedule.
Qed.

Lemma calls_kept cs : forall g g' hs,
  live g -> kept g -> calls cs g = Returns (g', hs) -> kept g'.
Proof.
  induction cs as [|c cs IH]; intros g g' hs Hl Hk; simpl.
  - by intros [= <- <-].
  - destruct (step c g) as [[g1 hs1]| |] eqn:Hs; [|done|done]. simpl.
    destruct (calls cs g1) as [[g2 hs2]| |] eqn:Hc; [|done|done]. simpl.
    intros [= <- <-].
    eapply IH; [by eapply step_live | by eapply step_kept | done].
Qed.

(** The shutdown of a connection of a table that was reached. *)
Lemma reached_shutdown cs g hs h I sl sf :
  calls cs g_conn_handler = Returns (g, hs) ->
  connections g !! h = Some I ->
  exists I',
    Interpreter.stop_and_log_metrics sl sf I
      = Returns (I', [Interpreter.report I'])
    /\ Impl.name I' = pretty h
    /\ Worker.submitted (Impl.file_worker I')
       = Worker.submitted (Impl.log_worker I')
    /\ (Worker.jobs (Impl.log_worker I')).*2
       = Worker.submitted (Impl.log_worker I')
    /\ (Worker.jobs (Impl.file_worker I')).*2
       ≡ₚ Worker.submitted (Impl.file_worker I')
    /\ Worker.thread_metrics (Impl.log_worker I')
       = [Worker.tally (Worker.submitted (Impl.log_worker I'))]
    /\ Worker.accounted (Impl.file_worker I')
    /\ length (Worker.thread_pool (Impl.file_worker I')) = 2%nat.
Proof.
  intros Hc Hh.
  pose proof (calls_live _ _ _ _ live_start Hc) as Hl.
  pose proof (calls_kept _ _ _ _ live_start kept_start Hc) as Hk.
  destruct (Hk _ _ Hh) as (Hname & Hacc & Hlen).
  destruct (shutdown_counts sl sf I (Hl _ _ Hh) Hacc)
    as (I' & Hs & Hn & H1 & H2 & H3 & H4 & H5 & H6).
  exists I'. rewrite Hn, Hname, H6, Hlen. done.
Qed.

(** X10 (the log part of the report).  When a connection of a table that
    was reached is shut down, the one string logged is the report; it
    bears the decimal of the handle as its name; the log pool has given
    the logger one line per block sent, in the order sent, each under
    that name; its counters are the number of these blocks and of their
    statements; and the file pool was sent the same blocks. *)
Theorem async_report_log_counters (cs : list call) (g : ConnectionsHandler)
    (hs : list Z) (h : Z) (I : Impl.t) (sl sf : list nat) :
  calls cs g_conn_handler = Returns (g, hs) ->
  connections g !! h = Some I ->
  exists I',
    Interpreter.stop_and_log_metrics sl sf I
      = Returns (I', [Interpreter.report I'])
    /\ Impl.name I' = pretty h
    /\ Interpreter.bulk_log I'
       = (fun stms => Interpreter.log_job stms (pretty h))
           <$> Worker.submitted (Impl.log_worker I')
    /\ Worker.thread_metrics (Impl.log_worker I')
       = [Worker.tally (Worker.submitted (Impl.log_worker I'))]
    /\ Worker.submitted (Impl.file_worker I')
       = Worker.submitted (Impl.log_worker I').
Proof.
  intros Hc Hh.
  destruct (reached_shutdown cs g hs h I sl sf Hc Hh)
    as (I' & Hs & Hn & H1 & H2 & H3 & H4 & H5 & H6).
  exists I'. split; [done|]. split; [done|].
  split; [|done]. unfold Interpreter.bulk_log. by rewrite H2, Hn.
Qed.

(** X11 (the file part of the report).  When a connection of a table that
    was reached is shut down, the file pool has two slots of counters,
    each the tally of the blocks its thread has written; the blocks of the
    two threads together are the blocks sent, each once; and the counters
    of the two threads add up to the number of blocks sent and to the
    number of their statements, modulo [2^64]. *)
Theorem async_report_file_counters (cs : list call) (g : ConnectionsHandler)
    (hs : list Z) (h : Z) (I : Impl.t) (sl sf : list nat) :
  calls cs g_conn_handler = Returns (g, hs) ->
  connections g !! h = Some I ->
  exists I',
    Interpreter.stop_and_log_metrics sl sf I
      = Returns (I', [Interpreter.report I'])
    /\ let fw := Impl.file_worker I' in
       let sent := Worker.submitted fw in
       Worker.thread_metrics fw
       = [Worker.tally (Worker.jobs_of 0 fw); Worker.tally (Worker.jobs_of 1 fw)]
       /\ Worker.jobs_of 0 fw ++ Worker.jobs_of 1 fw ≡ₚ sent
       /\ Worker.total_blocks (Worker.thread_metrics fw) mod size_max
          = Z.of_nat (length sent) mod size_max
       /\ Worker.total_statements (Worker.thread_metrics fw) mod size_max
          = Z.of_nat (length (concat sent)) mod size_max.
Proof.
  intros Hc Hh.
  destruct (reached_shutdown cs g hs h I sl sf Hc Hh)
    as (I' & Hs & Hn & H1 & H2 & H3 & H4 & [Hcnt Hby] & H6).
  exists I'. split; [done|]. intros fw sent.
  destruct (counters_add_up fw Hcnt Hby) as [Hb Hst].
  split; [|split; [|split]].
  - rewrite (counted_metrics fw Hcnt). fold fw in H6. by rewrite H6.
  - rewrite jobs_of_pair by done. exact H3.
  - rewrite Hb. f_equal. f_equal.
    rewrite <- (length_fmap snd (Worker.jobs fw)). by apply Permutation_length.
  - rewrite Hst. f_equal. f_equal.
    rewrite !length_concat_weight. fold fw in H3. by rewrite H3.
Qed.

(** X12 (work done was sent).  Between the calls of a run, that is with
    no [receive] or [disconnect] under way, and however the pool threads
    were scheduled between the calls, a connection of the table that was
    reached has both pools sent the same blocks; the lines the log pool
    has given to the logger are those of a prefix of the blocks sent, in
    order and under the decimal of the handle; and the blocks the file
    pool has written are among the blocks sent, none more often than it
    was sent.  Nothing is said of the states inside one call, where the
    log pool is sent a block before the file pool is. *)
Theorem async_work_done_was_sent (cs : list call) (g : ConnectionsHandler)
    (hs : list Z) (h : Z) (I : Impl.t) :
  calls cs g_conn_handler = Returns (g, hs) ->
  connections g !! h = Some I ->
  let sent := Worker.submitted (Impl.log_worker I) in
  Worker.submitted (Impl.file_worker I) = sent
  /\ Interpreter.bulk_log I
     `prefix_of` (fun stms => Interpreter.log_job stms (pretty h)) <$> sent
  /\ (Worker.jobs (Impl.file_worker I)).*2 ⊆+ sent.
Proof.
  intros Hc Hh sent.
  pose proof (calls_live _ _ _ _ live_start Hc) as Hl.
  pose proof (calls_kept _ _ _ _ live_start kept_start Hc) as Hk.
  destruct (Hk _ _ Hh) as (Hname & (_ & _ & Heq) & _).
  destruct (Hl _ _ Hh) as (_ & _ & [(_ & Hord & _) (_ & Hcons & _)] & _).
  split; [done|]. split.
  - unfold Interpreter.bulk_log, sent. rewrite Hname, <- Hord, fmap_app.
    by eexists.
  - unfold sent. rewrite Heq, <- Hcons. by apply submseteq_inserts_r.
Qed.

(** ** A line that does not fit *)

(** X13 (receive and the line buffer).  On a connection of a table that
    was reached, for data shorter than [2^32] bytes, [receive] returns,
    with the connection holding the interpreter after [consume], when
    every line of the data fits in the 1024 places (the first line
    together with what the buffer holds), and throws [std::out_of_range]
    when some line does not.  For data of [2^32] bytes or more [receive]
    does not return. *)
Theorem async_receive_line_fits (cs : list call) (g : ConnectionsHandler)
    (hs : list Z) (h : Z) (I : Impl.t) (data : string) :
  calls cs g_conn_handler = Returns (g, hs) ->
  connections g !! h = Some I ->
  (Z.of_nat (String.length data) < Impl.uint_max ->
   if Interpreter.lines_fit (Impl.buffer_size I) data
   then exists I',
          Impl.consume data I = Returns I'
          /\ receive h data g
             = Returns {| logger := logger g;
                          next_id := next_id g;
                          connections := <[h := I']> (connections g) |}
   else receive h data g = OutOfRange)
  /\ (Impl.uint_max <= Z.of_nat (String.length data) ->
      forall g', receive h data g ≠ Returns g').
Proof.
  intros Hc Hh.
  pose proof (calls_live _ _ _ _ live_start Hc) as Hl.
  destruct (Hl _ _ Hh) as (Hst & _ & _ & Hbuf).
  unfold receive, Interpreter.consume. rewrite Hh, Hst. split.
  - intros Hlen. pose proof (consume_fits data I Hbuf) as Hfit.
    rewrite consume_short by done.
    destruct (Interpreter.lines_fit (Impl.buffer_size I) data).
    + destruct Hfit as (I' & Hcons & _). exists I'. by rewrite Hcons.
    + by rewrite Hfit.
  - intros Hlen g'.
    destruct (Impl.consume data I) as [I'| |] eqn:Hcons; [|done|done].
    by apply consume_long in Hcons.
Qed.

(** ** One connection does not touch another *)

Lemma step_other h c g g' hs :
  step c g = Returns (g', hs) -> addresses h c = false -> h ∉ hs ->
  connections g' !! h = connections g !! h.
Proof.
  destruct c as [bulk|h' data|h' sl sf|h' sl sf]; simpl.
  - destruct (connect bulk g) as [[h1 g1]| |] eqn:Hc; [|done|done].
    simpl. intros [= <- <-] _ Hn.
    apply connect_inv in Hc as (-> & _ & ->). simpl.
    apply lookup_insert_ne. intros <-. apply Hn. by left.
  - intros H Ha _. apply bool_decide_eq_false in Ha. revert H.
    unfold receive. destruct (connections g !! h') as [I|].
    + destruct (Interpreter.consume data I); [|done|done].
      simpl. intros [= <- <-]. simpl. by apply lookup_insert_ne.
    + simpl. by intros [= <- <-].
  - intros H Ha _. apply bool_decide_eq_false in Ha. revert H.
    unfold disconnect. destruct (connections g !! h') as [I|].
    + destruct (Interpreter.stop_and_log_metrics sl sf I) as [[I' logged]| |];
        [|done|done].
      simpl. destruct (Interpreter.destroy I'); [|done|done].
      simpl. intros [= <- <-]. simpl. by apply lookup_delete_ne.
    + simpl. by intros [= <- <-].
  - intros [= <- <-] Ha _. apply bool_decide_eq_false in Ha. simpl.
    by apply lookup_alter_ne.
Qed.

(** X14 (connections are independent).  Calls made on other handles, in
    any number, and connects that return other handles, leave the
    connection of handle [h] exactly as it is: its interpreter, its
    reader, its buffer and its pools. *)
Theorem async_other_calls_keep_connection (cs : list call)
    (g g' : ConnectionsHandler) (hs : list Z) (h : Z) :
  calls cs g = Returns (g', hs) ->
  forallb (fun c => negb (addresses h c)) cs = true ->
  h ∉ hs ->
  connections g' !! h = connections g !! h.
Proof.
  revert g g' hs. induction cs as [|c cs IH]; intros g g' hs; simpl.
  - by intros [= <- <-].
  - destruct (step c g) as [[g1 hs1]| |] eqn:Hs; [|done|done]. simpl.
    destruct (calls cs g1) as [[g2 hs2]| |] eqn:Hc; [|done|done]. simpl.
    intros [= <- <-] Hall Hn.
    apply andb_true_iff in Hall as [Ha Hall].
    apply negb_true_iff in Ha.
    apply not_elem_of_app in Hn as [Hn1 Hn2].
    rewrite (IH _ _ _ Hc Hall Hn2). by eapply step_other.
Qed.

(** ** Handles, connections and reports *)

Lemma size_alter (f : Impl.t -> Impl.t) h (m : gmap Z Impl.t) :
  size (alter f h m) = size m.
Proof.
  rewrite <- !(size_dom (D := gset Z)). by rewrite dom_alter_L.
Qed.

Lemma step_balance c g g' hs :
  live g -> step c g = Returns (g', hs) ->
  (length (logger g') + size (connections g'))%nat
  = (length (logger g) + size (connections g) + length hs)%nat.
Proof.
  intros Hl. destruct c as [bulk|h data|h sl sf|h sl sf]; simpl.
  - destruct (connect bulk g) as [[h g1]| |] eqn:Hc; [|done|done].
    simpl. intros [= <- <-].
    apply connect_inv in Hc as (-> & Hn & ->). simpl.
    rewrite map_size_insert_None by done. lia.
  - unfold receive. destruct (connections g !! h) as [I|] eqn:Hh.
    + destruct (Interpreter.consume data I) as [I'| |]; [|done|done].
      simpl. intros [= <- <-]. simpl.
      rewrite map_size_insert_Some by done. lia.
    + simpl. intros [= <- <-]. simpl. lia.
  - destruct (connections g !! h) as [I|] eqn:Hh.
    + destruct (Hl _ _ Hh) as (Hst & _).
      destruct (disconnect_live h sl sf g I Hh Hst) as (I' & _ & _ & ->).
      simpl. intros [= <- <-]. simpl. rewrite length_app. simpl.
      assert (is_Some (connections g !! h)) as Hin by (by rewrite Hh).
      pose proof (map_size_delete_Some h (connections g) Hin) as Hd.
      pose proof (map_size_ne_0_lookup_2 (connections g) h Hin). lia.
    + rewrite disconnect_unknown by done. simpl. intros [= <- <-]. simpl. lia.
  - intros [= <- <-]. simpl. rewrite size_alter. lia.
Qed.

(** X15 (every handle is accounted for).  In every table that was
    reached, the reports logged and the connections open are together as
    many as the handles given out: each handle either is still connected
    or has had its one report logged. *)
Theorem async_reports_and_connections (cs : list call)
    (g : ConnectionsHandler) (hs : list Z) :
  calls cs g_conn_handler = Returns (g, hs) ->
  (length (logger g) + size (connections g))%nat = length hs.
Proof.
  assert (forall cs g g' hs, live g -> calls cs g = Returns (g', hs) ->
            (length (logger g') + size (connections g'))%nat
            = (length (logger g) + size (connections g) + length hs)%nat) as H.
  { clear. intros cs. induction cs as [|c cs IH]; intros g g' hs Hl; simpl.
    - intros [= <- <-]. simpl. lia.
    - destruct (step c g) as [[g1 hs1]| |] eqn:Hs; [|done|done]. simpl.
      destruct (calls cs g1) as [[g2 hs2]| |] eqn:Hc; [|done|done]. simpl.
      intros [= <- <-]. rewrite length_app.
      rewrite (IH _ _ _ (step_live _ _ _ _ Hl Hs) Hc).
      rewrite (step_balance _ _ _ _ Hl Hs). lia. }
  intros Hc. rewrite (H _ _ _ _ live_start Hc). simpl.
  rewrite map_size_empty. lia.
Qed.

Lemma step_known c g g' hs h :
  step c g = Returns (g', hs) -> is_Some (connections g' !! h) ->
  is_Some (connections g !! h) \/ h ∈ hs.
Proof.
  destruct c as [bulk|h' data|h' sl sf|h' sl sf]; simpl.
  - destruct (connect bulk g) as [[h1 g1]| |] eqn:Hc; [|done|done].
    simpl. intros [= <- <-].
    apply connect_inv in Hc as (-> & _ & ->). simpl.
    rewrite lookup_insert. case_decide; [|by left].
    subst h. right. by left.
  - unfold receive. destruct (connections g !! h') as [I|] eqn:Hh.
    + destruct (Interpreter.consume data I); [|done|done].
      simpl. intros [= <- <-]. simpl. rewrite lookup_insert.
      case_decide; [|by left]. subst h'. left. by rewrite Hh.
    + simpl. intros [= <- <-]. by left.
  - unfold disconnect. destruct (connections g !! h') as [I|].
    + destruct (Interpreter.stop_and_log_metrics sl sf I) as [[I' logged]| |];
        [|done|done].
      simpl. destruct (Interpreter.destroy I'); [|done|done].
      simpl. intros [= <- <-]. simpl. rewrite lookup_delete.
      case_decide; [by intros [? ?] | by left].
    + simpl. intros [= <- <-]. by left.
  - intros [= <- <-]. simpl. rewrite lookup_alter.
    case_decide; [|by left]. subst h'.
    destruct (connections g !! h); simpl; [by left | by intros [? ?]].
Qed.

Lemma calls_known cs : forall g g' hs h,
  calls cs g = Returns (g', hs) -> is_Some (connections g' !! h) ->
  is_Some (connections g !! h) \/ h ∈ hs.
Proof.
  induction cs as [|c cs IH]; intros g g' hs h; simpl.
  - intros [= <- <-]. by left.
  - destruct (step c g) as [[g1 hs1]| |] eqn:Hs; [|done|done]. simpl.
    destruct (calls cs g1) as [[g2 hs2]| |] eqn:Hc; [|done|done]. simpl.
    intros [= <- <-] Hin.
    destruct (IH _ _ _ _ Hc Hin) as [H1|H2].
    + destruct (step_known _ _ _ _ _ Hs H1) as [?|?]; [by left|].
      right. apply elem_of_app. by left.
    + right. apply elem_of_app. by right.
Qed.

(** X16 (connect returns).  In a table that was reached with fewer than
    [2^64] handles given out, every open connection has a handle that was
    given out, and [connect] returns: the handle is the number of handles
    given out before, and the table holds a new interpreter under it and
    every other connection as it was. *)
Theorem async_connect_returns (cs : list call) (g : ConnectionsHandler)
    (hs : list Z) (bulk : Z) :
  calls cs g_conn_handler = Returns (g, hs) ->
  Z.of_nat (length hs) < size_max ->
  (forall h, is_Some (connections g !! h) -> h ∈ hs)
  /\ exists g',
       connect bulk g = Returns (Z.of_nat (length hs), g')
       /\ connections g'
          = <[Z.of_nat (length hs) :=
                Interpreter.new bulk 2 (pretty (Z.of_nat (length hs)))]>
              (connections g)
       /\ connections g !! Z.of_nat (length hs) = None.
Proof.
  intros Hc Hlt.
  assert (forall h, is_Some (connections g !! h) -> h ∈ hs) as Hknown.
  { intros h Hin. destruct (calls_known _ _ _ _ h Hc Hin) as [H|H]; [|done].
    simpl in H. rewrite lookup_empty in H. by destruct H. }
  split; [done|].
  destruct (calls_handles _ _ _ _ id_ok_start Hc) as (_ & Hnext & Hat).
  simpl in Hnext, Hat. rewrite Z.mod_small in Hnext by lia.
  rewrite Z.add_0_l in Hnext.
  assert (connections g !! next_id g = None) as Hfree.
  { destruct (connections g !! next_id g) as [I|] eqn:Hh; [|done].
    assert (next_id g ∈ hs) as Hin by (apply Hknown; by rewrite Hh).
    apply list_elem_of_lookup in Hin as [i Hi].
    pose proof (lookup_lt_Some _ _ _ Hi) as Hil.
    apply Hat in Hi. rewrite Z.mod_small in Hi by lia. lia. }
  rewrite (connect_fresh bulk g Hfree), Hnext.
  eexists. split; [done|]. simpl. split; [done|]. by rewrite <- Hnext.
Qed.

(** X17 (connect on an id that is taken).  When the id [connect] is about
    to hand out is still in the table, as it can be once the counter has
    wrapped around, [emplace] keeps the old entry, the interpreter made
    for the call is destroyed with its pools never stopped, and [connect]
    does not return; neither does any run of calls that starts with it. *)
Theorem async_connect_taken_id (bulk : Z) (g : ConnectionsHandler)
    (cs : list call) :
  is_Some (connections g !! next_id g) ->
  connect bulk g = Blocks /\ calls (Connect bulk :: cs) g = Blocks.
Proof.
  intros [I Hh].
  assert (connect bulk g = Blocks) as Hc.
  { unfold connect. by rewrite Hh, destroy_new. }
  split; [done|]. simpl. by rewrite Hc.
Qed.

End asyncMore.

(** * The laws at work *)

(** The statements above, on concrete input, with the reader that groups
    every [block_size] lines. *)

Section Examples.
#[local] Existing Instance Reader.fixed_reader.

(** The end-to-end run of the specification: blocks of three lines, the
    lines "a" to "e", then disconnect, during which thread 1 of the file
    pool is the first to wake.  The pools were sent {a, b, c}, then the
    flushed {d, e}, and the one string logged is the report. *)
Example end_to_end :
  let nl := Interpreter.endl in
  let input := "a" +:+ nl +:+ "b" +:+ nl +:+ "c" +:+ nl
               +:+ "d" +:+ nl +:+ "e" +:+ nl in
  exists g1 g2 I,
    async.calls [async.Connect 3; async.Receive 0 input] async.g_conn_handler
      = Returns (g1, [0])
    /\ async.connections g1 !! 0 = Some I
    /\ Worker.submitted (Impl.log_worker I) = [["a"; "b"; "c"]]
    /\ Worker.submitted (Impl.file_worker I) = [["a"; "b"; "c"]]
    /\ Reader.pending (Impl.reader I) = ["d"; "e"]
    /\ async.disconnect 0 [] [1%nat; 1%nat; 1%nat] g1 = Returns g2
    /\ async.connections g2 = ∅
    /\ async.logger g2 =
       ["[0] Metrics" +:+ nl
        +:+ Interpreter.tab +:+ "Reader:" +:+ nl
        +:+ Interpreter.tab +:+ Interpreter.tab
        +:+ "lines - 5; statements - 5; blocks - 2" +:+ nl
        +:+ Interpreter.tab +:+ "Log:" +:+ nl
        +:+ Interpreter.tab +:+ Interpreter.tab
        +:+ "blocks - 2; statements - 5" +:+ nl
        +:+ Interpreter.tab +:+ "Files:" +:+ nl
        +:+ Interpreter.tab +:+ "#0" +:+ Interpreter.tab
        +:+ "blocks - 0; statements - 0" +:+ nl
        +:+ Interpreter.tab +:+ "#1" +:+ Interpreter.tab
        +:+ "blocks - 2; statements - 5" +:+ nl].
Proof.
  intros nl input. eexists _, _, _.
  split; [vm_compute; reflexivity|].
  split; [vm_compute; reflexivity|].
  do 3 (split; [reflexivity|]).
  split; [vm_compute; reflexivity|].
  split; [vm_compute; reflexivity|].
  vm_compute. reflexivity.
Qed.





Lemma Interpreter_shutdown_steps_witness :
  exists I,
    Interpreter.consume
      ("a" +:+ Interpreter.endl +:+ "b" +:+ Interpreter.endl +:+ "c")
      (Interpreter.new 2 2 "0") = Returns I
    /\ Impl.stopped I = false
    /\ Impl.subscribers I = [Impl.LogWorker; Impl.FileWorker]
    /\ Interpreter.pending_line I = "c"
    /\ Worker.submitted (Impl.log_worker I) = [["a"; "b"]]
    /\ exists I',
         Interpreter.stop_and_log_metrics [0%nat] [1%nat; 0%nat] I
           = Returns (I', [Interpreter.report I'])
         /\ Impl.stopped I' = true
         /\ Impl.reader I' =
            (Reader.on_eof
               (if decide (Impl.buffer_size I ≠ 0%nat)
                then (Reader.consume (Interpreter.pending_line I)
                        (Impl.reader I)).1
                else Impl.reader I)).1
         /\ Impl.buffer_size I' = 0%nat
         /\ Worker.submitted (Impl.log_worker I') = [["a"; "b"]; ["c"]]
         /\ Worker.submitted (Impl.file_worker I') = [["a"; "b"]; ["c"]]
         /\ Worker.stopped (Impl.log_worker I') = true
         /\ Worker.all_exited (Impl.log_worker I') = true
         /\ Worker.stopped (Impl.file_worker I') = true
         /\ Worker.all_exited (Impl.file_worker I') = true
         /\ (forall sl' sf', Interpreter.schedule sl' sf' I' = I')
         /\ (Interpreter.pools_ok I ->
             (Worker.jobs (Impl.log_worker I')).*2
               = Worker.submitted (Impl.log_worker I')
             /\ (Worker.jobs (Impl.file_worker I')).*2
                ≡ₚ Worker.submitted (Impl.file_worker I')).
Proof.
  eexists. split; [vm_compute; reflexivity|].
  do 4 (split; [reflexivity|]).
  match goal with
  | |- context [Interpreter.stop_and_log_metrics _ _ ?I] =>
      exact (Interpreter_shutdown_steps [0%nat] [1%nat; 0%nat] I eq_refl eq_refl)
  end.
Defined.


Lemma async_handles_increase_witness :
  let cs := [async.Connect 3; async.Receive 0 "a"; async.Connect 1;
             async.Disconnect 0 [] []; async.Connect 2] in
  exists g hs,
    async.calls cs async.g_conn_handler
      = Returns (g, hs)
    /\ hs = [0; 1; 2]
    /\ Z.of_nat (length hs) <= size_max
    /\ (forall i h, hs !! i = Some h -> h = Z.of_nat i)
    /\ (forall i j hi hj, (i < j)%nat ->
          hs !! i = Some hi -> hs !! j = Some hj -> hi < hj)
    /\ (forall i j h, hs !! i = Some h -> hs !! j = Some h -> i = j).
Proof.
  intros cs. eexists _, _. split; [vm_compute; reflexivity|].
  split; [reflexivity|]. split; [vm_compute; discriminate|].
  eapply (async_handles_increase cs).
  - vm_compute. reflexivity.
  - vm_compute. discriminate.
Defined.

(** C5 as stated fails: the id counter is a [uintptr_t] and wraps.  After
    [2^64] rounds of connect and disconnect, which return the handles
    [0], [1], ... one after the other, the next [connect] returns the
    handle [0] again. *)
Lemma async_handle_returned_twice :
  exists g hs,
    async.calls
      ((async.churn (2 ^ 64)).2 ++ [async.Connect 1]) async.g_conn_handler
    = Returns (g, 0 :: hs ++ [0])
    /\ ~ (forall i j hi hj, (i < j)%nat ->
           (0 :: hs ++ [0]) !! i = Some hi ->
           (0 :: hs ++ [0]) !! j = Some hj -> hi < hj).
Proof.
  destruct (churn_wraps (2 ^ 64)%N eq_refl) as (g & hs & Hc).
  exists g, hs. split; [exact Hc|].
  intros Hlt.
  specialize (Hlt 0%nat (S (length hs)) 0 0).
  assert (0 < 0) as Habs; [|lia].
  apply Hlt; [lia | done |]. simpl. by apply list_lookup_middle.
Qed.

Lemma async_unknown_handle_ignored_witness :
  let cs := [async.Connect 3; async.Disconnect 0 [] []] in
  exists g hs,
    async.calls cs async.g_conn_handler
      = Returns (g, hs)
    /\ (async.connections g !! 0 = None
        \/ (exists g0 sl0 sf0, async.disconnect 0 sl0 sf0 g0 = Returns g))
    /\ async.receive 0 "late" g = Returns g
    /\ async.disconnect 0 [] [] g = Returns g.
Proof.
  intros cs. eexists _, _. split; [vm_compute; reflexivity|].
  assert (forall g : async.ConnectionsHandler,
            async.connections g !! 0 = None ->
            (async.connections g !! 0 = None
             \/ (exists g0 sl0 sf0, async.disconnect 0 sl0 sf0 g0 = Returns g))
            /\ async.receive 0 "late" g = Returns g
            /\ async.disconnect 0 [] [] g = Returns g) as H.
  { intros g Hn. split; [by left|].
    apply (async_unknown_handle_ignored).
    by left. }
  apply H. vm_compute. reflexivity.
Defined.

Lemma async_connect_pools_witness :
  exists g',
    async.connect 3 async.g_conn_handler
      = Returns (0, g')
    /\ exists I,
         async.connections g' !! 0 = Some I
         /\ I = Interpreter.new 3 2 (pretty 0)
         /\ length (Worker.thread_pool (Impl.log_worker I)) = 1%nat
         /\ length (Worker.thread_pool (Impl.file_worker I)) = 2%nat
         /\ Impl.subscribers I = [Impl.LogWorker; Impl.FileWorker]
         /\ (forall I0 stms,
               Impl.subscribers I0 = Impl.subscribers I ->
               Worker.submitted (Impl.log_worker (Impl.notify I0 stms))
                 = Worker.submitted (Impl.log_worker I0) ++ [stms]
               /\ Worker.submitted (Impl.file_worker (Impl.notify I0 stms))
                 = Worker.submitted (Impl.file_worker I0) ++ [stms]).
Proof.
  eexists. split; [reflexivity|].
  apply (async_connect_pools 3 async.g_conn_handler).
  reflexivity.
Defined.

Lemma Worker_metrics_exact_witness :
  let tr := [Worker.Send ["a"; "b"]; Worker.Run 1; Worker.Run 1;
             Worker.Send ["c"]; Worker.Run 0; Worker.Run 0; Worker.Run 1] in
  (1 < 2)%nat
  /\ Worker.jobs_of 1 (Worker.execs tr (Worker.new 2)) = [["a"; "b"]]
  /\ Worker.thread_metrics (Worker.execs tr (Worker.new 2)) !! 1%nat
     = Some (Worker.tally (Worker.jobs_of 1 (Worker.execs tr (Worker.new 2)))).
Proof.
  intros tr. split; [lia|]. split; [vm_compute; reflexivity|].
  apply (Worker_metrics_exact 2 tr 1). lia.
Defined.

Lemma Worker_thread_works_off_queue_witness :
  let w := Worker.execs [Worker.Send ["a"]; Worker.Send ["b"; "c"]]
             (Worker.new 2) in
  Worker.thread_pool w !! 1%nat = Some Worker.Waiting
  /\ Worker.stopped w = false
  /\ Worker.bulks w ≠ []
  /\ let w' := Nat.iter (length (Worker.bulks w) + 2) (Worker.run 1) w in
     Worker.thread_pool w' = Worker.thread_pool w
     /\ Worker.bulks w' = []
     /\ Worker.stopped w' = false
     /\ Worker.submitted w' = Worker.submitted w
     /\ Worker.jobs w'
        = Worker.jobs w ++ ((fun stms => (1%nat, stms)) <$> Worker.bulks w).
Proof.
  intros w.
  assert (Worker.bulks w ≠ []) as Hq by (vm_compute; discriminate).
  split; [reflexivity|]. split; [reflexivity|]. split; [exact Hq|].
  exact (Worker_thread_works_off_queue 1 w eq_refl eq_refl Hq).
Defined.

Lemma Worker_join_needs_stop_witness :
  let tr := [Worker.Send ["a"]; Worker.Run 0; Worker.Run 0; Worker.Run 0] in
  (1 <= 2)%nat
  /\ forallb (fun e => negb (Worker.is_stop e)) tr = true
  /\ Worker.join [0%nat; 1%nat] (Worker.execs tr (Worker.new 2)) = Blocks
  /\ Worker.destroy (Worker.execs tr (Worker.new 2)) = Blocks.
Proof.
  intros tr. split; [lia|]. split; [reflexivity|].
  apply (Worker_join_needs_stop 2 tr [0%nat; 1%nat]); [lia | reflexivity].
Defined.

Lemma Worker_join_again_witness :
  let w := Worker.execs [Worker.Send ["a"]; Worker.Stop] (Worker.new 2) in
  exists w',
    Worker.join [1%nat] w = Returns w'
    /\ (forall sched', Worker.join sched' w' = Returns w')
    /\ Worker.destroy w' = Returns ().
Proof.
  intros w. eexists. split; [vm_compute; reflexivity|].
  apply (Worker_join_again [1%nat] w). vm_compute. reflexivity.
Defined.

Lemma Interpreter_consume_keeps_bytes_witness :
  let data := "a" +:+ Interpreter.endl +:+ "b" +:+ Interpreter.endl +:+ "c" in
  let I := Interpreter.new 2 2 "0" in
  exists I',
    Impl.consume data I = Returns I'
    /\ Interpreter.owed (Interpreter.pending_line I) data = ["a"; "b"]
    /\ Interpreter.pending_line I' = "c"
    /\ let ls := Interpreter.owed (Interpreter.pending_line I) data in
       Impl.reader I' = Interpreter.given ls (Impl.reader I)
       /\ Interpreter.rejoin ls (Interpreter.pending_line I')
          = Interpreter.pending_line I +:+ data
       /\ (occurs Impl.newline (Interpreter.pending_line I) = false ->
           Forall (fun l => occurs Impl.newline l = false) ls
           /\ occurs Impl.newline (Interpreter.pending_line I') = false).
Proof.
  intros data I. eexists. split; [vm_compute; reflexivity|].
  split; [vm_compute; reflexivity|]. split; [vm_compute; reflexivity|].
  apply (Interpreter_consume_keeps_bytes data I). vm_compute. reflexivity.
Defined.

Lemma Interpreter_file_text_lines_witness :
  let stms := ["cmd1"; "cmd2"] in
  Forall (fun v => occurs Impl.newline v = false) stms
  /\ Interpreter.lines (Interpreter.file_text stms) = stms ++ [EmptyString].
Proof.
  intros stms.
  assert (Forall (fun v => occurs Impl.newline v = false) stms) as H.
  { repeat constructor. }
  split; [exact H|]. exact (Interpreter_file_text_lines stms H).
Defined.

Lemma Interpreter_consume_after_stop_witness :
  let I := Interpreter.new 2 2 "0" in
  let long := String.string_of_list_ascii (replicate 1025 (Ascii.ascii_of_nat 120)) in
  exists I' logged,
    Interpreter.stop_and_log_metrics [] [] I = Returns (I', logged)
    /\ Interpreter.consume long I = OutOfRange
    /\ Interpreter.consume long I' = Returns I'.
Proof.
  intros I long. eexists _, _. split; [vm_compute; reflexivity|].
  split; [vm_compute; reflexivity|].
  eapply (Interpreter_consume_after_stop [] [] I). vm_compute. reflexivity.
Defined.

Lemma Interpreter_consume_is_the_loop_witness :
  let data := "ab" +:+ Interpreter.endl +:+ "c" in
  let I := Impl.new "0" 2 2 in
  Z.of_nat (String.length data) < Impl.uint_max
  /\ Impl.consume_turns (String.length data + 0) data 0 I
     = Some (Impl.consume data I)
  /\ Impl.consume_turns 3 data 0 I = None.
Proof.
  intros data I.
  assert (Z.of_nat (String.length data) < Impl.uint_max) as Hlen.
  { vm_compute. reflexivity. }
  split; [exact Hlen|]. split; [|vm_compute; reflexivity].
  exact (proj1 (Interpreter_consume_is_the_loop data I) Hlen 0%nat).
Defined.

Lemma async_report_log_counters_witness :
  let nl := Interpreter.endl in
  let cs := [async.Connect 2;
             async.Receive 0 ("a" +:+ nl +:+ "b" +:+ nl +:+ "c" +:+ nl)] in
  exists g hs I,
    async.calls cs async.g_conn_handler = Returns (g, hs)
    /\ async.connections g !! 0 = Some I
    /\ exists I',
         Interpreter.stop_and_log_metrics [] [1%nat] I
           = Returns (I', [Interpreter.report I'])
         /\ Impl.name I' = pretty 0
         /\ Interpreter.bulk_log I'
            = (fun stms => Interpreter.log_job stms (pretty 0))
                <$> Worker.submitted (Impl.log_worker I')
         /\ Worker.thread_metrics (Impl.log_worker I')
            = [Worker.tally (Worker.submitted (Impl.log_worker I'))]
         /\ Worker.submitted (Impl.file_worker I')
            = Worker.submitted (Impl.log_worker I').
Proof.
  intros nl cs. eexists _, _, _. split; [vm_compute; reflexivity|].
  split; [vm_compute; reflexivity|].
  eapply (async_report_log_counters cs _ _ 0); vm_compute; reflexivity.
Defined.

Lemma async_report_file_counters_witness :
  let nl := Interpreter.endl in
  let cs := [async.Connect 1;
             async.Receive 0 ("a" +:+ nl +:+ "b" +:+ nl);
             async.Schedule 0 [] [1%nat; 1%nat; 1%nat];
             async.Receive 0 ("c" +:+ nl)] in
  exists g hs I,
    async.calls cs async.g_conn_handler = Returns (g, hs)
    /\ async.connections g !! 0 = Some I
    /\ exists I',
         Interpreter.stop_and_log_metrics [] [0%nat] I
           = Returns (I', [Interpreter.report I'])
         /\ let fw := Impl.file_worker I' in
            let sent := Worker.submitted fw in
            Worker.thread_metrics fw
            = [Worker.tally (Worker.jobs_of 0 fw);
               Worker.tally (Worker.jobs_of 1 fw)]
            /\ Worker.jobs_of 0 fw ++ Worker.jobs_of 1 fw ≡ₚ sent
            /\ Worker.total_blocks (Worker.thread_metrics fw) mod size_max
               = Z.of_nat (length sent) mod size_max
            /\ Worker.total_statements (Worker.thread_metrics fw) mod size_max
               = Z.of_nat (length (concat sent)) mod size_max.
Proof.
  intros nl cs. eexists _, _, _. split; [vm_compute; reflexivity|].
  split; [vm_compute; reflexivity|].
  eapply (async_report_file_counters cs _ _ 0); vm_compute; reflexivity.
Defined.

Lemma async_work_done_was_sent_witness :
  let nl := Interpreter.endl in
  let cs := [async.Connect 1;
             async.Receive 0 ("a" +:+ nl +:+ "b" +:+ nl);
             async.Schedule 0 [0%nat; 0%nat] [1%nat; 1%nat]] in
  exists g hs I,
    async.calls cs async.g_conn_handler = Returns (g, hs)
    /\ async.connections g !! 0 = Some I
    /\ Interpreter.bulk_log I = ["[0] bulk: a"]
    /\ let sent := Worker.submitted (Impl.log_worker I) in
       Worker.submitted (Impl.file_worker I) = sent
       /\ Interpreter.bulk_log I
          `prefix_of` (fun stms => Interpreter.log_job stms (pretty 0)) <$> sent
       /\ (Worker.jobs (Impl.file_worker I)).*2 ⊆+ sent.
Proof.
  intros nl cs. eexists _, _, _. split; [vm_compute; reflexivity|].
  split; [vm_compute; reflexivity|]. split; [vm_compute; reflexivity|].
  eapply (async_work_done_was_sent cs _ _ 0); vm_compute; reflexivity.
Defined.

Lemma async_receive_line_fits_witness :
  let cs := [async.Connect 3; async.Receive 0 "ab"] in
  let long :=
    String.string_of_list_ascii (replicate 1023 (Ascii.ascii_of_nat 120)) in
  exists g hs I,
    async.calls cs async.g_conn_handler = Returns (g, hs)
    /\ async.connections g !! 0 = Some I
    /\ Z.of_nat (String.length long) < Impl.uint_max
    /\ Interpreter.lines_fit (Impl.buffer_size I) long = false
    /\ async.receive 0 long g = OutOfRange.
Proof.
  intros cs long. eexists _, _, _. split; [vm_compute; reflexivity|].
  split; [vm_compute; reflexivity|].
  assert (Z.of_nat (String.length long) < Impl.uint_max) as Hlen.
  { vm_compute. reflexivity. }
  split; [exact Hlen|].
  match goal with
  | |- _ /\ async.receive _ _ ?g = _ =>
      match goal with
      | |- Interpreter.lines_fit (Impl.buffer_size ?I) _ = _ /\ _ =>
          assert (Interpreter.lines_fit (Impl.buffer_size I) long = false)
            as Hfit by (vm_compute; reflexivity);
          split; [exact Hfit|];
          pose proof (proj1 (async_receive_line_fits cs g [0] 0 I long
                               ltac:(vm_compute; reflexivity)
                               ltac:(vm_compute; reflexivity)) Hlen) as H;
          rewrite Hfit in H; exact H
      end
  end.
Defined.

Lemma async_other_calls_keep_connection_witness :
  let nl := Interpreter.endl in
  let cs := [async.Receive 1 ("x" +:+ nl +:+ "y" +:+ nl); async.Connect 1;
             async.Schedule 1 [0%nat] [0%nat]; async.Disconnect 1 [] []] in
  exists g hs0 g' hs,
    async.calls [async.Connect 3; async.Connect 3; async.Receive 0 "a"]
      async.g_conn_handler = Returns (g, hs0)
    /\ async.calls cs g = Returns (g', hs)
    /\ forallb (fun c => negb (async.addresses 0 c)) cs = true
    /\ (0 ∉ hs)
    /\ is_Some (async.connections g !! 0)
    /\ async.connections g' !! 0 = async.connections g !! 0.
Proof.
  intros nl cs. eexists _, _, _, _. split; [vm_compute; reflexivity|].
  split; [vm_compute; reflexivity|]. split; [reflexivity|].
  assert (0 ∉ [2]) as Hn.
  { apply not_elem_of_cons. split; [lia | apply not_elem_of_nil]. }
  split; [exact Hn|]. split; [by eexists|].
  eapply (async_other_calls_keep_connection cs);
    [vm_compute; reflexivity | reflexivity | exact Hn].
Defined.

Lemma async_reports_and_connections_witness :
  let cs := [async.Connect 3; async.Connect 1; async.Disconnect 0 [] [];
             async.Receive 1 "a"; async.Connect 2; async.Disconnect 0 [] []] in
  exists g hs,
    async.calls cs async.g_conn_handler = Returns (g, hs)
    /\ hs = [0; 1; 2]
    /\ length (async.logger g) = 1%nat
    /\ (length (async.logger g) + size (async.connections g))%nat = length hs.
Proof.
  intros cs. eexists _, _. split; [vm_compute; reflexivity|].
  split; [reflexivity|]. split; [reflexivity|].
  eapply (async_reports_and_connections cs). vm_compute. reflexivity.
Defined.

Lemma async_connect_returns_witness :
  let cs := [async.Connect 3; async.Connect 1; async.Disconnect 0 [] []] in
  exists g hs,
    async.calls cs async.g_conn_handler = Returns (g, hs)
    /\ Z.of_nat (length hs) < size_max
    /\ (forall h, is_Some (async.connections g !! h) -> h ∈ hs)
    /\ exists g',
         async.connect 5 g = Returns (Z.of_nat (length hs), g')
         /\ async.connections g'
            = <[Z.of_nat (length hs) :=
                  Interpreter.new 5 2 (pretty (Z.of_nat (length hs)))]>
                (async.connections g)
         /\ async.connections g !! Z.of_nat (length hs) = None.
Proof.
  intros cs. eexists _, _. split; [vm_compute; reflexivity|].
  split; [vm_compute; reflexivity|].
  eapply (async_connect_returns cs); vm_compute; reflexivity.
Defined.

Lemma async_connect_taken_id_witness :
  let g := {| async.logger := [];
              async.next_id := 0;
              async.connections := {[ 0 := Interpreter.new 1 2 "0" ]} |} in
  is_Some (async.connections g !! async.next_id g)
  /\ async.connect 7 g = Blocks
  /\ async.calls [async.Connect 7; async.Disconnect 0 [] []] g = Blocks.
Proof.
  intros g.
  assert (is_Some (async.connections g !! async.next_id g)) as H.
  { by eexists. }
  split; [exact H|].
  exact (async_connect_taken_id 7 g [async.Disconnect 0 [] []] H).
Defined.

End Examples.
